(** * Kademlia routing table of OpenBazaar ([node/routingtable.py])

    A shallow embedding of [TreeRoutingTable] and
    [OptimizedTreeRoutingTable], and the properties of the routing table
    stated over it.

    Python methods mutate [self] and may raise; they are embedded as
    computations in a state-and-exception monad [M S A], where [S] is the
    object the method mutates.  A raise keeps the mutations made before
    it, as in Python. *)

From Stdlib Require Import ZArith Zbitwise Ascii String Lia.
From stdpp Require Import base tactics option list numbers gmap.

Local Open Scope Z_scope.

(** ** Exceptions and the method monad *)

(** The Python exceptions that the routing table raises or lets through.
    [PingFailed] is the exception of a failed PING that is no timeout.
    [OutOfFuel] is not a Python exception: it marks a recursion or a loop
    of the embedding that was cut by its step bound, and no handler
    catches it. *)
Inductive Exn : Type :=
  | NameError (name : string)
  | AttributeError (attr : string)
  | KeyError
  | RuntimeError
  | ValueError
  | TypeError
  | IndexError
  | BucketFull
  | PingFailed
  | OutOfFuel.

Inductive Outcome (A : Type) : Type :=
  | Return (a : A)
  | Raise (e : Exn).
Arguments Return {A} a.
Arguments Raise {A} e.

Definition M (S A : Type) : Type := S -> S * Outcome A.

#[global] Instance M_ret {S} : MRet (M S) :=
  fun A a s => (s, Return a).

#[global] Instance M_bind {S} : MBind (M S) :=
  fun A B f m s =>
    match m s with
    | (s', Return a) => f a s'
    | (s', Raise e) => (s', Raise e)
    end.

Definition get {S} : M S S := fun s => (s, Return s).
Definition gets {S A} (f : S -> A) : M S A := fun s => (s, Return (f s)).
Definition put {S} (s : S) : M S unit := fun _ => (s, Return tt).
Definition modify {S} (f : S -> S) : M S unit := fun s => (f s, Return tt).
Definition raise {S A} (e : Exn) : M S A := fun s => (s, Raise e).

(** A name that no enclosing scope binds: reading it raises [NameError]. *)
Definition unbound {S A} (name : string) : M S A := raise (NameError name).

(** An attribute the object does not have: reading it raises
    [AttributeError]. *)
Definition no_attribute {S A} (attr : string) : M S A :=
  raise (AttributeError attr).

(** [try: m  except <the e with handler e = Some h>: h]. *)
Definition try_except {S A} (m : M S A) (handler : Exn -> option (M S A))
  : M S A :=
  fun s =>
    match m s with
    | (s', Return a) => (s', Return a)
    | (s', Raise e) =>
        match handler e with
        | Some h => h s'
        | None => (s', Raise e)
        end
    end.

(** Runs [m] and hands its outcome to the caller, for
    [try: ... except: ... else: ...]. *)
Definition attempt {S A} (m : M S A) : M S (Outcome A) :=
  fun s => let (s', r) := m s in (s', Return r).

(** What a Deferred does with a callback [m]: an exception that the
    callback raises stays in the Deferred, as its new failure, and does
    not reach the code that added the callback.  (A cut by a step bound
    is no exception and is passed on.) *)
Definition in_callback {S} (m : M S unit) : M S unit :=
  fun s =>
    match m s with
    | (s', Raise OutOfFuel) => (s', Raise OutOfFuel)
    | (s', _) => (s', Return tt)
    end.

(** The final state and the outcome of a computation. *)
Definition state_of {S A} (r : S * Outcome A) : S := fst r.
Definition outcome_of {S A} (r : S * Outcome A) : Outcome A := snd r.

(** [for x in l: body x]. *)
Fixpoint for_each {S A} (l : list A) (body : A -> M S unit) : M S unit :=
  match l with
  | [] => mret tt
  | x :: l' => body x ;; for_each l' body
  end.

(** [[x for x in l if p x]], where [p] may raise. *)
Fixpoint filterM {S A} (p : A -> M S bool) (l : list A) : M S (list A) :=
  match l with
  | [] => mret []
  | x :: l' =>
      b ← p x;
      r ← filterM p l';
      mret (if b : bool then x :: r else r)
  end.

(** ** Identifiers and contacts *)

(** Modelled from the spec: [constants.py] is not part of the sources.
    Identifiers have [B = 160] bits, a bucket holds [k = 20] contacts and
    a bucket is stale after [refresh_timeout = 3600] seconds.  The id
    width is fixed because [_randomIDInBucketRange] hard-codes 20-byte
    ids; the bucket size and the refresh timeout are only ever read, so
    the definitions below take them as parameters [k] and
    [refreshTimeout], and every theorem holds for all their values.
    [routingtable.py] reaches these constants as [constants.k] and
    [constants.refreshTimeout]; the bare name [BIT_NODE_ID_LEN] that its
    constructor reads is not bound by the module. *)
Module constants.
Definition BIT_NODE_ID_LEN : Z := 160.
Definition k : nat := 20.
Definition refreshTimeout : Z := 3600.
End constants.

(** A guid as the routing table sees it: [None] is the empty (falsy)
    guid, [Some n] a well-encoded id with integer value [n]. *)
Definition Guid : Type := option Z.

(** A transport address, compared by value: host and port. *)
Definition Address : Type := (string * Z)%type.

(** Modelled from the spec: the contact class is not part of the
    sources.  A contact has a guid, an address and a counter of failed
    RPCs; two contacts are the same iff their guids are equal. *)
Record Contact : Type := mkContact {
  guid : Guid;
  address : Address;
  failedRPCs : nat
}.

#[global] Instance Contact_eq_dec : EqDecision Contact.
Proof. solve_decision. Defined.

Definition set_failedRPCs (n : nat) (c : Contact) : Contact :=
  mkContact (guid c) (address c) n.

(** [c == g] of the contact class: equality by guid. *)
Definition has_guid (g : Guid) (c : Contact) : Prop := guid c = g.

#[global] Instance has_guid_dec g c : Decision (has_guid g c).
Proof. unfold has_guid. apply _. Defined.

(** [l.remove(x)] of a Python list, by guid equality: drops the first
    match, [None] when there is none (Python raises [ValueError]). *)
Fixpoint list_remove (g : Guid) (l : list Contact) : option (list Contact) :=
  match l with
  | [] => None
  | c :: l' =>
      if decide (has_guid g c) then Some l'
      else match list_remove g l' with
           | Some r => Some (c :: r)
           | None => None
           end
  end.

(** The first contact of [l] with guid [g]. *)
Definition list_find_guid (g : Guid) (l : list Contact) : option Contact :=
  snd <$> list_find (has_guid g) l.

(** ** K-buckets *)

(** Modelled from the spec: [kbucket.py] is not part of the sources.
    A bucket is a bounded ordered list of contacts over the id range
    [[rangeMin, rangeMax)], with the time of its last touch.  Index 0 is
    the least recently seen contact, the tail the most recent one. *)
Record KBucket : Type := mkKBucket {
  rangeMin : Z;
  rangeMax : Z;
  contacts : list Contact;
  lastAccessed : Z
}.

Module kbucket.
Section kbucket.
Variable k : nat.

Definition set_contacts (l : list Contact) (b : KBucket) : KBucket :=
  mkKBucket (rangeMin b) (rangeMax b) l (lastAccessed b).

Definition set_lastAccessed (t : Z) (b : KBucket) : KBucket :=
  mkKBucket (rangeMin b) (rangeMax b) (contacts b) t.

Definition set_rangeMax (hi : Z) (b : KBucket) : KBucket :=
  mkKBucket (rangeMin b) hi (contacts b) (lastAccessed b).

(** Modelled from the spec: [KBucket(rangeMin, rangeMax)] is empty.
    The spec does not say what its [last_accessed] is; it is taken to
    be 0. *)
Definition init (rangeMin rangeMax : Z) : KBucket :=
  mkKBucket rangeMin rangeMax [] 0.

(** Modelled from the spec: [key_in_range(id)] is
    [range_min <= id < range_max]; an id that does not decode fails
    with [BadEncoding], which the code calls [ValueError]. *)
Definition keyInRange (key : Guid) : M KBucket bool :=
  match key with
  | None => raise ValueError
  | Some n => b ← get; mret (bool_decide (rangeMin b <= n < rangeMax b))
  end.

(** Modelled from the spec: [add_contact(c)] moves the entry with the
    guid of [c] to the tail when there is one; otherwise it appends [c]
    when the size is below [k], and fails with [BucketFull] when the
    bucket is full.  A successful call updates [last_accessed]. *)
Definition addContact (now : Z) (contact : Contact) : M KBucket unit :=
  b ← get;
  match list_find_guid (guid contact) (contacts b) with
  | Some existing =>
      put (set_lastAccessed now
             (set_contacts
                (default [] (list_remove (guid contact) (contacts b))
                 ++ [existing]) b))
  | None =>
      if decide (length (contacts b) < k)%nat
      then put (set_lastAccessed now
                  (set_contacts (contacts b ++ [contact]) b))
      else raise BucketFull
  end.

(** Modelled from the spec: [get_contact(guid)] is the contact with
    exactly this guid, or absent. *)
Definition getContact (contactID : Guid) : M KBucket (option Contact) :=
  b ← get; mret (list_find_guid contactID (contacts b)).

(** Modelled from the spec: [remove_contact(guid)] removes the contact
    with that guid and fails with [NotPresent] when there is none; the
    callers in [routingtable.py] catch it as [ValueError]. *)
Definition removeContact (contactID : Guid) : M KBucket unit :=
  b ← get;
  match list_remove contactID (contacts b) with
  | Some l => put (set_contacts l b)
  | None => raise ValueError
  end.

(** Modelled from the spec: [get_contacts(n, exclude)] returns up to
    [n] contacts in insertion order, leaving out any whose guid is
    [exclude]; for [n = 0] or an empty bucket the list is empty. *)
Definition getContacts (count : nat) (excludeContact : Guid)
  : M KBucket (list Contact) :=
  b ← get;
  mret (take count
          (filter (fun c => ¬ has_guid excludeContact c) (contacts b))).

(** [bucket.contacts[i]]. *)
Definition contacts_getitem (i : nat) : M KBucket Contact :=
  b ← get;
  match contacts b !! i with
  | Some c => mret c
  | None => raise IndexError
  end.
End kbucket.
End kbucket.

(** ** Python strings and their hex codec *)

(** A Python 2 [str] is a string of bytes: a list of 8-bit characters. *)
Definition str : Type := list ascii.

Module pystr.
(** The machine-word bound of Python 2 on a 64-bit platform: above it an
    integer is a [long], and [hex] ends in ['L']. *)
Definition sys_maxint : Z := 2 ^ 63 - 1.

Definition hex_char (d : Z) : ascii :=
  ascii_of_nat (Z.to_nat (if d <? 10 then 48 + d else 87 + d)).

(** The value of a hex digit, in either case. *)
Definition hex_val (c : ascii) : option Z :=
  let n := Z.of_nat (nat_of_ascii c) in
  if (48 <=? n) && (n <=? 57) then Some (n - 48)
  else if (97 <=? n) && (n <=? 102) then Some (n - 87)
  else if (65 <=? n) && (n <=? 70) then Some (n - 55)
  else None.

Fixpoint hex_digits_fuel (fuel : nat) (n : Z) : str :=
  match fuel with
  | O => []
  | S fuel' =>
      if n <? 16 then [hex_char n]
      else hex_digits_fuel fuel' (n / 16) ++ [hex_char (n mod 16)]
  end.

(** The hex digits of [n >= 0], most significant first, no leading
    zero. *)
Definition hex_digits (n : Z) : str :=
  hex_digits_fuel (S (Z.to_nat (Z.log2 n))) n.

(** [hex(n)]. *)
Definition hex (n : Z) : str :=
  (if n <? 0 then ["-"%char] else [])
  ++ ["0"%char; "x"%char] ++ hex_digits (Z.abs n)
  ++ (if (sys_maxint <? n) || (n <? - sys_maxint - 1)
      then ["L"%char] else []).

(** [s.decode('hex')]: [None] stands for the [TypeError] on an odd
    length or a character that is no hex digit. *)
Fixpoint decode_hex (s : str) : option str :=
  match s with
  | [] => Some []
  | [_] => None
  | hi :: lo :: s' =>
      match hex_val hi, hex_val lo, decode_hex s' with
      | Some h, Some l, Some r =>
          Some (ascii_of_nat (Z.to_nat (16 * h + l)) :: r)
      | _, _, _ => None
      end
  end.

(** [s.encode('hex')]. *)
Definition encode_hex (s : str) : str :=
  flat_map (fun c => let n := Z.of_nat (nat_of_ascii c) in
                     [hex_char (n / 16); hex_char (n mod 16)]) s.

(** [n * c], the repetition of a one-character string; empty for
    [n <= 0]. *)
Definition repeat_char (n : Z) (c : ascii) : str :=
  replicate (Z.to_nat n) c.

(** [int(s, 16)] on a string of hex digits. *)
Definition int16 (s : str) : option Z :=
  foldl (fun acc c => a ← acc; d ← hex_val c; Some (16 * a + d))
        (Some 0) s.

(** [len(s)]. *)
Definition len (s : str) : Z := Z.of_nat (length s).
End pystr.

(** ** The tree routing table *)

(** [parent_node_id] is the id of the local node; [buckets] is the list
    of k-buckets in id order.  [market_id] and the logger only label log
    lines and are left out. *)
Record TreeRoutingTable : Type := mkTreeRoutingTable {
  parent_node_id : Guid;
  buckets : list KBucket
}.

(** How a PING of a contact ends: with an answer, with the [TimeoutError]
    failure that carries the id of the contact in its error message, or
    with another failure. *)
Inductive PingResult : Type :=
  | Pong
  | TimeoutError (errorMessage : Guid)
  | OtherFailure.

(** The network as [headContact.ping()] sees it: how the PING of the
    contact it is sent to ends. *)
Definition Ping : Type := Contact -> PingResult.

(** Reads [name], bound to [binding] when some scope binds it. *)
Definition read_name {S A} (name : string) (binding : option A) : M S A :=
  match binding with
  | Some v => mret v
  | None => unbound name
  end.

Module Tree.
Section Tree.
Variable k : nat.
Variable refreshTimeout : Z.

Definition set_buckets (bs : list KBucket) (self : TreeRoutingTable)
  : TreeRoutingTable :=
  mkTreeRoutingTable (parent_node_id self) bs.

(** [__init__(parent_node_id, market_id)], with the binding of the name
    [BIT_NODE_ID_LEN] that line 169 reads as a parameter: one bucket
    over the whole id space. *)
Definition init_at (BIT_NODE_ID_LEN : option Z) (parent_node_id : Guid)
  : Outcome TreeRoutingTable :=
  match BIT_NODE_ID_LEN with
  | Some B => Return (mkTreeRoutingTable parent_node_id
                        [kbucket.init 0 (2 ^ B)])
  | None => Raise (NameError "BIT_NODE_ID_LEN")
  end.

(** [TreeRoutingTable(parent_node_id, market_id)] as the source has it:
    the module imports [constants] and binds no name [BIT_NODE_ID_LEN]
    of its own. *)
Definition init (parent_node_id : Guid) : Outcome TreeRoutingTable :=
  init_at None parent_node_id.

(** Runs the bucket method [m] on [self.buckets[i]], in place. *)
Definition at_bucket {A} (i : nat) (m : M KBucket A)
  : M TreeRoutingTable A :=
  fun self =>
    match buckets self !! i with
    | None => (self, Raise IndexError)
    | Some b =>
        let (b', r) := m b in
        (set_buckets (<[i := b']> (buckets self)) self, r)
    end.

(** [self.buckets.insert(i, b)]. *)
Definition buckets_insert (i : nat) (b : KBucket)
  : M TreeRoutingTable unit :=
  modify (fun self =>
    set_buckets (take i (buckets self) ++ b :: drop i (buckets self)) self).

Definition kbucketIndex (node_id : Guid) : M TreeRoutingTable nat :=
  self ← get;
  indexes ← filterM (fun i => at_bucket i (kbucket.keyInRange node_id))
                    (seq 0 (length (buckets self)));
  match indexes with
  | [] => raise KeyError
  | [i] => mret i
  | _ => raise RuntimeError
  end.

(** [splitBucket], with the binding of the name [old_bucket_index] that
    its body reads as a parameter. *)
Definition splitBucket_at (old_bucket_index : option nat) (now : Z)
    (oldBucketIndex : nat) : M TreeRoutingTable unit :=
  j ← read_name "old_bucket_index" old_bucket_index;
  oldBucket ← at_bucket j get;
  let splitPoint :=
    rangeMax oldBucket - (rangeMax oldBucket - rangeMin oldBucket) / 2 in
  let newBucket := kbucket.init splitPoint (rangeMax oldBucket) in
  at_bucket j (modify (kbucket.set_rangeMax splitPoint));;
  j' ← read_name "old_bucket_index" old_bucket_index;
  buckets_insert (j' + 1) newBucket;;
  moved ← at_bucket j (gets contacts);
  for_each moved (fun contact =>
    inRange ← at_bucket (j' + 1) (kbucket.keyInRange (guid contact));
    if inRange : bool
    then at_bucket (j' + 1) (kbucket.addContact k now contact)
    else mret tt);;
  copied ← at_bucket (j' + 1) (gets contacts);
  for_each copied (fun contact =>
    at_bucket j (kbucket.removeContact (guid contact))).

(** [splitBucket(oldBucketIndex)] as the source has it: the body reads
    [old_bucket_index], which neither the method nor the module binds;
    the parameter is called [oldBucketIndex]. *)
Definition splitBucket (now : Z) (oldBucketIndex : nat)
  : M TreeRoutingTable unit :=
  splitBucket_at None now oldBucketIndex.

(** The errback [replaceContact(failure)] of [addContact], with the
    binding of the name [TimeoutError] that [failure.trap(TimeoutError)]
    reads as a parameter.  [trap] raises a failure that is no timeout
    again; [retry] is the call [self.addContact(contact)] that ends the
    errback. *)
Definition replaceContact_at (TimeoutError_class : option unit)
    (retry : M TreeRoutingTable unit) (bucketIndex : nat)
    (failure : PingResult) : M TreeRoutingTable unit :=
  read_name "TimeoutError" TimeoutError_class;;
  match failure with
  | TimeoutError deadContactID =>
      try_except
        (at_bucket bucketIndex (kbucket.removeContact deadContactID))
        (fun e => match e with ValueError => Some (mret tt) | _ => None end);;
      retry
  | _ => raise PingFailed
  end.

(** [replaceContact(failure)] as the source has it: the module binds no
    name [TimeoutError], and Python 2 has no builtin of that name. *)
Definition replaceContact (retry : M TreeRoutingTable unit)
    (bucketIndex : nat) (failure : PingResult) : M TreeRoutingTable unit :=
  replaceContact_at None retry bucketIndex failure.

(** [df = headContact.ping(); df.addErrback(errback)]: the deferred
    runs the errback when the PING of [headContact] fails, as soon as it
    is added; [None] is a deferred that has not fired. *)
Definition ping_addErrback (ping : option Ping) (headContact : Contact)
    (errback : PingResult -> M TreeRoutingTable unit)
  : M TreeRoutingTable unit :=
  match ping with
  | None => mret tt
  | Some ping =>
      match ping headContact with
      | Pong => mret tt
      | failure => in_callback (errback failure)
      end
  end.

(** [addContact(contact)], with the binding of [TimeoutError] for its
    errback.  [pings] lists the PINGs that the call sends, in the order
    they are sent.  [fuel] bounds the depth of the recursion. *)
Fixpoint addContact_rec (TimeoutError_class : option unit) (fuel : nat)
    (now : Z) (contact : Contact) (pings : list Ping)
  : M TreeRoutingTable unit :=
  match fuel with
  | O => raise OutOfFuel
  | S fuel' =>
      self ← get;
      if decide (guid contact = parent_node_id self) then mret tt else
      bucketIndex ← kbucketIndex (guid contact);
      known ← at_bucket bucketIndex (kbucket.getContact (guid contact));
      match known with
      | Some _ => mret tt
      | None =>
          try_except
            (at_bucket bucketIndex (kbucket.addContact k now contact))
            (fun e =>
               match e with
               | BucketFull => Some (
                   splittable ← at_bucket bucketIndex
                                  (kbucket.keyInRange (parent_node_id self));
                   if splittable : bool then
                     splitBucket now bucketIndex;;
                     addContact_rec TimeoutError_class fuel' now contact pings
                   else
                     headContact ← at_bucket bucketIndex
                                     (kbucket.contacts_getitem 0);
                     ping_addErrback (head pings) headContact
                       (replaceContact_at TimeoutError_class
                          (addContact_rec TimeoutError_class fuel' now
                             contact (tail pings))
                          bucketIndex))
               | _ => None
               end)
      end
  end.

Definition addContact_at (TimeoutError_class : option unit) (now : Z)
    (contact : Contact) (pings : list Ping) : M TreeRoutingTable unit :=
  addContact_rec TimeoutError_class (S (length pings)) now contact pings.

(** [addContact(contact)] as the source has it. *)
Definition addContact (now : Z) (contact : Contact) (pings : list Ping)
  : M TreeRoutingTable unit :=
  addContact_at None now contact pings.

(** The loop of [findCloseNodes] that fills [closestNodes] from the
    neighbouring buckets, [i] steps away on either side. *)
Fixpoint fill_closestNodes (fuel : nat) (node_id : option Guid)
    (bucketIndex : nat) (closestNodes : list Contact) (i : nat)
    (canGoLower canGoHigher : bool) : M TreeRoutingTable (list Contact) :=
  if bool_decide (length closestNodes < k)%nat
     && (canGoLower || canGoHigher)
  then
    match fuel with
    | O => raise OutOfFuel
    | S fuel' =>
        self ← get;
        '(closestNodes, canGoLower) ←
          (if canGoLower : bool then
             exclude ← read_name "node_id" node_id;
             more ← at_bucket (bucketIndex - i)%nat
                      (kbucket.getContacts
                         (k - length closestNodes)%nat exclude);
             mret (closestNodes ++ more,
                   bool_decide (i + 1 <= bucketIndex)%nat)
           else mret (closestNodes, canGoLower));
        '(closestNodes, canGoHigher) ←
          (if canGoHigher : bool then
             exclude ← read_name "node_id" node_id;
             more ← at_bucket (bucketIndex + i)%nat
                      (kbucket.getContacts
                         (k - length closestNodes)%nat exclude);
             mret (closestNodes ++ more,
                   bool_decide
                     (bucketIndex + (i + 1) < length (buckets self))%nat)
           else mret (closestNodes, canGoHigher));
        fill_closestNodes fuel' node_id bucketIndex closestNodes
          (i + 1)%nat canGoLower canGoHigher
    end
  else mret closestNodes.

(** [findCloseNodes], with the binding of the name [node_id] that its
    body reads as a parameter. *)
Definition findCloseNodes_at (node_id : option Guid) (key : Guid)
    (count : nat) (nodeID : Guid) : M TreeRoutingTable (list Contact) :=
  bucketIndex ← kbucketIndex key;
  self ← get;
  exclude ← read_name "node_id" node_id;
  closestNodes ← at_bucket bucketIndex (kbucket.getContacts k exclude);
  fill_closestNodes (length (buckets self)) node_id bucketIndex
    closestNodes 1%nat
    (bool_decide (1 <= bucketIndex)%nat)
    (bool_decide (bucketIndex + 1 < length (buckets self))%nat).

(** [findCloseNodes(key, count, nodeID)] as the source has it: the body
    reads [node_id], which neither the method nor the module binds; the
    parameter is called [nodeID]. *)
Definition findCloseNodes (key : Guid) (count : nat) (nodeID : Guid)
  : M TreeRoutingTable (list Contact) :=
  findCloseNodes_at None key count nodeID.

Definition getContact (contactID : Guid)
  : M TreeRoutingTable (option Contact) :=
  bucketIndex ← kbucketIndex contactID;
  at_bucket bucketIndex (kbucket.getContact contactID).

(** [random.randrange(start, stop)], drawing with the random number
    [r]: any id of the range can come out; an empty range raises. *)
Definition randrange {S} (r : Z) (start stop : Z) : M S Z :=
  if start <? stop then mret (start + r mod (stop - start))
  else raise ValueError.

(** [_randomIDInBucketRange(bucketIndex)]: a 20-byte id. *)
Definition _randomIDInBucketRange (r : Z) (bucketIndex : nat)
  : M TreeRoutingTable str :=
  lo ← at_bucket bucketIndex (gets rangeMin);
  hi ← at_bucket bucketIndex (gets rangeMax);
  idValue ← randrange r lo hi;
  let randomID := drop 2 (pystr.hex idValue) in
  let randomID :=
    if decide (last randomID = Some "L"%char)
    then take (length randomID - 1) randomID else randomID in
  let randomID :=
    if decide (pystr.len randomID mod 2 ≠ 0)
    then "0"%char :: randomID else randomID in
  match pystr.decode_hex randomID with
  | None => raise TypeError
  | Some randomID =>
      mret (pystr.repeat_char (20 - pystr.len randomID) "000"%char
            ++ randomID)
  end.

(** [getRefreshList(startIndex, force)] at time [now]; [random i] is
    the random number drawn for bucket [i]. *)
Fixpoint refresh_loop (random : nat -> Z) (now : Z) (force : bool)
    (bucketIndex : nat) (bs : list KBucket) : M TreeRoutingTable (list str) :=
  match bs with
  | [] => mret []
  | bucket :: bs' =>
      refreshIDs ←
        (if force || bool_decide (refreshTimeout <= now - lastAccessed bucket)
         then
           randomID ← _randomIDInBucketRange (random bucketIndex) bucketIndex;
           mret [pystr.encode_hex randomID]
         else mret []);
      rest ← refresh_loop random now force (bucketIndex + 1)%nat bs';
      mret (refreshIDs ++ rest)
  end.

Definition getRefreshList (random : nat -> Z) (now : Z)
    (startIndex : nat) (force : bool) : M TreeRoutingTable (list str) :=
  self ← get;
  refresh_loop random now force startIndex (drop startIndex (buckets self)).

Definition removeContact (contactID : Guid) : M TreeRoutingTable unit :=
  bucketIndex ← kbucketIndex contactID;
  try_except
    (at_bucket bucketIndex (kbucket.removeContact contactID))
    (fun e => match e with ValueError => Some (mret tt) | _ => None end).

Definition touchKBucket (now : Z) (key : Guid) : M TreeRoutingTable unit :=
  bucketIndex ← kbucketIndex key;
  at_bucket bucketIndex (modify (kbucket.set_lastAccessed now)).
End Tree.
End Tree.

(** ** The optimized routing table *)

(** [OptimizedTreeRoutingTable] extends [TreeRoutingTable] with the
    dictionary [replacement_cache], from bucket indexes to the lists of
    contacts that wait for a slot of the bucket. *)
Record OptimizedTreeRoutingTable : Type := mkOptimizedTreeRoutingTable {
  tree : TreeRoutingTable;
  replacement_cache : gmap nat (list Contact)
}.

Module Optimized.
Section Optimized.
Variable k : nat.

(** [__init__(parent_node_id, market_id)]: the constructor of the base
    class runs first, and [replacement_cache] is set once it has
    returned. *)
Definition init_at (BIT_NODE_ID_LEN : option Z) (parent_node_id : Guid)
  : Outcome OptimizedTreeRoutingTable :=
  match Tree.init_at BIT_NODE_ID_LEN parent_node_id with
  | Return self => Return (mkOptimizedTreeRoutingTable self ∅)
  | Raise e => Raise e
  end.

Definition init (parent_node_id : Guid) : Outcome OptimizedTreeRoutingTable :=
  init_at None parent_node_id.

Definition set_replacement_cache (rc : gmap nat (list Contact))
    (self : OptimizedTreeRoutingTable) : OptimizedTreeRoutingTable :=
  mkOptimizedTreeRoutingTable (tree self) rc.

(** A method inherited from [TreeRoutingTable]. *)
Definition inherited {A} (m : M TreeRoutingTable A)
  : M OptimizedTreeRoutingTable A :=
  fun self =>
    let (t', r) := m (tree self) in
    (mkOptimizedTreeRoutingTable t' (replacement_cache self), r).

Definition at_bucket {A} (i : nat) (m : M KBucket A)
  : M OptimizedTreeRoutingTable A :=
  inherited (Tree.at_bucket i m).

Definition kbucketIndex (node_id : Guid) : M OptimizedTreeRoutingTable nat :=
  inherited (Tree.kbucketIndex node_id).

Definition splitBucket (now : Z) (oldBucketIndex : nat)
  : M OptimizedTreeRoutingTable unit :=
  inherited (Tree.splitBucket k now oldBucketIndex).

(** [self.replacement_cache[i]]. *)
Definition cache_getitem (i : nat)
  : M OptimizedTreeRoutingTable (list Contact) :=
  self ← get;
  match replacement_cache self !! i with
  | Some l => mret l
  | None => raise KeyError
  end.

(** [self.replacement_cache[i] = l], and the in-place updates of the
    list stored at [i]. *)
Definition cache_setitem (i : nat) (l : list Contact)
  : M OptimizedTreeRoutingTable unit :=
  modify (fun self =>
    set_replacement_cache (<[i := l]> (replacement_cache self)) self).

(** [self.replacement_cache.pop(key)]: removes the entry of the
    dictionary stored under [key]. *)
Definition cache_pop (key : nat)
  : M OptimizedTreeRoutingTable (list Contact) :=
  self ← get;
  match replacement_cache self !! key with
  | Some l =>
      put (set_replacement_cache (delete key (replacement_cache self)) self);;
      mret l
  | None => raise KeyError
  end.

(** The statements that put [contact] in the replacement cache of
    bucket [bucketIndex]; [addContact] has them twice (lines 528-537
    and 564-573), word for word. *)
Definition cache_contact (bucketIndex : nat) (contact : Contact)
  : M OptimizedTreeRoutingTable unit :=
  self ← get;
  (if decide (replacement_cache self !! bucketIndex = None)
   then cache_setitem bucketIndex []
   else mret tt);;
  cached ← cache_getitem bucketIndex;
  match list_find_guid (guid contact) cached with
  | Some _ =>
      cache_setitem bucketIndex
        (default cached (list_remove (guid contact) cached))
  | None =>
      self ← get;
      if decide (k <= size (replacement_cache self))%nat
      then cache_pop 0%nat;; mret tt
      else mret tt
  end;;
  cached ← cache_getitem bucketIndex;
  cache_setitem bucketIndex (cached ++ [contact]).

(** [removeContact], with the way its body reads the attribute
    [self.replacementCache] as a parameter. *)
Definition removeContact_via
    (replacementCache : M OptimizedTreeRoutingTable (gmap nat (list Contact)))
    (now : Z) (contactID : Guid) : M OptimizedTreeRoutingTable unit :=
  bucketIndex ← kbucketIndex contactID;
  removed ← attempt (at_bucket bucketIndex (kbucket.removeContact contactID));
  match removed with
  | Raise ValueError => mret tt
  | Raise e => raise e
  | Return _ =>
      cache ← replacementCache;
      if decide (is_Some (cache !! bucketIndex)) then
        cached ← cache_getitem bucketIndex;
        if decide (0 < length cached)%nat then
          match last cached with
          | Some promoted =>
              cache_setitem bucketIndex (take (length cached - 1) cached);;
              at_bucket bucketIndex (kbucket.addContact k now promoted)
          | None => raise IndexError
          end
        else mret tt
      else mret tt
  end.

(** [removeContact(contactID)] as the source has it: after the removal
    it reads [self.replacementCache], an attribute that no code sets;
    the dictionary is called [replacement_cache]. *)
Definition removeContact (now : Z) (contactID : Guid)
  : M OptimizedTreeRoutingTable unit :=
  removeContact_via (no_attribute "replacementCache") now contactID.

(** The state of a call [self.addContact(contact)]: the table and the
    contact object, which the call mutates as well. *)
Definition Frame : Type := (OptimizedTreeRoutingTable * Contact)%type.

Definition on_self {A} (m : M OptimizedTreeRoutingTable A) : M Frame A :=
  fun f =>
    let (self', r) := m (fst f) in ((self', snd f), r).

(** The insertion of the contact of the frame, which the source spells
    out twice, once for a new guid (lines 509-537) and once for a known
    guid with a new address (lines 545-573).  [retry] is the recursive
    call [self.addContact(contact)] after a split. *)
Definition insert (retry : M Frame unit) (now : Z) (bucketIndex : nat)
: M Frame unit :=
contact ← gets snd;
self ← gets fst;
try_except
  (on_self (at_bucket bucketIndex (kbucket.addContact k now contact)))
  (fun e =>
     match e with
     | BucketFull => Some (
         splittable ← on_self
           (at_bucket bucketIndex
              (kbucket.keyInRange (parent_node_id (tree self))));
         if splittable : bool then
           on_self (splitBucket now bucketIndex);;
           retry
         else on_self (cache_contact bucketIndex contact))
     | _ => None
     end).

(** The body of [addContact] from the reset of the counter of failed
    RPCs on. *)
Definition addContact_body (retry : M Frame unit) (now : Z) : M Frame unit :=
modify (fun f : Frame => (fst f, set_failedRPCs 0 (snd f)));;
contact ← gets snd;
bucketIndex ← on_self (kbucketIndex (guid contact));
old_contact ← on_self (at_bucket bucketIndex
                         (kbucket.getContact (guid contact)));
match old_contact with
| None => insert retry now bucketIndex
| Some old_contact =>
    if decide (address old_contact ≠ address contact) then
      on_self (removeContact now (guid contact));;
      insert retry now bucketIndex
    else mret tt
end.

(** [addContact(contact)].  [fuel] bounds the depth of the recursion. *)
Fixpoint addContact_rec (fuel : nat) (now : Z) : M Frame unit :=
match fuel with
| O => raise OutOfFuel
| S fuel' =>
    contact ← gets snd;
    if decide (guid contact = None) then mret tt else
    self ← gets fst;
    if decide (guid contact = parent_node_id (tree self)) then mret tt else
    addContact_body (addContact_rec fuel' now) now
end.

(** The call [self.addContact(contact)]: the table and the contact
    object after it, and its outcome. *)
Definition addContact (now : Z) (contact : Contact)
    (self : OptimizedTreeRoutingTable) : Frame * Outcome unit :=
  addContact_rec 1 now (self, contact).
End Optimized.
End Optimized.

(** ** Tables with one bucket *)

(** The table that [TreeRoutingTable.__init__] is written to build: one
    empty bucket over the whole id space. *)
Definition one_bucket_table (parent_node_id : Guid) : TreeRoutingTable :=
  mkTreeRoutingTable parent_node_id
    [kbucket.init 0 (2 ^ constants.BIT_NODE_ID_LEN)].

(** The same for [OptimizedTreeRoutingTable.__init__], with an empty
    replacement cache. *)
Definition one_bucket_optimized (parent_node_id : Guid)
  : OptimizedTreeRoutingTable :=
  mkOptimizedTreeRoutingTable (one_bucket_table parent_node_id) ∅.

(** ** Sequences of calls *)

(** A call that changes a [TreeRoutingTable]. *)
Inductive TreeCall : Type :=
  | CallAddContact (now : Z) (contact : Contact) (pings : list Ping)
  | CallRemoveContact (contactID : Guid)
  | CallSplitBucket (now : Z) (oldBucketIndex : nat)
  | CallTouchKBucket (now : Z) (key : Guid).

(** A call that changes an [OptimizedTreeRoutingTable]. *)
Inductive OptimizedCall : Type :=
  | OCallAddContact (now : Z) (contact : Contact)
  | OCallRemoveContact (now : Z) (contactID : Guid)
  | OCallSplitBucket (now : Z) (oldBucketIndex : nat)
  | OCallTouchKBucket (now : Z) (key : Guid).

Section Calls.
Variable k : nat.

(** The table after a call, whether the call returns or raises. *)
Definition tree_call (c : TreeCall) (self : TreeRoutingTable)
  : TreeRoutingTable :=
  match c with
  | CallAddContact now contact pings =>
      state_of (Tree.addContact k now contact pings self)
  | CallRemoveContact contactID =>
      state_of (Tree.removeContact contactID self)
  | CallSplitBucket now i => state_of (Tree.splitBucket k now i self)
  | CallTouchKBucket now key => state_of (Tree.touchKBucket now key self)
  end.

Definition tree_calls (cs : list TreeCall) (self : TreeRoutingTable)
  : TreeRoutingTable :=
  foldl (fun t c => tree_call c t) self cs.

Definition optimized_call (c : OptimizedCall)
    (self : OptimizedTreeRoutingTable) : OptimizedTreeRoutingTable :=
  match c with
  | OCallAddContact now contact =>
      fst (state_of (Optimized.addContact k now contact self))
  | OCallRemoveContact now contactID =>
      state_of (Optimized.removeContact k now contactID self)
  | OCallSplitBucket now i => state_of (Optimized.splitBucket k now i self)
  | OCallTouchKBucket now key =>
      state_of (Optimized.inherited (Tree.touchKBucket now key) self)
  end.

Definition optimized_calls (cs : list OptimizedCall)
    (self : OptimizedTreeRoutingTable) : OptimizedTreeRoutingTable :=
  foldl (fun t c => optimized_call c t) self cs.
End Calls.

(** * Reasoning about methods *)

(** ** A Hoare logic for the method monad

    [triple P m Q E]: from a state in [P], the method [m] either returns
    a value [a] in a state in [Q a], or raises in a state in [E]. *)
Section Hoare.
Context {S : Type}.
Implicit Types (P E : S -> Prop).

Definition triple {A} P (m : M S A) (Q : A -> S -> Prop) E : Prop :=
  forall s, P s ->
    match m s with
    | (s', Return a) => Q a s'
    | (s', Raise _) => E s'
    end.

Lemma triple_conseq {A} P P' (m : M S A) (Q Q' : A -> S -> Prop) E E' :
  triple P' m Q' E' ->
  (forall s, P s -> P' s) ->
  (forall a s, Q' a s -> Q a s) ->
  (forall s, E' s -> E s) ->
  triple P m Q E.
Proof.
  intros Hm HP HQ HE s Hs. specialize (Hm s (HP s Hs)).
  destruct (m s) as [s' [a|e]]; auto.
Qed.

Lemma triple_ret {A} P (a : A) (Q : A -> S -> Prop) E :
  (forall s, P s -> Q a s) -> triple P (mret a) Q E.
Proof. intros H s Hs. exact (H s Hs). Qed.

Lemma triple_raise {A} P e (Q : A -> S -> Prop) E :
  (forall s, P s -> E s) -> triple P (raise e) Q E.
Proof. intros H s Hs. exact (H s Hs). Qed.

Lemma triple_bind {A B} P (m : M S A) (f : A -> M S B) R Q E :
  triple P m R E ->
  (forall a, triple (R a) (f a) Q E) ->
  triple P (m ≫= f) Q E.
Proof.
  intros Hm Hf s Hs. specialize (Hm s Hs).
  unfold mbind, M_bind. destruct (m s) as [s' [a|e]]; [|done].
  exact (Hf a s' Hm).
Qed.

Lemma triple_get P E : triple P get (fun a s => a = s /\ P s) E.
Proof. intros s Hs. simpl. auto. Qed.

Lemma triple_gets {A} (f : S -> A) P E :
  triple P (gets f) (fun a s => a = f s /\ P s) E.
Proof. intros s Hs. simpl. auto. Qed.

Lemma triple_put P s' (Q : unit -> S -> Prop) E :
  Q tt s' -> triple P (put s') Q E.
Proof. intros H s Hs. exact H. Qed.

Lemma triple_modify P (f : S -> S) (Q : unit -> S -> Prop) E :
  (forall s, P s -> Q tt (f s)) -> triple P (modify f) Q E.
Proof. intros H s Hs. exact (H s Hs). Qed.

Lemma triple_read_name {A} name (v : option A) P E :
  (forall s, P s -> E s) ->
  triple P (read_name name v) (fun a s => v = Some a /\ P s) E.
Proof. intros H s Hs. destruct v; simpl; auto. Qed.

Lemma triple_try_except {A} P (m : M S A) handler Q E E' :
  triple P m Q E' ->
  (forall e, match handler e with
             | Some h => triple E' h Q E
             | None => forall s, E' s -> E s
             end) ->
  triple P (try_except m handler) Q E.
Proof.
  intros Hm Hh s Hs. specialize (Hm s Hs). unfold try_except.
  destruct (m s) as [s' [a|e]]; [done|].
  specialize (Hh e). destruct (handler e) as [h|]; [|by apply Hh].
  exact (Hh s' Hm).
Qed.

Lemma triple_attempt {A} P (m : M S A) (Q : A -> S -> Prop) E E' :
  triple P m Q E' ->
  triple P (attempt m)
    (fun r s => match r with Return a => Q a s | Raise _ => E' s end) E.
Proof.
  intros Hm s Hs. specialize (Hm s Hs). unfold attempt.
  destruct (m s) as [s' [a|e]]; done.
Qed.

Lemma triple_for_each {A} (I : S -> Prop) (l : list A) body :
  (forall x, x ∈ l -> triple I (body x) (fun _ => I) I) ->
  triple I (for_each l body) (fun _ => I) I.
Proof.
  induction l as [|x l IH]; intros Hb; simpl.
  - by apply triple_ret.
  - eapply triple_bind; [apply Hb; apply list_elem_of_here|].
    intros u. apply IH. intros y Hy. apply Hb. by apply list_elem_of_further.
Qed.

Lemma triple_filterM {A} (I : S -> Prop) (p : A -> M S bool) l :
  (forall x, triple I (p x) (fun _ => I) I) ->
  triple I (filterM p l) (fun _ => I) I.
Proof.
  intros Hp. induction l as [|x l IH]; simpl.
  - by apply triple_ret.
  - eapply triple_bind; [apply Hp|]. intros b.
    eapply triple_bind; [apply IH|]. intros r. by apply triple_ret.
Qed.

(** A method that keeps [I] whatever its outcome. *)
Definition keeps {A} (I : S -> Prop) (m : M S A) : Prop :=
  triple I m (fun _ => I) I.

Lemma keeps_state {A} (I : S -> Prop) (m : M S A) s :
  keeps I m -> I s -> I (state_of (m s)).
Proof.
  intros Hm Hs. specialize (Hm s Hs). unfold state_of.
  destruct (m s) as [s' [a|e]]; done.
Qed.
End Hoare.

(** Rules for methods that keep an invariant. *)
Section Keeps.
Context {S : Type}.
Implicit Types (I : S -> Prop).

Lemma keeps_ret {A} I (a : A) : keeps I (mret a).
Proof. by apply triple_ret. Qed.

Lemma keeps_raise {A} I e : keeps I (raise e : M S A).
Proof. by apply triple_raise. Qed.

Lemma keeps_bind {A B} I (m : M S A) (f : A -> M S B) :
  keeps I m -> (forall a, keeps I (f a)) -> keeps I (m ≫= f).
Proof. intros Hm Hf. eapply triple_bind; [exact Hm|exact Hf]. Qed.

Lemma keeps_gets_bind {A B} I (g : S -> A) (f : A -> M S B) :
  (forall s0, I s0 -> keeps I (f (g s0))) -> keeps I (gets g ≫= f).
Proof.
  intros Hf. eapply triple_bind; [apply triple_gets|].
  intros a s [-> Hs]. by apply Hf.
Qed.

Lemma keeps_get_bind {B} I (f : S -> M S B) :
  (forall s0, I s0 -> keeps I (f s0)) -> keeps I (get ≫= f).
Proof. exact (keeps_gets_bind I id f). Qed.

Lemma keeps_get I : keeps I get.
Proof. intros s Hs. done. Qed.

Lemma keeps_gets {A} I (g : S -> A) : keeps I (gets g).
Proof. intros s Hs. done. Qed.

Lemma keeps_modify I (f : S -> S) :
  (forall s, I s -> I (f s)) -> keeps I (modify f).
Proof. intros H. by apply triple_modify. Qed.

Lemma keeps_read_name {A} I name (v : option A) :
  keeps I (read_name name v).
Proof. intros s Hs. by destruct v. Qed.

Lemma keeps_try_except {A} I (m : M S A) handler :
  keeps I m ->
  (forall e h, handler e = Some h -> keeps I h) ->
  keeps I (try_except m handler).
Proof.
  intros Hm Hh. eapply triple_try_except; [exact Hm|].
  intros e. destruct (handler e) as [h|] eqn:He; [by eapply Hh|done].
Qed.

Lemma keeps_attempt {A} I (m : M S A) : keeps I m -> keeps I (attempt m).
Proof.
  intros Hm s Hs. specialize (Hm s Hs). unfold attempt.
  destruct (m s) as [s' [a|e]]; done.
Qed.

Lemma keeps_in_callback I (m : M S unit) : keeps I m -> keeps I (in_callback m).
Proof.
  intros Hm s Hs. specialize (Hm s Hs). unfold in_callback.
  destruct (m s) as [s' [a|[]]]; done.
Qed.

Lemma keeps_for_each {A} I (l : list A) body :
  (forall x, keeps I (body x)) -> keeps I (for_each l body).
Proof. intros Hb. apply triple_for_each. intros x _. apply Hb. Qed.

Lemma keeps_filterM {A} I (p : A -> M S bool) l :
  (forall x, keeps I (p x)) -> keeps I (filterM p l).
Proof. apply triple_filterM. Qed.
End Keeps.

Lemma keeps_ping_addErrback I ping headContact errback :
  (forall failure, keeps I (errback failure)) ->
  keeps I (Tree.ping_addErrback ping headContact errback).
Proof.
  intros H. unfold Tree.ping_addErrback.
  destruct ping as [ping|]; [|apply keeps_ret].
  destruct (ping headContact); try apply keeps_ret;
    apply keeps_in_callback, H.
Qed.

(** ** Facts about contact lists *)

Lemma list_remove_elem_of g l l' c :
  list_remove g l = Some l' -> c ∈ l' -> c ∈ l.
Proof.
  revert l'. induction l as [|x l IH]; intros l'; simpl; [done|].
  destruct (decide (has_guid g x)).
  - intros [= <-] Hc. by apply list_elem_of_further.
  - destruct (list_remove g l) as [r|]; [|done].
    intros [= <-] Hc. apply elem_of_cons in Hc as [->|Hc].
    + apply list_elem_of_here.
    + apply list_elem_of_further. by apply IH with r.
Qed.

Lemma list_find_guid_Some g l c :
  list_find_guid g l = Some c -> c ∈ l /\ guid c = g.
Proof.
  unfold list_find_guid. intros H.
  destruct (list_find (has_guid g) l) as [[i x]|] eqn:Hf; [|done].
  simpl in H. injection H as ->.
  apply list_find_Some in Hf as (Hi & Hg & _). split; [|exact Hg].
  by eapply list_elem_of_lookup_2.
Qed.

Lemma list_find_guid_None g l :
  list_find_guid g l = None <-> Forall (fun c => guid c ≠ g) l.
Proof.
  unfold list_find_guid. split.
  - intros H. destruct (list_find (has_guid g) l) eqn:Hf; [done|].
    by apply list_find_None in Hf.
  - intros H. apply (list_find_None (has_guid g)) in H. by rewrite H.
Qed.

Lemma list_remove_None g l :
  list_remove g l = None <-> Forall (fun c => guid c ≠ g) l.
Proof.
  induction l as [|x l IH]; simpl; [done|].
  destruct (decide (has_guid g x)) as [Hx|Hx].
  - split; [done|]. intros H. by apply Forall_cons in H as [? _].
  - destruct (list_remove g l) as [r|].
    + split; [done|]. intros H. apply Forall_cons in H as [_ H].
      by apply IH in H.
    + split; [|done]. intros _. apply Forall_cons. split; [exact Hx|].
      by apply IH.
Qed.

(** ** Invariants of the buckets that every method keeps

    [R b0 b] relates a bucket [b] to what it was, [b0], at some earlier
    time; [Qc] holds of the contacts that may enter a bucket or a
    replacement cache.  Every relation that survives a touch of the
    bucket and a change of its contacts to old contacts and contacts in
    [Qc] is kept by all methods of both tables. *)
Section Invariant.
Variable k : nat.
Variable p : Guid.
Variable Qc : Contact -> Prop.
Variable R : KBucket -> KBucket -> Prop.
Hypothesis Qc_other : forall c, guid c ≠ p -> Qc c.
Hypothesis R_touch :
  forall b0 b t, R b0 b -> R b0 (kbucket.set_lastAccessed t b).
Hypothesis R_contacts :
  forall b0 b l, R b0 b ->
    (forall c, c ∈ l -> c ∈ contacts b \/ Qc c) ->
    R b0 (kbucket.set_contacts l b).

Lemma kbucket_keyInRange_keeps b0 key :
  keeps (R b0) (kbucket.keyInRange key).
Proof.
  destruct key; simpl; [|apply keeps_raise].
  apply keeps_get_bind. intros. apply keeps_ret.
Qed.

Lemma kbucket_getContact_keeps b0 g : keeps (R b0) (kbucket.getContact g).
Proof. apply keeps_get_bind. intros. apply keeps_ret. Qed.

Lemma kbucket_getContacts_keeps b0 n g :
  keeps (R b0) (kbucket.getContacts n g).
Proof. apply keeps_get_bind. intros. apply keeps_ret. Qed.

Lemma kbucket_contacts_getitem_keeps b0 i :
  keeps (R b0) (kbucket.contacts_getitem i).
Proof.
  apply keeps_get_bind. intros b _.
  destruct (contacts b !! i); [apply keeps_ret|apply keeps_raise].
Qed.

Lemma kbucket_addContact_keeps b0 now c :
  Qc c -> keeps (R b0) (kbucket.addContact k now c).
Proof.
  intros Hc s Hs. unfold kbucket.addContact, mbind, M_bind, get. simpl.
  destruct (list_find_guid (guid c) (contacts s)) as [x|] eqn:Hf.
  - simpl. apply R_touch, R_contacts; [done|]. intros y Hy.
    apply list_find_guid_Some in Hf as [Hx _].
    apply elem_of_app in Hy as [Hy|Hy].
    + left. destruct (list_remove (guid c) (contacts s)) eqn:Hr; simpl in Hy.
      * by eapply list_remove_elem_of.
      * by apply not_elem_of_nil in Hy.
    + apply list_elem_of_singleton in Hy as ->. by left.
  - destruct (decide (length (contacts s) < k)%nat); simpl; [|done].
    apply R_touch, R_contacts; [done|]. intros y Hy.
    apply elem_of_app in Hy as [Hy|Hy]; [by left|].
    apply list_elem_of_singleton in Hy as ->. by right.
Qed.

Lemma kbucket_removeContact_keeps b0 g :
  keeps (R b0) (kbucket.removeContact g).
Proof.
  intros s Hs. unfold kbucket.removeContact, mbind, M_bind, get. simpl.
  destruct (list_remove g (contacts s)) as [l|] eqn:Hr; simpl; [|done].
  apply R_contacts; [done|]. intros y Hy. left.
  by eapply list_remove_elem_of.
Qed.

Lemma kbucket_touch_keeps b0 t :
  keeps (R b0) (modify (kbucket.set_lastAccessed t)).
Proof. apply keeps_modify. intros. by apply R_touch. Qed.

(** The invariant of a table: the parent id is [p] and bucket [i] is
    related to the [i]th bucket of [bs0]. *)
Definition tree_inv (bs0 : list KBucket) (self : TreeRoutingTable) : Prop :=
  parent_node_id self = p /\ Forall2 R bs0 (buckets self).

Lemma at_bucket_keeps {A} bs0 i (m : M KBucket A) :
  (forall b0, keeps (R b0) m) -> keeps (tree_inv bs0) (Tree.at_bucket i m).
Proof.
  intros Hm self [Hp HR]. unfold Tree.at_bucket.
  destruct (buckets self !! i) as [b|] eqn:Hb; [|done].
  destruct (Forall2_lookup_r _ _ _ _ _ HR Hb) as (b0 & Hb0 & Hbb).
  specialize (Hm b0 b Hbb).
  assert (Forall2 R bs0 (<[i:=(m b).1]> (buckets self))) as HR'.
  { rewrite <- (list_insert_id bs0 i b0 Hb0).
    apply Forall2_insert; [done|]. by destruct (m b) as [b' [a|e]]. }
  destruct (m b) as [b' [a|e]]; by split.
Qed.

Lemma kbucketIndex_keeps bs0 g : keeps (tree_inv bs0) (Tree.kbucketIndex g).
Proof.
  apply keeps_get_bind. intros self _. apply keeps_bind.
  - apply keeps_filterM. intros i. apply at_bucket_keeps.
    intros b0. apply kbucket_keyInRange_keeps.
  - intros [|i [|j l]]; [apply keeps_raise|apply keeps_ret|apply keeps_raise].
Qed.

Lemma splitBucket_keeps bs0 now i :
  keeps (tree_inv bs0) (Tree.splitBucket k now i).
Proof. apply keeps_raise. Qed.

Lemma removeContact_keeps bs0 g :
  keeps (tree_inv bs0) (Tree.removeContact g).
Proof.
  apply keeps_bind; [apply kbucketIndex_keeps|]. intros i.
  apply keeps_try_except.
  - apply at_bucket_keeps. intros b0. apply kbucket_removeContact_keeps.
  - intros [] h [= <-]. apply keeps_ret.
Qed.

Lemma touchKBucket_keeps bs0 now g :
  keeps (tree_inv bs0) (Tree.touchKBucket now g).
Proof.
  apply keeps_bind; [apply kbucketIndex_keeps|]. intros i.
  apply at_bucket_keeps. intros b0. apply kbucket_touch_keeps.
Qed.

Lemma replaceContact_keeps bs0 tn retry i failure :
  keeps (tree_inv bs0) retry ->
  keeps (tree_inv bs0) (Tree.replaceContact_at tn retry i failure).
Proof.
  intros Hretry. apply keeps_bind; [apply keeps_read_name|]. intros _.
  destruct failure as [|g|]; try apply keeps_raise.
  apply keeps_bind; [|by intros].
  apply keeps_try_except.
  - apply at_bucket_keeps. intros b0. apply kbucket_removeContact_keeps.
  - intros [] h [= <-]. apply keeps_ret.
Qed.

Lemma addContact_rec_keeps bs0 tn fuel now c pings :
  keeps (tree_inv bs0) (Tree.addContact_rec k tn fuel now c pings).
Proof.
  revert pings. induction fuel as [|fuel IH]; intros pings; simpl.
  { apply keeps_raise. }
  apply keeps_get_bind. intros self [Hp _].
  destruct (decide (guid c = parent_node_id self)) as [|Hc];
    [apply keeps_ret|].
  rewrite Hp in Hc.
  apply keeps_bind; [apply kbucketIndex_keeps|]. intros i.
  apply keeps_bind.
  { apply at_bucket_keeps. intros b0. apply kbucket_getContact_keeps. }
  intros [known|]; [apply keeps_ret|].
  apply keeps_try_except.
  { apply at_bucket_keeps. intros b0. apply kbucket_addContact_keeps; auto. }
  intros [] h [= <-].
  apply keeps_bind.
  { apply at_bucket_keeps. intros b0. apply kbucket_keyInRange_keeps. }
  intros [|].
  - apply keeps_bind; [apply splitBucket_keeps|]. intros _. apply IH.
  - apply keeps_bind.
    { apply at_bucket_keeps. intros b0. apply kbucket_contacts_getitem_keeps. }
    intros headContact. apply keeps_ping_addErrback. intros failure.
    apply replaceContact_keeps, IH.
Qed.

Lemma tree_call_keeps bs0 call self :
  tree_inv bs0 self -> tree_inv bs0 (tree_call k call self).
Proof.
  intros H. destruct call; cbn [tree_call]; apply keeps_state; try done.
  - apply addContact_rec_keeps.
  - apply removeContact_keeps.
  - apply splitBucket_keeps.
  - apply touchKBucket_keeps.
Qed.

Lemma tree_calls_keeps bs0 calls self :
  tree_inv bs0 self -> tree_inv bs0 (tree_calls k calls self).
Proof.
  revert self. induction calls as [|c cs IH]; intros self H; simpl; [done|].
  apply IH. by apply tree_call_keeps.
Qed.
(** The invariant of an optimized table: that of its buckets, and every
    cached contact is in [Qc]. *)
Definition optimized_inv (bs0 : list KBucket)
    (self : OptimizedTreeRoutingTable) : Prop :=
  tree_inv bs0 (tree self)
  /\ map_Forall (fun _ l => Forall Qc l) (replacement_cache self).

Lemma inherited_keeps {A} bs0 (m : M TreeRoutingTable A) :
  keeps (tree_inv bs0) m -> keeps (optimized_inv bs0) (Optimized.inherited m).
Proof.
  intros Hm self [Ht Hc]. specialize (Hm _ Ht). unfold Optimized.inherited.
  destruct (m (tree self)) as [t' [a|e]]; by split.
Qed.

Lemma cache_getitem_spec bs0 i :
  triple (optimized_inv bs0) (Optimized.cache_getitem i)
    (fun l s => optimized_inv bs0 s /\ Forall Qc l) (optimized_inv bs0).
Proof.
  intros self Hs. unfold Optimized.cache_getitem, mbind, M_bind, get.
  destruct (replacement_cache self !! i) as [l|] eqn:Hl; simpl; [|done].
  split; [done|]. destruct Hs as [_ Hc]. exact (Hc i l Hl).
Qed.

Lemma cache_setitem_keeps bs0 i l :
  Forall Qc l -> keeps (optimized_inv bs0) (Optimized.cache_setitem i l).
Proof.
  intros Hl. apply keeps_modify. intros self [Ht Hc]. split; [done|].
  simpl. by apply map_Forall_insert_2.
Qed.

Lemma cache_pop_keeps bs0 i : keeps (optimized_inv bs0) (Optimized.cache_pop i).
Proof.
  intros self [Ht Hc]. unfold Optimized.cache_pop, mbind, M_bind, get, put.
  destruct (replacement_cache self !! i) as [l|]; simpl; [|done].
  split; [done|]. simpl. by apply map_Forall_delete.
Qed.

Lemma keeps_bind_fact {S A B} (I : S -> Prop) (φ : A -> Prop)
    (m : M S A) (f : A -> M S B) :
  triple I m (fun a s => I s /\ φ a) I ->
  (forall a, φ a -> keeps I (f a)) ->
  keeps I (m ≫= f).
Proof.
  intros Hm Hf. eapply triple_bind; [exact Hm|].
  intros a s [Hs Ha]. by apply Hf.
Qed.

Lemma cache_contact_keeps bs0 i c :
  Qc c -> keeps (optimized_inv bs0) (Optimized.cache_contact k i c).
Proof.
  intros Hc. apply keeps_get_bind. intros self0 _.
  apply keeps_bind.
  { destruct (decide (replacement_cache self0 !! i = None));
      [by apply cache_setitem_keeps|apply keeps_ret]. }
  intros _. eapply keeps_bind_fact; [apply cache_getitem_spec|].
  intros cached Hcached. apply keeps_bind.
  { destruct (list_find_guid (guid c) cached) as [x|].
    - apply cache_setitem_keeps.
      destruct (list_remove (guid c) cached) as [l|] eqn:Hr; simpl; [|done].
      apply Forall_forall. intros y Hy.
      eapply (proj1 (Forall_forall _ _) Hcached).
      by eapply list_remove_elem_of.
    - apply keeps_get_bind. intros self1 _.
      destruct (decide (k <= size (replacement_cache self1))%nat);
        [|apply keeps_ret].
      apply keeps_bind; [apply cache_pop_keeps|]. intros. apply keeps_ret. }
  intros _. eapply keeps_bind_fact; [apply cache_getitem_spec|].
  intros cached' Hcached'. apply cache_setitem_keeps.
  apply Forall_app. split; [done|]. by apply Forall_singleton.
Qed.

Lemma optimized_removeContact_via_keeps bs0 replacementCache now g :
  keeps (optimized_inv bs0) replacementCache ->
  keeps (optimized_inv bs0)
    (Optimized.removeContact_via k replacementCache now g).
Proof.
  intros Hrc. apply keeps_bind.
  { apply inherited_keeps, kbucketIndex_keeps. }
  intros i. apply keeps_bind.
  { apply keeps_attempt, inherited_keeps, at_bucket_keeps.
    intros b0. apply kbucket_removeContact_keeps. }
  intros [[]|e].
  - apply keeps_bind; [exact Hrc|]. intros cache.
    destruct (decide (is_Some (cache !! i))); [|apply keeps_ret].
    eapply keeps_bind_fact; [apply cache_getitem_spec|].
    intros cached Hcached.
    destruct (decide (0 < length cached)%nat); [|apply keeps_ret].
    destruct (last cached) as [promoted|] eqn:Hlast; [|apply keeps_raise].
    apply keeps_bind.
    + apply cache_setitem_keeps. by apply Forall_take.
    + intros _. apply inherited_keeps, at_bucket_keeps. intros b0.
      apply kbucket_addContact_keeps.
      apply last_Some in Hlast as [l' ->].
      apply Forall_app in Hcached as [_ H]. by apply Forall_inv in H.
  - destruct e; try apply keeps_raise. apply keeps_ret.
Qed.

Lemma optimized_removeContact_keeps bs0 now g :
  keeps (optimized_inv bs0) (Optimized.removeContact k now g).
Proof. apply optimized_removeContact_via_keeps, keeps_raise. Qed.

(** The invariant of a call of [addContact]: that of the table. *)
Definition frame_inv (bs0 : list KBucket) (f : Optimized.Frame) : Prop :=
  optimized_inv bs0 (fst f).

Lemma on_self_keeps {A} bs0 (m : M OptimizedTreeRoutingTable A) :
  keeps (optimized_inv bs0) m -> keeps (frame_inv bs0) (Optimized.on_self m).
Proof.
  intros Hm f Hf. specialize (Hm _ Hf). unfold Optimized.on_self.
  destruct (m (fst f)) as [s' [a|e]]; done.
Qed.

(** The invariant of a call of [addContact] past its guards: the contact
    is not the parent. *)
Definition frame_inv_other (bs0 : list KBucket) (f : Optimized.Frame) : Prop :=
  frame_inv bs0 f /\ guid (snd f) ≠ p.

Lemma on_self_keeps_other {A} bs0 (m : M OptimizedTreeRoutingTable A) :
  keeps (optimized_inv bs0) m ->
  keeps (frame_inv_other bs0) (Optimized.on_self m).
Proof.
  intros Hm f [Hf Hg]. specialize (Hm _ Hf). unfold Optimized.on_self.
  destruct (m (fst f)) as [s' [a|e]]; done.
Qed.

Lemma keeps_gets_fact {S A B} (I J : S -> Prop) (φ : A -> Prop)
    (g : S -> A) (f : A -> M S B) :
  (forall s, J s -> I s /\ φ (g s)) ->
  (forall a, φ a -> keeps I (f a)) ->
  triple J (gets g ≫= f) (fun _ => I) I.
Proof.
  intros HJ Hf s Hs. destruct (HJ s Hs) as [HI Hφ].
  exact (Hf (g s) Hφ s HI).
Qed.

Lemma insert_keeps bs0 retry now i :
  keeps (frame_inv bs0) retry ->
  triple (frame_inv_other bs0) (Optimized.insert k retry now i)
    (fun _ => frame_inv bs0) (frame_inv bs0).
Proof.
  intros Hretry.
  apply (keeps_gets_fact (frame_inv bs0) _ (fun c => guid c ≠ p)); [done|].
  intros c Hc. apply keeps_gets_bind. intros f0 _.
  apply keeps_try_except.
  { apply on_self_keeps, inherited_keeps, at_bucket_keeps. intros b0.
    apply kbucket_addContact_keeps; auto. }
  intros [] h [= <-]. apply keeps_bind.
  { apply on_self_keeps, inherited_keeps, at_bucket_keeps. intros b0.
    apply kbucket_keyInRange_keeps. }
  intros [|].
  - apply keeps_bind; [|by intros].
    apply on_self_keeps, inherited_keeps, splitBucket_keeps.
  - apply on_self_keeps, cache_contact_keeps; auto.
Qed.

Lemma addContact_body_keeps bs0 retry now :
  keeps (frame_inv bs0) retry ->
  triple (frame_inv_other bs0) (Optimized.addContact_body k retry now)
    (fun _ => frame_inv bs0) (frame_inv bs0).
Proof.
  intros Hretry.
  assert (forall s, frame_inv_other bs0 s -> frame_inv bs0 s) as Hweak.
  { by intros s [? _]. }
  eapply triple_bind with (R := fun _ => frame_inv_other bs0).
  { apply triple_modify. by intros [self c] [? ?]. }
  intros _. eapply triple_bind with (R := fun _ => frame_inv_other bs0).
  { eapply triple_conseq; [apply triple_gets| |by intros ? ? [_ ?]|];
      [|exact Hweak]. done. }
  intros c. eapply triple_bind with (R := fun _ => frame_inv_other bs0).
  { eapply triple_conseq;
      [apply on_self_keeps_other, inherited_keeps, kbucketIndex_keeps
      |done|done|exact Hweak]. }
  intros i. eapply triple_bind with (R := fun _ => frame_inv_other bs0).
  { eapply triple_conseq;
      [apply on_self_keeps_other, inherited_keeps, at_bucket_keeps
      |done|done|exact Hweak].
    intros b0. apply kbucket_getContact_keeps. }
  intros [old|]; [|by apply insert_keeps].
  destruct (decide (address old ≠ address c)).
  - eapply triple_bind with (R := fun _ => frame_inv_other bs0).
    + eapply triple_conseq;
        [apply on_self_keeps_other, optimized_removeContact_keeps
        |done|done|exact Hweak].
    + intros _. by apply insert_keeps.
  - apply triple_ret. exact Hweak.
Qed.

Lemma optimized_addContact_rec_keeps bs0 fuel now :
  keeps (frame_inv bs0) (Optimized.addContact_rec k fuel now).
Proof.
  induction fuel as [|fuel IH]; simpl; [apply keeps_raise|].
  eapply triple_bind; [apply triple_gets|]. intros c.
  destruct (decide (guid c = None)).
  { apply triple_ret. by intros f [_ ?]. }
  eapply triple_bind; [apply triple_gets|]. intros self.
  destruct (decide (guid c = parent_node_id (tree self))) as [|Hc].
  { apply triple_ret. by intros f (_ & _ & ?). }
  eapply triple_conseq; [by apply addContact_body_keeps| |done|done].
  intros f (-> & -> & Hf). split; [done|].
  destruct Hf as [[Hp _] _]. by rewrite <- Hp.
Qed.

Lemma optimized_call_keeps bs0 call self :
  optimized_inv bs0 self -> optimized_inv bs0 (optimized_call k call self).
Proof.
  intros H. destruct call; cbn [optimized_call].
  - exact (keeps_state (frame_inv bs0) _ (self, contact)
             (optimized_addContact_rec_keeps bs0 1 now) H).
  - by apply keeps_state; [apply optimized_removeContact_keeps|].
  - by apply keeps_state; [apply inherited_keeps, splitBucket_keeps|].
  - by apply keeps_state; [apply inherited_keeps, touchKBucket_keeps|].
Qed.

Lemma optimized_calls_keeps bs0 calls self :
  optimized_inv bs0 self -> optimized_inv bs0 (optimized_calls k calls self).
Proof.
  revert self. induction calls as [|c cs IH]; intros self H; simpl; [done|].
  apply IH. by apply optimized_call_keeps.
Qed.

End Invariant.

(** ** Methods that end within their step bound *)
Section Total.
Context {S : Type}.

(** [total m]: the method [m] is never cut by a step bound. *)
Definition total {A} (m : M S A) : Prop :=
  forall s, outcome_of (m s) ≠ Raise OutOfFuel.

(** [raises m]: the method [m] never returns. *)
Definition raises {A} (m : M S A) : Prop :=
  forall s a, outcome_of (m s) ≠ Return a.

Lemma total_ret {A} (a : A) : total (mret a : M S A).
Proof. intros s. done. Qed.

Lemma total_raise {A} e : e ≠ OutOfFuel -> total (raise e : M S A).
Proof. intros He s. simpl. congruence. Qed.

Lemma total_bind {A B} (m : M S A) (f : A -> M S B) :
  total m -> (forall a, total (f a)) -> total (m ≫= f).
Proof.
  intros Hm Hf s. specialize (Hm s). unfold mbind, M_bind.
  destruct (m s) as [s' [a|e]]; [apply Hf|].
  simpl in *. congruence.
Qed.

Lemma total_bind_raises {A B} (m : M S A) (f : A -> M S B) :
  total m -> raises m -> total (m ≫= f).
Proof.
  intros Hm Hr s. specialize (Hm s). specialize (Hr s).
  unfold mbind, M_bind. destruct (m s) as [s' [a|e]].
  - by destruct (Hr a).
  - simpl in *. congruence.
Qed.

Lemma total_get : total (get : M S S).
Proof. intros s. done. Qed.

Lemma total_gets {A} (g : S -> A) : total (gets g).
Proof. intros s. done. Qed.

Lemma total_put s : total (put s : M S unit).
Proof. intros s'. done. Qed.

Lemma total_modify (f : S -> S) : total (modify f).
Proof. intros s. done. Qed.

Lemma total_read_name {A} name (v : option A) : total (read_name name v : M S A).
Proof. intros s. by destruct v. Qed.

Lemma total_try_except {A} (m : M S A) handler :
  total m -> (forall e h, handler e = Some h -> total h) ->
  total (try_except m handler).
Proof.
  intros Hm Hh s. specialize (Hm s). unfold try_except.
  destruct (m s) as [s' [a|e]]; [done|].
  destruct (handler e) as [h|] eqn:He; [by eapply Hh|exact Hm].
Qed.

Lemma total_attempt_bind {A B} (m : M S A) (f : Outcome A -> M S B) :
  total m -> (forall r, r ≠ Raise OutOfFuel -> total (f r)) ->
  total (attempt m ≫= f).
Proof.
  intros Hm Hf s. specialize (Hm s). unfold mbind, M_bind, attempt.
  destruct (m s) as [s' r]. by apply Hf.
Qed.

Lemma total_in_callback (m : M S unit) : total m -> total (in_callback m).
Proof.
  intros Hm s. specialize (Hm s). unfold in_callback.
  destruct (m s) as [s' [a|[]]]; done.
Qed.

Lemma total_for_each {A} (l : list A) body :
  (forall x, total (body x)) -> total (for_each l body).
Proof.
  intros Hb. induction l as [|x l IH]; simpl; [apply total_ret|].
  apply total_bind; [apply Hb|by intros].
Qed.

Lemma total_filterM {A} (p : A -> M S bool) l :
  (forall x, total (p x)) -> total (filterM p l).
Proof.
  intros Hp. induction l as [|x l IH]; simpl; [apply total_ret|].
  apply total_bind; [apply Hp|]. intros b.
  apply total_bind; [apply IH|]. intros r. apply total_ret.
Qed.
End Total.

Section TotalTables.
Variable k : nat.

Lemma kbucket_keyInRange_total key : total (kbucket.keyInRange key).
Proof.
  destruct key; simpl; [|by apply total_raise].
  apply total_bind; [apply total_get|]. intros. apply total_ret.
Qed.

Lemma kbucket_getContact_total g : total (kbucket.getContact g).
Proof. apply total_bind; [apply total_get|]. intros. apply total_ret. Qed.

Lemma kbucket_addContact_total now c : total (kbucket.addContact k now c).
Proof.
  apply total_bind; [apply total_get|]. intros b.
  destruct (list_find_guid _ _); [apply total_put|].
  destruct (decide _); [apply total_put|by apply total_raise].
Qed.

Lemma kbucket_removeContact_total g : total (kbucket.removeContact g).
Proof.
  apply total_bind; [apply total_get|]. intros b.
  destruct (list_remove _ _); [apply total_put|by apply total_raise].
Qed.

Lemma kbucket_contacts_getitem_total i : total (kbucket.contacts_getitem i).
Proof.
  apply total_bind; [apply total_get|]. intros b.
  destruct (_ !! _); [apply total_ret|by apply total_raise].
Qed.

Lemma at_bucket_total {A} i (m : M KBucket A) :
  total m -> total (Tree.at_bucket i m).
Proof.
  intros Hm self. unfold Tree.at_bucket.
  destruct (buckets self !! i) as [b|]; [|done].
  specialize (Hm b). by destruct (m b).
Qed.

Lemma kbucketIndex_total g : total (Tree.kbucketIndex g).
Proof.
  apply total_bind; [apply total_get|]. intros self. apply total_bind.
  - apply total_filterM. intros i. apply at_bucket_total, kbucket_keyInRange_total.
  - intros [|i [|j l]]; [by apply total_raise|apply total_ret|by apply total_raise].
Qed.

Lemma splitBucket_total now i : total (Tree.splitBucket k now i).
Proof. by apply total_raise. Qed.

Lemma splitBucket_raises now i : raises (Tree.splitBucket k now i).
Proof. intros s a. done. Qed.

Lemma tree_removeContact_total g : total (Tree.removeContact g).
Proof.
  apply total_bind; [apply kbucketIndex_total|]. intros i.
  apply total_try_except.
  - apply at_bucket_total, kbucket_removeContact_total.
  - intros [] h [= <-]. apply total_ret.
Qed.

Lemma tree_addContact_rec_total tn fuel now c pings :
  (length pings < fuel)%nat ->
  total (Tree.addContact_rec k tn fuel now c pings).
Proof.
  revert pings. induction fuel as [|fuel IH]; intros pings Hlen; [lia|].
  simpl. apply total_bind; [apply total_get|]. intros self.
  destruct (decide _); [apply total_ret|].
  apply total_bind; [apply kbucketIndex_total|]. intros i.
  apply total_bind; [apply at_bucket_total, kbucket_getContact_total|].
  intros [known|]; [apply total_ret|].
  apply total_try_except; [apply at_bucket_total, kbucket_addContact_total|].
  intros [] h [= <-].
  apply total_bind; [apply at_bucket_total, kbucket_keyInRange_total|].
  intros [|].
  - apply total_bind_raises; [apply splitBucket_total|apply splitBucket_raises].
  - apply total_bind; [apply at_bucket_total, kbucket_contacts_getitem_total|].
    intros headContact. destruct pings as [|ping pings]; [apply total_ret|].
    cbn [head tail Tree.ping_addErrback].
    destruct (ping headContact) as [|g|]; try apply total_ret;
      apply total_in_callback;
      (apply total_bind; [apply total_read_name|]); intros _;
      [|by apply total_raise].
    apply total_bind.
    + apply total_try_except;
        [apply at_bucket_total, kbucket_removeContact_total|].
      intros [] h [= <-]. apply total_ret.
    + intros _. apply IH. simpl in Hlen. lia.
Qed.

(** [addContact] of the base table always ends: the recursion after a
    ping consumes one ping result, and no recursion follows a split. *)
Lemma tree_addContact_total now c pings :
  total (Tree.addContact k now c pings).
Proof. apply tree_addContact_rec_total. lia. Qed.

Lemma inherited_total {A} (m : M TreeRoutingTable A) :
  total m -> total (Optimized.inherited m).
Proof.
  intros Hm self. specialize (Hm (tree self)). unfold Optimized.inherited.
  by destruct (m (tree self)).
Qed.

Lemma on_self_total {A} (m : M OptimizedTreeRoutingTable A) :
  total m -> total (Optimized.on_self m).
Proof.
  intros Hm f. specialize (Hm (fst f)). unfold Optimized.on_self.
  by destruct (m (fst f)).
Qed.

Lemma on_self_raises {A} (m : M OptimizedTreeRoutingTable A) :
  raises m -> raises (Optimized.on_self m).
Proof.
  intros Hm f a. specialize (Hm (fst f) a). unfold Optimized.on_self.
  by destruct (m (fst f)).
Qed.

Lemma optimized_splitBucket_raises now i : raises (Optimized.splitBucket k now i).
Proof. intros s a. done. Qed.

Lemma cache_getitem_total i : total (Optimized.cache_getitem i).
Proof.
  apply total_bind; [apply total_get|]. intros self.
  destruct (_ !! _); [apply total_ret|by apply total_raise].
Qed.

Lemma cache_pop_total i : total (Optimized.cache_pop i).
Proof.
  apply total_bind; [apply total_get|]. intros self.
  destruct (_ !! _); [|by apply total_raise].
  apply total_bind; [apply total_put|]. intros. apply total_ret.
Qed.

Lemma cache_contact_total i c : total (Optimized.cache_contact k i c).
Proof.
  apply total_bind; [apply total_get|]. intros self.
  apply total_bind.
  { destruct (decide _); [apply total_modify|apply total_ret]. }
  intros _. apply total_bind; [apply cache_getitem_total|]. intros cached.
  apply total_bind.
  { destruct (list_find_guid _ _); [apply total_modify|].
    apply total_bind; [apply total_get|]. intros self1.
    destruct (decide _); [|apply total_ret].
    apply total_bind; [apply cache_pop_total|]. intros. apply total_ret. }
  intros _. apply total_bind; [apply cache_getitem_total|]. intros.
  apply total_modify.
Qed.

Lemma optimized_removeContact_total now g :
  total (Optimized.removeContact k now g).
Proof.
  apply total_bind; [apply inherited_total, kbucketIndex_total|]. intros i.
  apply total_attempt_bind.
  { apply inherited_total, at_bucket_total, kbucket_removeContact_total. }
  intros [[]|e] He.
  - apply total_bind_raises; [by apply total_raise|]. intros s a. done.
  - destruct e; try (apply total_raise; congruence). apply total_ret.
Qed.

Lemma optimized_insert_total retry now i :
  total (Optimized.insert k retry now i).
Proof.
  apply total_bind; [apply total_gets|]. intros c.
  apply total_bind; [apply total_gets|]. intros self.
  apply total_try_except.
  { apply on_self_total, inherited_total, at_bucket_total,
      kbucket_addContact_total. }
  intros [] h [= <-]. apply total_bind.
  { apply on_self_total, inherited_total, at_bucket_total,
      kbucket_keyInRange_total. }
  intros [|].
  - apply total_bind_raises.
    + apply on_self_total, inherited_total, splitBucket_total.
    + apply on_self_raises, optimized_splitBucket_raises.
  - apply on_self_total, cache_contact_total.
Qed.

Lemma optimized_addContact_rec_total fuel now :
  total (Optimized.addContact_rec k (S fuel) now).
Proof.
  simpl. apply total_bind; [apply total_gets|]. intros c.
  destruct (decide _); [apply total_ret|].
  apply total_bind; [apply total_gets|]. intros self.
  destruct (decide _); [apply total_ret|].
  apply total_bind; [apply total_modify|]. intros _.
  apply total_bind; [apply total_gets|]. intros c'.
  apply total_bind; [apply on_self_total, inherited_total, kbucketIndex_total|].
  intros i. apply total_bind.
  { apply on_self_total, inherited_total, at_bucket_total,
      kbucket_getContact_total. }
  intros [old|]; [|apply optimized_insert_total].
  destruct (decide _); [|apply total_ret].
  apply total_bind; [apply on_self_total, optimized_removeContact_total|].
  intros _. apply optimized_insert_total.
Qed.

(** [addContact] of the optimized table always ends: its only recursive
    call follows [splitBucket], which raises. *)
Lemma optimized_addContact_total now c self :
  outcome_of (Optimized.addContact k now c self) ≠ Raise OutOfFuel.
Proof. apply optimized_addContact_rec_total. Qed.
End TotalTables.

(** ** What the methods compute *)

Lemma set_buckets_id self : Tree.set_buckets (buckets self) self = self.
Proof. by destruct self. Qed.

Lemma at_bucket_eq {A} i (m : M KBucket A) self b b' r :
  buckets self !! i = Some b ->
  m b = (b', r) ->
  Tree.at_bucket i m self
  = (Tree.set_buckets (<[i := b']> (buckets self)) self, r).
Proof. intros Hb Hm. unfold Tree.at_bucket. by rewrite Hb, Hm. Qed.

(** A bucket method that leaves the bucket as it is leaves the table as
    it is. *)
Lemma at_bucket_read {A} i (m : M KBucket A) self b r :
  buckets self !! i = Some b ->
  m b = (b, r) ->
  Tree.at_bucket i m self = (self, r).
Proof.
  intros Hb Hm. rewrite (at_bucket_eq i m self b b r Hb Hm).
  by rewrite list_insert_id, set_buckets_id.
Qed.

(** The id range of a bucket, and the ranges of a list of buckets. *)
Definition range_of (b : KBucket) : Z * Z := (rangeMin b, rangeMax b).
Definition ranges (bs : list KBucket) : list (Z * Z) := range_of <$> bs.

(** The indexes, counted from [j], of the ranges that contain [n]. *)
Fixpoint indexes_from (n : Z) (j : nat) (rs : list (Z * Z)) : list nat :=
  match rs with
  | [] => []
  | r :: rs' =>
      if bool_decide (r.1 <= n < r.2)
      then j :: indexes_from n (S j) rs'
      else indexes_from n (S j) rs'
  end.

(** What [kbucketIndex] returns or raises, from the ranges of the
    buckets. *)
Definition kbucketIndex_outcome (g : Guid) (rs : list (Z * Z)) : Outcome nat :=
  match g with
  | None => match rs with [] => Raise KeyError | _ => Raise ValueError end
  | Some n =>
      match indexes_from n 0 rs with
      | [] => Raise KeyError
      | [i] => Return i
      | _ => Raise RuntimeError
      end
  end.

Lemma filterM_keyInRange n self pre bs :
  buckets self = pre ++ bs ->
  filterM (fun i => Tree.at_bucket i (kbucket.keyInRange (Some n)))
    (seq (length pre) (length bs)) self
  = (self, Return (indexes_from n (length pre) (ranges bs))).
Proof.
  revert pre. induction bs as [|b bs IH]; intros pre Hself;
    cbn -[kbucket.keyInRange]; [done|].
  unfold mbind, M_bind.
  rewrite (at_bucket_read _ _ self b
             (Return (bool_decide (rangeMin b <= n < rangeMax b)))).
  - specialize (IH (pre ++ [b])). rewrite length_app, Nat.add_1_r in IH.
    rewrite IH; [done|]. by rewrite <- app_assoc.
  - rewrite Hself. by apply list_lookup_middle.
  - done.
Qed.

Lemma kbucketIndex_eq g self :
  Tree.kbucketIndex g self
  = (self, kbucketIndex_outcome g (ranges (buckets self))).
Proof.
  unfold Tree.kbucketIndex, mbind, M_bind, get. destruct g as [n|].
  - pose proof (filterM_keyInRange n self [] (buckets self) eq_refl) as H.
    cbn [length] in H. rewrite H. unfold kbucketIndex_outcome.
    by destruct (indexes_from n 0 (ranges (buckets self))) as [|i [|j l]].
  - destruct (buckets self) as [|b bs] eqn:Hbs; simpl; [done|].
    unfold Tree.at_bucket, mbind, M_bind. rewrite Hbs. simpl.
    by rewrite <- Hbs, set_buckets_id.
Qed.

Lemma elem_of_indexes_from n j rs i :
  i ∈ indexes_from n j rs
  <-> (j <= i)%nat /\ exists r, rs !! (i - j)%nat = Some r /\ r.1 <= n < r.2.
Proof.
  revert j. induction rs as [|r rs IH]; intros j; simpl.
  { split; [by intros ?%elem_of_nil|]. by intros (_ & r & ? & _). }
  assert (i ∈ indexes_from n (S j) rs
          <-> (j < i)%nat /\ exists r', (r :: rs) !! (i - j)%nat = Some r'
                                     /\ r'.1 <= n < r'.2) as Htail.
  { rewrite IH. split.
    - intros (Hj & r' & Hr' & Hn). split; [lia|]. exists r'. split; [|done].
      replace (i - j)%nat with (S (i - S j)) by lia. done.
    - intros (Hj & r' & Hr' & Hn). split; [lia|]. exists r'. split; [|done].
      replace (i - j)%nat with (S (i - S j)) in Hr' by lia. done. }
  case_bool_decide as Hr.
  - rewrite elem_of_cons, Htail. split.
    + intros [->|[Hj H]]; [|split; [lia|done]].
      split; [lia|]. exists r. by rewrite Nat.sub_diag.
    + intros (Hj & r' & Hr' & Hn).
      destruct (decide (i = j)) as [->|]; [by left|right].
      split; [lia|]. by exists r'.
  - rewrite Htail. split.
    + intros [Hj H]. split; [lia|done].
    + intros (Hj & r' & Hr' & Hn).
      destruct (decide (i = j)) as [->|]; [|split; [lia|by exists r']].
      rewrite Nat.sub_diag in Hr'. simpl in Hr'. injection Hr' as <-. done.
Qed.

Lemma NoDup_indexes_from n j rs : NoDup (indexes_from n j rs).
Proof.
  revert j. induction rs as [|r rs IH]; intros j; simpl; [constructor|].
  case_bool_decide; [|apply IH]. constructor; [|apply IH].
  rewrite elem_of_indexes_from. lia.
Qed.

(** [kbucketIndex] returns [i] exactly when bucket [i] is the only bucket
    whose range contains the id. *)
Lemma kbucketIndex_outcome_Return n rs i :
  kbucketIndex_outcome (Some n) rs = Return i
  <-> (exists r, rs !! i = Some r /\ r.1 <= n < r.2)
      /\ forall j r, rs !! j = Some r -> r.1 <= n < r.2 -> j = i.
Proof.
  unfold kbucketIndex_outcome.
  pose proof (elem_of_indexes_from n 0 rs) as Hin.
  pose proof (NoDup_indexes_from n 0 rs) as Hnd.
  destruct (indexes_from n 0 rs) as [|i0 [|i1 l]].
  - split; [done|]. intros [(r & Hr & Hn) _].
    assert (i ∈ []) as H; [|by apply elem_of_nil in H].
    apply Hin. split; [lia|]. exists r. by rewrite Nat.sub_0_r.
  - split.
    + intros [= ->]. destruct (proj1 (Hin i)) as (_ & r & Hr & Hn).
      { apply list_elem_of_singleton. done. }
      rewrite Nat.sub_0_r in Hr. split; [by exists r|].
      intros j r' Hr' Hn'. apply list_elem_of_singleton, Hin.
      split; [lia|]. exists r'. by rewrite Nat.sub_0_r.
    + intros [(r & Hr & Hn) _]. f_equal. symmetry.
      apply list_elem_of_singleton, Hin.
      split; [lia|]. exists r. by rewrite Nat.sub_0_r.
  - split; [done|]. intros [_ Huniq]. exfalso.
    assert (i0 = i) as ->.
    { destruct (proj1 (Hin i0)) as (_ & r & Hr & Hn); [left|].
      rewrite Nat.sub_0_r in Hr. by eapply Huniq. }
    assert (i1 = i) as ->.
    { destruct (proj1 (Hin i1)) as (_ & r & Hr & Hn); [right; left|].
      rewrite Nat.sub_0_r in Hr. by eapply Huniq. }
    apply NoDup_cons in Hnd as [Hnd _]. apply Hnd. left.
Qed.

(** * The partition of the id space (T1-T3) *)

(** The size of the id space, [2 ** BIT_NODE_ID_LEN]. *)
Definition ID_SPACE : Z := 2 ^ constants.BIT_NODE_ID_LEN.

(** T1: the first bucket starts at 0 and the last one ends at [2^B]. *)
Definition covers (bs : list KBucket) : Prop :=
  rangeMin <$> head bs = Some 0 /\ rangeMax <$> last bs = Some ID_SPACE.

(** T2: each bucket ends where the next one starts. *)
Definition contiguous (bs : list KBucket) : Prop :=
  forall i b b',
    bs !! i = Some b -> bs !! S i = Some b' -> rangeMax b = rangeMin b'.

(** T3: every id lies in exactly one bucket. *)
Definition one_bucket_per_id (bs : list KBucket) : Prop :=
  forall n, 0 <= n < ID_SPACE ->
    exists i,
      (exists b, bs !! i = Some b /\ rangeMin b <= n < rangeMax b)
      /\ forall j b, bs !! j = Some b -> rangeMin b <= n < rangeMax b -> j = i.

Definition partitions (bs : list KBucket) : Prop :=
  covers bs /\ contiguous bs /\ one_bucket_per_id bs.

Lemma ranges_lookup bs bs' i b' :
  ranges bs = ranges bs' -> bs' !! i = Some b' ->
  exists b, bs !! i = Some b /\ range_of b = range_of b'.
Proof.
  intros Hr Hb'.
  assert (ranges bs !! i = Some (range_of b')) as H.
  { rewrite Hr. unfold ranges. by rewrite list_lookup_fmap, Hb'. }
  unfold ranges in H. apply list_lookup_fmap_Some in H as (b & Hb & Heq).
  by exists b.
Qed.

Lemma ranges_length bs bs' : ranges bs = ranges bs' -> length bs = length bs'.
Proof.
  intros H. apply (f_equal length) in H. unfold ranges in H.
  by rewrite !length_fmap in H.
Qed.

(** The partition is a property of the ranges of the buckets alone. *)
Lemma partitions_ranges bs bs' :
  ranges bs = ranges bs' -> partitions bs -> partitions bs'.
Proof.
  intros Hr ([Hhead Hlast] & Hcont & Hone).
  assert (forall i b', bs' !! i = Some b' ->
            exists b, bs !! i = Some b /\ rangeMin b = rangeMin b'
                      /\ rangeMax b = rangeMax b') as Hto.
  { intros i b' Hb'. destruct (ranges_lookup _ _ _ _ Hr Hb') as (b & Hb & Heq).
    exists b. injection Heq as ? ?. done. }
  assert (forall i b, bs !! i = Some b ->
            exists b', bs' !! i = Some b' /\ rangeMin b = rangeMin b'
                       /\ rangeMax b = rangeMax b') as Hfrom.
  { intros i b Hb.
    destruct (ranges_lookup _ _ _ _ (eq_sym Hr) Hb) as (b' & Hb' & Heq).
    exists b'. injection Heq as ? ?. done. }
  pose proof (ranges_length _ _ Hr) as Hlen.
  repeat split.
  - rewrite head_lookup in *.
    destruct (bs !! 0%nat) as [b|] eqn:Hb; [|done].
    destruct (Hfrom _ _ Hb) as (b' & -> & Hmin & _). simpl in *. congruence.
  - rewrite last_lookup in *. rewrite <- Hlen.
    destruct (bs !! pred (length bs)) as [b|] eqn:Hb; [|done].
    destruct (Hfrom _ _ Hb) as (b' & -> & _ & Hmax). simpl in *. congruence.
  - intros i b1' b2' H1 H2.
    destruct (Hto _ _ H1) as (b1 & Hb1 & _ & <-).
    destruct (Hto _ _ H2) as (b2 & Hb2 & <- & _). by eapply Hcont.
  - intros n Hn. destruct (Hone n Hn) as (i & (b & Hb & Hin) & Huniq).
    exists i. split.
    + destruct (Hfrom _ _ Hb) as (b' & Hb' & Hmin & Hmax).
      exists b'. split; [done|]. lia.
    + intros j b' Hb' Hin'.
      destruct (Hto _ _ Hb') as (b0 & Hb0 & Hmin & Hmax).
      apply (Huniq j b0 Hb0). lia.
Qed.

(** A table with one bucket over the whole id space partitions it. *)
Lemma init_partitions p : partitions (buckets (one_bucket_table p)).
Proof.
  repeat split.
  - intros [|i] b b' Hb Hb'; simpl in *; done.
  - intros n Hn. exists 0%nat. split.
    + eexists. split; [done|]. simpl. exact Hn.
    + intros [|j] b Hb _; simpl in Hb; done.
Qed.

(** No method changes the range of a bucket. *)
Lemma tree_calls_ranges k calls self :
  ranges (buckets (tree_calls k calls self)) = ranges (buckets self).
Proof.
  pose proof (tree_calls_keeps k (parent_node_id self) (fun _ => True)
    (fun b0 b => range_of b = range_of b0)) as H.
  destruct (H (fun _ _ => I) (fun _ _ _ Hb => Hb) (fun _ _ _ Hb _ => Hb)
              (buckets self) calls self) as [_ HR].
  { split; [done|]. by apply Forall_Forall2_diag, Forall_forall. }
  unfold ranges. apply list_eq_Forall2, Forall2_fmap.
  apply Forall2_flip. eapply Forall2_impl; [exact HR|]. by intros ? ? ->.
Qed.

Lemma optimized_calls_ranges k calls self :
  ranges (buckets (tree (optimized_calls k calls self)))
  = ranges (buckets (tree self)).
Proof.
  pose proof (optimized_calls_keeps k (parent_node_id (tree self))
    (fun _ => True) (fun b0 b => range_of b = range_of b0)) as H.
  destruct (H (fun _ _ => I) (fun _ _ _ Hb => Hb) (fun _ _ _ Hb _ => Hb)
              (buckets (tree self)) calls self) as [[_ HR] _].
  { split; [split; [done|]|].
    - by apply Forall_Forall2_diag, Forall_forall.
    - intros i l _. by apply Forall_forall. }
  unfold ranges. apply list_eq_Forall2, Forall2_fmap.
  apply Forall2_flip. eapply Forall2_impl; [exact HR|]. by intros ? ? ->.
Qed.

(** The calls keep the partition: after every sequence of
    [addContact], [removeContact], [splitBucket] and [touchKBucket]
    calls on a table of either kind whose buckets partition [[0, 2^B)]
    (whether the calls return or raise), the buckets partition it. *)
Lemma calls_keep_partition (k : nat) :
  (forall (self : TreeRoutingTable) (calls : list TreeCall),
     partitions (buckets self) ->
     partitions (buckets (tree_calls k calls self)))
  /\ (forall (self : OptimizedTreeRoutingTable) (calls : list OptimizedCall),
        partitions (buckets (tree self)) ->
        partitions (buckets (tree (optimized_calls k calls self)))).
Proof.
  split; intros self calls Hpart.
  - eapply partitions_ranges; [|exact Hpart].
    symmetry. apply tree_calls_ranges.
  - eapply partitions_ranges; [|exact Hpart].
    symmetry. apply optimized_calls_ranges.
Qed.

(** With [BIT_NODE_ID_LEN] bound to the constant of [constants], the
    constructors return the tables with one bucket, which partition the
    id space. *)
Lemma init_repaired (p : Guid) :
  Tree.init_at (Some constants.BIT_NODE_ID_LEN) p
  = Return (one_bucket_table p)
  /\ Optimized.init_at (Some constants.BIT_NODE_ID_LEN) p
     = Return (one_bucket_optimized p)
  /\ partitions (buckets (one_bucket_table p)).
Proof. split; [done|split; [done|apply init_partitions]]. Qed.

(** C2.  The constructors of both tables raise [NameError], for every
    parent id: line 169 reads the name [BIT_NODE_ID_LEN], which the
    module does not bind (it imports [constants]).  The constructor of
    the optimized table raises in the constructor of its base class,
    before it sets [replacement_cache].  So no table with one bucket
    over [[0, 2^B)] exists after construction. *)
Theorem init_raises_NameError (p : Guid) :
  Tree.init p = Raise (NameError "BIT_NODE_ID_LEN")
  /\ Optimized.init p = Raise (NameError "BIT_NODE_ID_LEN").
Proof. by split. Qed.

(** * Self-exclusion (T4) *)

(** Some bucket of [bs] holds a contact with guid [g]. *)
Definition stores (g : Guid) (bs : list KBucket) : Prop :=
  exists b c, b ∈ bs /\ c ∈ contacts b /\ guid c = g.

(** Some replacement cache of [rc] holds a contact with guid [g]. *)
Definition caches (g : Guid) (rc : gmap nat (list Contact)) : Prop :=
  exists i l c, rc !! i = Some l /\ c ∈ l /\ guid c = g.

(** The methods of the base table never put the parent id in a bucket
    that is free of it. *)
Lemma tree_calls_not_stores k calls self :
  ¬ stores (parent_node_id self) (buckets self) ->
  ¬ stores (parent_node_id self) (buckets (tree_calls k calls self)).
Proof.
  set (p := parent_node_id self). intros Hfree.
  pose proof (tree_calls_keeps k p (fun c => guid c ≠ p)
    (fun _ b => Forall (fun c => guid c ≠ p) (contacts b))) as H.
  destruct (H (fun _ Hc => Hc) (fun _ _ _ Hb => Hb)) with
    (bs0 := buckets self) (calls := calls) (self := self) as [_ HR].
  - intros b0 b l Hb Hl. apply Forall_forall. intros c Hc.
    destruct (Hl c Hc) as [Hold|Hnew]; [|done].
    by eapply (proj1 (Forall_forall _ _) Hb).
  - split; [done|]. apply Forall_Forall2_diag, Forall_forall.
    intros b Hb. apply Forall_forall. intros c Hc Hg.
    apply Hfree. by exists b, c.
  - intros (b & c & Hb & Hc & Hg).
    apply list_elem_of_lookup in Hb as [i Hb].
    destruct (Forall2_lookup_r _ _ _ _ _ HR Hb) as (b0 & _ & Hall).
    by eapply (proj1 (Forall_forall _ _) Hall).
Qed.

(** The methods of the optimized table never put the parent id in a
    bucket or in a replacement cache that is free of it. *)
Lemma optimized_calls_not_stores k calls self :
  ¬ stores (parent_node_id (tree self)) (buckets (tree self)) ->
  ¬ caches (parent_node_id (tree self)) (replacement_cache self) ->
  ¬ stores (parent_node_id (tree self))
      (buckets (tree (optimized_calls k calls self)))
  /\ ¬ caches (parent_node_id (tree self))
         (replacement_cache (optimized_calls k calls self)).
Proof.
  set (p := parent_node_id (tree self)). intros Hfree Hcfree.
  pose proof (optimized_calls_keeps k p (fun c => guid c ≠ p)
    (fun _ b => Forall (fun c => guid c ≠ p) (contacts b))) as H.
  destruct (H (fun _ Hc => Hc) (fun _ _ _ Hb => Hb)) with
    (bs0 := buckets (tree self)) (calls := calls) (self := self)
    as [[_ HR] HC].
  - intros b0 b l Hb Hl. apply Forall_forall. intros c Hc.
    destruct (Hl c Hc) as [Hold|Hnew]; [|done].
    by eapply (proj1 (Forall_forall _ _) Hb).
  - split; [split; [done|]|].
    + apply Forall_Forall2_diag, Forall_forall.
      intros b Hb. apply Forall_forall. intros c Hc Hg.
      apply Hfree. by exists b, c.
    + intros i l Hl. apply Forall_forall. intros c Hc Hg.
      apply Hcfree. by exists i, l, c.
  - split.
    + intros (b & c & Hb & Hc & Hg).
      apply list_elem_of_lookup in Hb as [i Hb].
      destruct (Forall2_lookup_r _ _ _ _ _ HR Hb) as (b0 & _ & Hall).
      by eapply (proj1 (Forall_forall _ _) Hall).
    + intros (i & l & c & Hl & Hc & Hg).
      by eapply (proj1 (Forall_forall _ _) (HC i l Hl)).
Qed.

(** No call changes the parent id. *)
Lemma tree_calls_parent k calls self :
  parent_node_id (tree_calls k calls self) = parent_node_id self.
Proof.
  pose proof (tree_calls_keeps k (parent_node_id self) (fun _ => True)
    (fun _ _ => True)) as H.
  destruct (H (fun _ _ => I) (fun _ _ _ _ => I) (fun _ _ _ _ _ => I)
              (buckets self) calls self) as [Hp _]; [|done].
  split; [done|]. by apply Forall_Forall2_diag, Forall_forall.
Qed.

Lemma optimized_calls_parent k calls self :
  parent_node_id (tree (optimized_calls k calls self))
  = parent_node_id (tree self).
Proof.
  pose proof (optimized_calls_keeps k (parent_node_id (tree self))
    (fun _ => True) (fun _ _ => True)) as H.
  destruct (H (fun _ _ => I) (fun _ _ _ _ => I) (fun _ _ _ _ _ => I)
              (buckets (tree self)) calls self) as [[Hp _] _]; [|done].
  split; [split; [done|]|].
  - by apply Forall_Forall2_diag, Forall_forall.
  - intros i l _. by apply Forall_forall.
Qed.

(** The tables with one bucket hold no contact at all. *)
Lemma one_bucket_table_free p g :
  ¬ stores g (buckets (one_bucket_table p))
  /\ ¬ caches g (replacement_cache (one_bucket_optimized p)).
Proof.
  split.
  - intros (b & c & Hb & Hc & _). simpl in Hb.
    apply list_elem_of_singleton in Hb as ->. by apply elem_of_nil in Hc.
  - intros (i & l & c & Hl & _). simpl in Hl. by rewrite lookup_empty in Hl.
Qed.

(** C8.  In both tables and in every state, [addContact] of a contact
    whose guid is the parent id returns and changes neither the buckets
    nor the replacement caches (nor the contact); and from any table
    that holds no contact with the parent id, every sequence of calls
    (whether they return or raise) leaves the parent id as it is and
    leads to a table of which no bucket and no replacement cache holds a
    contact with the parent id. *)
Theorem parent_never_stored (k : nat) :
  (forall self now addr n pings,
     Tree.addContact k now (mkContact (parent_node_id self) addr n) pings self
     = (self, Return tt))
  /\ (forall self now addr n,
        Optimized.addContact k now
          (mkContact (parent_node_id (tree self)) addr n) self
        = ((self, mkContact (parent_node_id (tree self)) addr n), Return tt))
  /\ (forall (self : TreeRoutingTable) (calls : list TreeCall),
        ¬ stores (parent_node_id self) (buckets self) ->
        parent_node_id (tree_calls k calls self) = parent_node_id self
        /\ ¬ stores (parent_node_id self) (buckets (tree_calls k calls self)))
  /\ (forall (self : OptimizedTreeRoutingTable) (calls : list OptimizedCall),
        ¬ stores (parent_node_id (tree self)) (buckets (tree self)) ->
        ¬ caches (parent_node_id (tree self)) (replacement_cache self) ->
        parent_node_id (tree (optimized_calls k calls self))
        = parent_node_id (tree self)
        /\ ¬ stores (parent_node_id (tree self))
               (buckets (tree (optimized_calls k calls self)))
        /\ ¬ caches (parent_node_id (tree self))
               (replacement_cache (optimized_calls k calls self))).
Proof.
  split; [|split; [|split]].
  - intros self now addr n pings. unfold Tree.addContact, Tree.addContact_at.
    simpl. unfold mbind, M_bind, get. simpl.
    by destruct (decide (parent_node_id self = parent_node_id self)).
  - intros self now addr n. unfold Optimized.addContact. simpl.
    unfold mbind, M_bind, gets. simpl.
    destruct (decide (parent_node_id (tree self) = None)); [done|].
    cbn [fst]. by destruct (decide (parent_node_id (tree self)
                                    = parent_node_id (tree self))).
  - intros self calls Hfree.
    split; [apply tree_calls_parent|by apply tree_calls_not_stores].
  - intros self calls Hfree Hcfree.
    split; [apply optimized_calls_parent|].
    by apply optimized_calls_not_stores.
Qed.

(** * Eviction by ping in the base table *)

Lemma ranges_insert bs i b b' :
  bs !! i = Some b -> range_of b' = range_of b ->
  ranges (<[i := b']> bs) = ranges bs.
Proof.
  intros Hb Hr. unfold ranges. rewrite list_fmap_insert, Hr.
  apply list_insert_id. by rewrite list_lookup_fmap, Hb.
Qed.

Lemma list_find_guid_cons_None g c l :
  list_find_guid g (c :: l) = None -> list_find_guid g l = None.
Proof.
  rewrite !list_find_guid_None. intros H. by apply Forall_cons in H as [_ ?].
Qed.

(** [addContact] of a contact [c] with a new guid, whose bucket has index
    [i] and is [b]. *)
Section FullBucket.
Variables (k : nat) (now : Z) (c : Contact) (self : TreeRoutingTable)
  (i : nat) (b : KBucket) (pn : Z).
Hypothesis Hc : guid c ≠ parent_node_id self.
Hypothesis Hp : parent_node_id self = Some pn.
Hypothesis Hi : outcome_of (Tree.kbucketIndex (guid c) self) = Return i.
Hypothesis Hb : buckets self !! i = Some b.
Hypothesis Hnew : list_find_guid (guid c) (contacts b) = None.

(** The bucket is full and cannot be split: the head is pinged. *)
Lemma addContact_rec_full tn fuel pings headContact rest :
  contacts b = headContact :: rest ->
  (k <= length (contacts b))%nat ->
  ¬ (rangeMin b <= pn < rangeMax b) ->
  Tree.addContact_rec k tn (S fuel) now c pings self
  = Tree.ping_addErrback (head pings) headContact
      (Tree.replaceContact_at tn
         (Tree.addContact_rec k tn fuel now c (tail pings)) i) self.
Proof.
  intros Hcs Hfull Hout. rewrite kbucketIndex_eq in Hi. simpl in Hi.
  cbn [Tree.addContact_rec]. unfold mbind at 1, M_bind at 1, get at 1.
  destruct (decide (guid c = parent_node_id self)); [done|].
  unfold mbind at 1, M_bind at 1. rewrite kbucketIndex_eq, Hi.
  unfold mbind at 1, M_bind at 1.
  rewrite (at_bucket_read i _ self b (Return None) Hb).
  2:{ unfold kbucket.getContact, mbind, M_bind, get. simpl. by rewrite Hnew. }
  unfold try_except at 1.
  rewrite (at_bucket_read i _ self b (Raise BucketFull) Hb).
  2:{ unfold kbucket.addContact, mbind, M_bind, get. simpl. rewrite Hnew.
      destruct (decide (length (contacts b) < k)%nat); [lia|done]. }
  unfold mbind at 1, M_bind at 1.
  rewrite (at_bucket_read i _ self b (Return false) Hb).
  2:{ rewrite Hp. unfold kbucket.keyInRange, mbind, M_bind, get. simpl.
      by rewrite bool_decide_eq_false_2. }
  unfold mbind at 1, M_bind at 1.
  rewrite (at_bucket_read i _ self b (Return headContact) Hb); [done|].
  unfold kbucket.contacts_getitem, mbind, M_bind, get. simpl. by rewrite Hcs.
Qed.

(** The bucket has room: [c] goes to its tail. *)
Lemma addContact_rec_room tn fuel pings :
  (length (contacts b) < k)%nat ->
  Tree.addContact_rec k tn (S fuel) now c pings self
  = (Tree.set_buckets
       (<[i := mkKBucket (rangeMin b) (rangeMax b) (contacts b ++ [c]) now]>
          (buckets self)) self, Return tt).
Proof.
  intros Hroom. rewrite kbucketIndex_eq in Hi. simpl in Hi.
  cbn [Tree.addContact_rec]. unfold mbind at 1, M_bind at 1, get at 1.
  destruct (decide (guid c = parent_node_id self)); [done|].
  unfold mbind at 1, M_bind at 1. rewrite kbucketIndex_eq, Hi.
  unfold mbind at 1, M_bind at 1.
  rewrite (at_bucket_read i _ self b (Return None) Hb).
  2:{ unfold kbucket.getContact, mbind, M_bind, get. simpl. by rewrite Hnew. }
  unfold try_except at 1.
  rewrite (at_bucket_eq i _ self b
    (mkKBucket (rangeMin b) (rangeMax b) (contacts b ++ [c]) now)
    (Return tt) Hb); [done|].
  unfold kbucket.addContact, mbind, M_bind, get. simpl. rewrite Hnew.
  destruct (decide (length (contacts b) < k)%nat); [done|lia].
Qed.
End FullBucket.

(** A table as a split at [2^159] leaves it, for [k = 2]: the lower
    bucket is full, the parent id lies in the upper one. *)
Definition example_contact (n : Z) : Contact :=
  mkContact (Some n) ("10.0.0.1"%string, 12000 + n) 0.

Definition example_table : TreeRoutingTable :=
  mkTreeRoutingTable (Some (2 ^ 159))
    [mkKBucket 0 (2 ^ 159) [example_contact 1; example_contact 2] 0;
     mkKBucket (2 ^ 159) (2 ^ 160) [] 0].

(** A network in which the contact of guid [g] has gone: its PING ends
    with a [TimeoutError] that carries [g], every other PING is
    answered. *)
Definition ping_without (g : Guid) : Ping :=
  fun contact =>
    if decide (guid contact = g) then TimeoutError g else Pong.

(** The errback of the source ends at its first statement, whatever the
    failure, and changes nothing. *)
Lemma replaceContact_raises_NameError retry i failure self :
  Tree.replaceContact retry i failure self
  = (self, Raise (NameError "TimeoutError")).
Proof. reflexivity. Qed.

(** C5.  In the base table, let [addContact(c)] hit the bucket [b] of
    index [i], full, with head [headContact], without the guid of [c] and
    with a range that does not contain the parent id.  Then the call
    returns and leaves the table as it was, however the PINGs end, also
    when the PING of the head fails with a [TimeoutError] that carries
    the guid of the head: the errback reads the name [TimeoutError]
    (line 217), which the module does not bind, and the [NameError] ends
    it before it removes or adds a contact.  The bucket still is
    [headContact :: rest], which differs from [rest ++ [c]]. *)
Theorem head_ping_never_evicts (k : nat) now c self i b headContact rest pn
    pings :
  guid c ≠ parent_node_id self ->
  parent_node_id self = Some pn ->
  outcome_of (Tree.kbucketIndex (guid c) self) = Return i ->
  buckets self !! i = Some b ->
  contacts b = headContact :: rest ->
  length (contacts b) = k ->
  list_find_guid (guid c) (contacts b) = None ->
  ¬ (rangeMin b <= pn < rangeMax b) ->
  Tree.addContact k now c pings self = (self, Return tt)
  /\ contacts b ≠ rest ++ [c].
Proof.
  intros Hc Hp Hi Hb Hcs Hfull Hnew Hout. split.
  - unfold Tree.addContact, Tree.addContact_at.
    rewrite (addContact_rec_full k now c self i b pn Hc Hp Hi Hb Hnew
               _ _ _ headContact rest Hcs ltac:(lia) Hout).
    destruct pings as [|ping pings]; [done|].
    cbn [head tail Tree.ping_addErrback].
    by destruct (ping headContact).
  - intros Heq. apply list_find_guid_None in Hnew.
    rewrite Heq in Hnew. apply Forall_app in Hnew as [_ Hnew].
    apply Forall_inv in Hnew. by apply Hnew.
Qed.

Lemma head_ping_never_evicts_witness :
  Tree.addContact 2 100 (example_contact 3) [ping_without (Some 1)]
    example_table
  = (example_table, Return tt)
  /\ [example_contact 1; example_contact 2]
     ≠ [example_contact 2] ++ [example_contact 3].
Proof.
  apply (head_ping_never_evicts 2 100 (example_contact 3) example_table 0
           (mkKBucket 0 (2 ^ 159) [example_contact 1; example_contact 2] 0)
           (example_contact 1) [example_contact 2] (2 ^ 159)
           [ping_without (Some 1)]).
  - discriminate.
  - reflexivity.
  - vm_compute. reflexivity.
  - reflexivity.
  - reflexivity.
  - reflexivity.
  - vm_compute. reflexivity.
  - simpl. lia.
Defined.

(** With [TimeoutError] bound, the errback does what its comments say.
    When [addContact(c)] hits a full bucket without the guid of [c] and
    with a range that does not contain the parent id, the head of the
    bucket is the contact pinged.  If its PING fails with a
    [TimeoutError] that carries its guid, the bucket becomes the old one
    without its head and with [c] at the tail; if it is answered, or
    fails otherwise, the table is left as it was, so [c] is stored
    nowhere. *)
Lemma head_ping_eviction_repaired (k : nat) now c self i b headContact rest pn
    (ping : Ping) pings :
  guid c ≠ parent_node_id self ->
  parent_node_id self = Some pn ->
  outcome_of (Tree.kbucketIndex (guid c) self) = Return i ->
  buckets self !! i = Some b ->
  contacts b = headContact :: rest ->
  length (contacts b) = k ->
  list_find_guid (guid c) (contacts b) = None ->
  ¬ (rangeMin b <= pn < rangeMax b) ->
  (ping headContact = TimeoutError (guid headContact) ->
   Tree.addContact_at k (Some tt) now c (ping :: pings) self
   = (Tree.set_buckets
        (<[i := mkKBucket (rangeMin b) (rangeMax b) (rest ++ [c]) now]>
           (buckets self)) self, Return tt))
  /\ (ping headContact = Pong \/ ping headContact = OtherFailure ->
      Tree.addContact_at k (Some tt) now c (ping :: pings) self
      = (self, Return tt)).
Proof.
  intros Hc Hp Hi Hb Hcs Hfull Hnew Hout. unfold Tree.addContact_at.
  rewrite (addContact_rec_full k now c self i b pn Hc Hp Hi Hb Hnew
             _ _ _ headContact rest Hcs ltac:(lia) Hout).
  cbn [head tail Tree.ping_addErrback]. split.
  - intros ->. unfold Tree.replaceContact_at, read_name.
    unfold in_callback, mbind at 1, M_bind at 1. cbn [mret M_ret].
    unfold mbind at 1, M_bind at 1. unfold try_except at 1.
    set (b1 := kbucket.set_contacts rest b).
    rewrite (at_bucket_eq i _ self b b1 (Return tt) Hb).
    2:{ unfold kbucket.removeContact, mbind, M_bind, get. simpl.
        rewrite Hcs. simpl. by destruct (decide (has_guid _ _)). }
    set (self1 := Tree.set_buckets (<[i:=b1]> (buckets self)) self).
    assert (buckets self1 !! i = Some b1) as Hb1.
    { simpl. apply list_lookup_insert_eq. by eapply lookup_lt_Some. }
    cbn [length]. rewrite (addContact_rec_room k now c self1 i b1 Hc).
    + subst self1 b1. simpl. by rewrite list_insert_insert_eq.
    + rewrite kbucketIndex_eq. simpl. rewrite kbucketIndex_eq in Hi. simpl in Hi.
      by rewrite (ranges_insert _ _ b).
    + done.
    + simpl. rewrite Hcs in Hnew. by eapply list_find_guid_cons_None.
    + simpl. rewrite Hcs in Hfull. simpl in Hfull. lia.
  - by intros [-> | ->].
Qed.

(** On [example_table], when contact 1, the head of the full bucket, has
    gone: the source leaves the bucket as it is, the errback with
    [TimeoutError] bound replaces contact 1 by the new contact; when
    contact 2 has gone instead, the PING of the head is answered and
    nothing changes. *)
Example head_ping_example :
  Tree.addContact 2 100 (example_contact 3) [ping_without (Some 1)]
    example_table
  = (example_table, Return tt)
  /\ Tree.addContact_at 2 (Some tt) 100 (example_contact 3)
       [ping_without (Some 1)] example_table
     = (mkTreeRoutingTable (Some (2 ^ 159))
          [mkKBucket 0 (2 ^ 159) [example_contact 2; example_contact 3] 100;
           mkKBucket (2 ^ 159) (2 ^ 160) [] 0], Return tt)
  /\ Tree.addContact_at 2 (Some tt) 100 (example_contact 3)
       [ping_without (Some 2)] example_table
     = (example_table, Return tt).
Proof. split; [|split]; vm_compute; reflexivity. Qed.

(** * The reset of the failed-RPC counter in the optimized table *)

Section ContactOfFrame.
Variable k : nat.
Variable c0 : Contact.

(** The contact object of the frame is [c0]. *)
Definition contact_is (f : Optimized.Frame) : Prop := snd f = c0.

Lemma on_self_keeps_contact {A} (m : M OptimizedTreeRoutingTable A) :
  keeps contact_is (Optimized.on_self m).
Proof.
  intros f Hf. unfold Optimized.on_self.
  destruct (m (fst f)) as [s' [a|e]]; done.
Qed.

Lemma insert_keeps_contact retry now i :
  keeps contact_is retry -> keeps contact_is (Optimized.insert k retry now i).
Proof.
  intros Hretry. apply keeps_gets_bind. intros f1 _.
  apply keeps_gets_bind. intros f2 _. apply keeps_try_except.
  { apply on_self_keeps_contact. }
  intros [] h [= <-]. apply keeps_bind; [apply on_self_keeps_contact|].
  intros [|]; [|apply on_self_keeps_contact].
  apply keeps_bind; [apply on_self_keeps_contact|by intros].
Qed.

(** From the reset on, the contact object is the contact with its
    counter at 0, whatever the body does and however it ends. *)
Lemma addContact_body_resets retry now c :
  c0 = set_failedRPCs 0 c ->
  keeps contact_is retry ->
  triple (fun f => snd f = c) (Optimized.addContact_body k retry now)
    (fun _ => contact_is) contact_is.
Proof.
  intros Hc0 Hretry.
  eapply triple_bind with (R := fun _ => contact_is).
  { apply triple_modify. intros f Hf. unfold contact_is. simpl. by rewrite Hf. }
  intros _. apply keeps_gets_bind. intros f1 _.
  apply keeps_bind; [apply on_self_keeps_contact|]. intros i.
  apply keeps_bind; [apply on_self_keeps_contact|].
  intros [old|]; [|by apply insert_keeps_contact].
  destruct (decide _); [|apply keeps_ret].
  apply keeps_bind; [apply on_self_keeps_contact|].
  intros _. by apply insert_keeps_contact.
Qed.
End ContactOfFrame.

(** The body of [addContact] runs on the contact with its counter at 0:
    it does not matter what the counter was. *)
Lemma addContact_body_reset_first k retry now self c :
  Optimized.addContact_body k retry now (self, c)
  = Optimized.addContact_body k retry now (self, set_failedRPCs 0 c).
Proof. reflexivity. Qed.

(** One step of [addContact]: the two guards, then the body. *)
Lemma optimized_addContact_rec_S k fuel now self c :
  Optimized.addContact_rec k (S fuel) now (self, c)
  = if decide (guid c = None) then ((self, c), Return tt)
    else if decide (guid c = parent_node_id (tree self))
         then ((self, c), Return tt)
         else Optimized.addContact_body k (Optimized.addContact_rec k fuel now)
                now (self, c).
Proof.
  cbn [Optimized.addContact_rec]. unfold mbind, M_bind, gets. cbn [fst snd].
  destruct (decide (guid c = None)); [done|]. cbn [fst].
  by destruct (decide (guid c = parent_node_id (tree self))).
Qed.

(** C10.  In the optimized table, [addContact(c)] of a contact with a
    non-empty guid other than the parent id leaves the contact object as
    [c] with [failedRPCs = 0], however the call ends: with [c] in a
    bucket, in a replacement cache, nowhere (its guid is known with the
    same address), or with an exception.  The reset comes before any use
    of the contact: the call does to the table what it does for the
    contact with its counter already at 0. *)
Theorem addContact_resets_failedRPCs (k : nat) (now : Z) (c : Contact)
    (self : OptimizedTreeRoutingTable) :
  guid c ≠ None ->
  guid c ≠ parent_node_id (tree self) ->
  snd (state_of (Optimized.addContact k now c self)) = set_failedRPCs 0 c
  /\ Optimized.addContact k now c self
     = Optimized.addContact k now (set_failedRPCs 0 c) self.
Proof.
  intros Hg Hp. unfold Optimized.addContact.
  rewrite !optimized_addContact_rec_S. cbn [guid set_failedRPCs].
  destruct (decide (guid c = None)); [done|].
  destruct (decide (guid c = parent_node_id (tree self))); [done|].
  split; [|apply addContact_body_reset_first].
  pose proof (addContact_body_resets k (set_failedRPCs 0 c)
                (raise OutOfFuel) now c eq_refl) as H.
  specialize (H (keeps_raise _ _) (self, c) eq_refl). unfold state_of.
  by destruct (Optimized.addContact_body _ _ _ _) as [f [[]|e]].
Qed.

(** The optimized table as a split at [2^159] leaves it, for [k = 2],
    with nothing cached. *)
Definition example_optimized : OptimizedTreeRoutingTable :=
  mkOptimizedTreeRoutingTable example_table ∅.

Lemma addContact_resets_failedRPCs_witness :
  snd (state_of (Optimized.addContact 2 100
                   (mkContact (Some 3) ("10.0.0.1"%string, 12003) 7)
                   example_optimized))
  = mkContact (Some 3) ("10.0.0.1"%string, 12003) 0
  /\ Optimized.addContact 2 100
       (mkContact (Some 3) ("10.0.0.1"%string, 12003) 7) example_optimized
     = Optimized.addContact 2 100
         (set_failedRPCs 0 (mkContact (Some 3) ("10.0.0.1"%string, 12003) 7))
         example_optimized.
Proof.
  apply (addContact_resets_failedRPCs 2 100
           (mkContact (Some 3) ("10.0.0.1"%string, 12003) 7)
           example_optimized); discriminate.
Defined.

(** * Where the source departs from its documentation *)

(** ** [findCloseNodes] *)

(** C1.  [findCloseNodes] never returns a list: once [kbucketIndex] has
    found the bucket of the key, the first read of [node_id] raises
    [NameError]; when [kbucketIndex] raises, that exception goes through.
    The table is left as it was. *)
Theorem findCloseNodes_raises_NameError (k : nat) (key : Guid) (count : nat)
    (nodeID : Guid) (self : TreeRoutingTable) :
  Tree.findCloseNodes k key count nodeID self
  = (self,
     match kbucketIndex_outcome key (ranges (buckets self)) with
     | Return _ => Raise (NameError "node_id")
     | Raise e => Raise e
     end).
Proof.
  unfold Tree.findCloseNodes, Tree.findCloseNodes_at.
  unfold mbind at 1, M_bind at 1. rewrite kbucketIndex_eq.
  by destruct (kbucketIndex_outcome key (ranges (buckets self))).
Qed.

(** Scenario S1 of the spec, on the code: the lookup in a table with one
    empty bucket raises instead of returning the empty list. *)
Example findCloseNodes_new_table :
  Tree.findCloseNodes constants.k (Some 0) constants.k None
    (one_bucket_table (Some (2 ^ 159)))
  = (one_bucket_table (Some (2 ^ 159)), Raise (NameError "node_id")).
Proof. vm_compute. reflexivity. Qed.

(** ** [splitBucket] *)

(** C3.  [splitBucket] never splits: its first statement reads
    [old_bucket_index], which raises [NameError], on every table and for
    every index, also for a full bucket whose range contains the parent
    id.  The table is left as it was. *)
Theorem splitBucket_raises_NameError (k : nat) (now : Z) (oldBucketIndex : nat)
    (self : TreeRoutingTable) :
  Tree.splitBucket k now oldBucketIndex self
  = (self, Raise (NameError "old_bucket_index")).
Proof. reflexivity. Qed.

(** The contact with id [n] of the examples below. *)
Definition contact_at (addr : string) (n : Z) : Contact :=
  mkContact (Some n) (addr, 12000 + n) 0.

(** The table with one bucket of parent [2^159] after the contacts with
    ids 1 to 20 were added: its bucket is full ([k = 20]) and its range
    contains the parent id. *)
Definition full_new_table : TreeRoutingTable :=
  tree_calls constants.k
    ((fun n => CallAddContact 0 (contact_at "10.0.0.1" n) []) <$> seqZ 1 20)
    (one_bucket_table (Some (2 ^ 159))).

(** Scenario S2 of the spec, on the code: the 21st contact finds the
    bucket full, the split raises, and the contact is not stored. *)
Example addContact_full_bucket_raises :
  length <$> (contacts <$> buckets full_new_table) = [20%nat]
  /\ Tree.splitBucket constants.k 0 0 full_new_table
     = (full_new_table, Raise (NameError "old_bucket_index"))
  /\ Tree.addContact constants.k 0 (contact_at "10.0.0.1" 21) [] full_new_table
     = (full_new_table, Raise (NameError "old_bucket_index")).
Proof. vm_compute. done. Qed.

(** ** The replacement cache of the optimized table *)

(** [removeContact] never takes a contact from the replacement cache:
    the dictionary comes out as it went in, and when the call returns
    (rather than raises) it has removed nothing. *)
Lemma optimized_removeContact_cache k now contactID self :
  replacement_cache (state_of (Optimized.removeContact k now contactID self))
  = replacement_cache self
  /\ (outcome_of (Optimized.removeContact k now contactID self) = Return tt ->
      buckets (tree (state_of (Optimized.removeContact k now contactID self)))
      = buckets (tree self)).
Proof.
  unfold Optimized.removeContact, Optimized.removeContact_via.
  unfold mbind, M_bind, attempt, Optimized.kbucketIndex, Optimized.inherited.
  rewrite kbucketIndex_eq.
  destruct (kbucketIndex_outcome contactID (ranges (buckets (tree self))))
    as [i|e]; [|done].
  unfold Optimized.at_bucket, Optimized.inherited, Tree.at_bucket. simpl.
  destruct (buckets (tree self) !! i) as [b|] eqn:Hb; simpl; [|done].
  unfold kbucket.removeContact, mbind, M_bind, get. simpl.
  destruct (list_remove contactID (contacts b)); simpl; [done|].
  split; [done|]. intros _. by apply list_insert_id.
Qed.

(** An optimized table for [k = 20], as a split at [2^159] leaves it:
    the lower bucket holds the contacts 1 to 20, the upper bucket is
    empty and its range contains the parent id. *)
Definition split_optimized : OptimizedTreeRoutingTable :=
  mkOptimizedTreeRoutingTable
    (mkTreeRoutingTable (Some (2 ^ 159))
       [mkKBucket 0 (2 ^ 159) (contact_at "10.0.0.1" <$> seqZ 1 20) 0;
        mkKBucket (2 ^ 159) (2 ^ 160) [] 0])
    ∅.

(** The table after [addContact] of the contacts 21 to [20 + n], which
    all belong to the full lower bucket. *)
Definition after_candidates (n : Z) : OptimizedTreeRoutingTable :=
  optimized_calls constants.k
    ((fun i => OCallAddContact 0 (contact_at "10.0.0.1" i)) <$> seqZ 21 n)
    split_optimized.

(** C4.  With [k = 20], twenty-one candidates for a full bucket that
    cannot be split all stay in its replacement cache: the list has 21
    entries, and its oldest entry, contact 21, is still its head.  The
    cap of the source compares the number of keys of the dictionary, here
    1, with [k]. *)
Theorem replacement_cache_exceeds_k :
  length <$> (replacement_cache (after_candidates 21) !! 0%nat) = Some 21%nat
  /\ (replacement_cache (after_candidates 21) !! 0%nat) ≫= head
     = Some (contact_at "10.0.0.1" 21)
  /\ size (replacement_cache (after_candidates 21)) = 1%nat.
Proof. vm_compute. done. Qed.

(** C7.  With one candidate, contact 21, in the replacement cache of the
    full lower bucket, [removeContact] of contact 1 removes it from the
    bucket and then raises [AttributeError]: the bucket is left with 19
    contacts, and contact 21 is still cached and in no bucket. *)
Theorem removeContact_leaves_cache :
  outcome_of (Optimized.removeContact constants.k 0 (Some 1) (after_candidates 1))
  = Raise (AttributeError "replacementCache")
  /\ contacts <$>
       buckets (tree (state_of (Optimized.removeContact constants.k 0 (Some 1)
                                  (after_candidates 1))))
     = [contact_at "10.0.0.1" <$> seqZ 2 19; []]
  /\ replacement_cache
       (state_of (Optimized.removeContact constants.k 0 (Some 1)
                    (after_candidates 1))) !! 0%nat
     = Some [contact_at "10.0.0.1" 21].
Proof. vm_compute. done. Qed.

(** The optimized table with one bucket of parent [2^159] after contact
    5 was added with the address 10.0.0.1. *)
Definition knows_contact_5 : OptimizedTreeRoutingTable :=
  optimized_calls constants.k [OCallAddContact 0 (contact_at "10.0.0.1" 5)]
    (one_bucket_optimized (Some (2 ^ 159))).

(** C6.  A rebind of contact 5 to the address 10.0.0.2: [addContact]
    removes the entry with the old address, and the [AttributeError] of
    [removeContact] ends the call before the insertion: afterwards the
    table has no entry for the guid at all, in no bucket and in no
    replacement cache. *)
Theorem rebind_loses_contact :
  contacts <$> buckets (tree knows_contact_5) = [[contact_at "10.0.0.1" 5]]
  /\ outcome_of (Optimized.addContact constants.k 1 (contact_at "10.0.0.2" 5)
                   knows_contact_5)
     = Raise (AttributeError "replacementCache")
  /\ contacts <$>
       buckets (tree (fst (state_of
          (Optimized.addContact constants.k 1 (contact_at "10.0.0.2" 5)
             knows_contact_5))))
     = [[]]
  /\ size (replacement_cache (fst (state_of
          (Optimized.addContact constants.k 1 (contact_at "10.0.0.2" 5)
             knows_contact_5))))
     = 0%nat.
Proof. vm_compute. done. Qed.

(** * The refresh list *)

(** ** The hex codec *)

(** A lower-case hex digit. *)
Definition lower_hex (c : ascii) : Prop :=
  exists d, 0 <= d < 16 /\ c = pystr.hex_char d.

Lemma hex_char_facts :
  Forall (fun d =>
            pystr.hex_val (pystr.hex_char d) = Some d
            /\ pystr.hex_char d ≠ "L"%char
            /\ forall e, e ∈ seqZ 0 16 ->
                 let byte := ascii_of_nat (Z.to_nat (16 * d + e)) in
                 Z.of_nat (nat_of_ascii byte) = 16 * d + e)
         (seqZ 0 16).
Proof.
  apply Forall_forall. intros d Hd.
  repeat (apply elem_of_cons in Hd as [->|Hd]; [
    split; [reflexivity|split; [discriminate|]];
    intros e He;
    repeat (apply elem_of_cons in He as [->|He]; [reflexivity|]);
    by apply elem_of_nil in He|]).
  by apply elem_of_nil in Hd.
Qed.

Lemma hex_val_hex_char d : 0 <= d < 16 -> pystr.hex_val (pystr.hex_char d) = Some d.
Proof.
  intros Hd. pose proof hex_char_facts as H.
  apply (proj1 (Forall_forall _ _)) with (x := d) in H; [tauto|].
  apply elem_of_seqZ. lia.
Qed.

Lemma hex_char_not_L d : 0 <= d < 16 -> pystr.hex_char d ≠ "L"%char.
Proof.
  intros Hd. pose proof hex_char_facts as H.
  apply (proj1 (Forall_forall _ _)) with (x := d) in H; [tauto|].
  apply elem_of_seqZ. lia.
Qed.

Lemma byte_of_hex_pair d e :
  0 <= d < 16 -> 0 <= e < 16 ->
  Z.of_nat (nat_of_ascii (ascii_of_nat (Z.to_nat (16 * d + e)))) = 16 * d + e.
Proof.
  intros Hd He. pose proof hex_char_facts as H.
  apply (proj1 (Forall_forall _ _)) with (x := d) in H;
    [|apply elem_of_seqZ; lia].
  destruct H as (_ & _ & H). apply H. apply elem_of_seqZ. lia.
Qed.

Lemma int16_snoc s c :
  pystr.int16 (s ++ [c])
  = a ← pystr.int16 s; d ← pystr.hex_val c; Some (16 * a + d).
Proof. unfold pystr.int16. by rewrite foldl_app. Qed.

Lemma int16_zeros m s :
  pystr.int16 (replicate m "0"%char ++ s) = pystr.int16 s.
Proof.
  unfold pystr.int16. rewrite foldl_app. f_equal.
  induction m as [|m IH]; simpl; [done|]. exact IH.
Qed.

(** The digits of [hex]: they read back as the number, they are
    lower-case hex digits, and a number below [16^m] has at most [m]. *)
Lemma hex_digits_fuel_spec fuel n :
  0 <= n < 16 ^ Z.of_nat fuel -> (0 < fuel)%nat ->
  pystr.int16 (pystr.hex_digits_fuel fuel n) = Some n
  /\ Forall lower_hex (pystr.hex_digits_fuel fuel n)
  /\ pystr.hex_digits_fuel fuel n ≠ [].
Proof.
  revert n. induction fuel as [|fuel IH]; intros n Hn Hfuel; [lia|].
  simpl. destruct (n <? 16) eqn:Hlt.
  - apply Z.ltb_lt in Hlt. split; [|split].
    + unfold pystr.int16. simpl. rewrite hex_val_hex_char by lia. simpl.
      f_equal; lia.
    + apply Forall_singleton. exists n. split; [lia|done].
    + done.
  - apply Z.ltb_ge in Hlt.
    assert (0 < fuel)%nat as Hf.
    { destruct fuel; [|lia]. simpl in Hn. lia. }
    assert (0 <= n / 16 < 16 ^ Z.of_nat fuel) as Hq.
    { split; [apply Z.div_pos; lia|]. apply Z.div_lt_upper_bound; [lia|].
      rewrite Nat2Z.inj_succ, Z.pow_succ_r in Hn by lia. lia. }
    destruct (IH (n / 16) Hq Hf) as (Hint & Hall & Hne).
    pose proof (Z.mod_pos_bound n 16 ltac:(lia)) as Hm.
    split; [|split].
    + rewrite int16_snoc, Hint. simpl. rewrite hex_val_hex_char by lia. simpl.
      pose proof (Z.div_mod n 16 ltac:(lia)). f_equal; lia.
    + apply Forall_app. split; [done|]. apply Forall_singleton.
      exists (n mod 16). split; [lia|done].
    + by destruct (pystr.hex_digits_fuel fuel (n / 16)).
Qed.

Lemma hex_digits_fuel_length fuel n m :
  0 <= n < 16 ^ Z.of_nat m -> (0 < m)%nat ->
  (length (pystr.hex_digits_fuel fuel n) <= m)%nat.
Proof.
  revert n m. induction fuel as [|fuel IH]; intros n m Hn Hm; simpl; [lia|].
  destruct (n <? 16) eqn:Hlt; simpl; [lia|]. apply Z.ltb_ge in Hlt.
  destruct m as [|m]; [lia|]. rewrite length_app. simpl.
  assert (0 < m)%nat as Hm'.
  { destruct m; [|lia]. simpl in Hn. lia. }
  assert (0 <= n / 16 < 16 ^ Z.of_nat m) as Hq.
  { split; [apply Z.div_pos; lia|]. apply Z.div_lt_upper_bound; [lia|].
    rewrite Nat2Z.inj_succ, Z.pow_succ_r in Hn by lia. lia. }
  specialize (IH (n / 16) m Hq Hm'). lia.
Qed.

Lemma hex_digits_spec n :
  0 <= n ->
  pystr.int16 (pystr.hex_digits n) = Some n
  /\ Forall lower_hex (pystr.hex_digits n)
  /\ pystr.hex_digits n ≠ [].
Proof.
  intros Hn. apply hex_digits_fuel_spec; [|lia]. split; [done|].
  rewrite Nat2Z.inj_succ, Z2Nat.id by apply Z.log2_nonneg.
  destruct (decide (n = 0)) as [->|Hpos]; [done|].
  pose proof (Z.log2_spec n ltac:(lia)) as [_ Hlog].
  eapply Z.lt_le_trans; [exact Hlog|].
  pose proof (Z.log2_nonneg n).
  replace 16 with (2 ^ 4) by done. rewrite <- Z.pow_mul_r by lia.
  apply Z.pow_le_mono_r; lia.
Qed.

(** Decoding a string of lower-case hex digits of even length and
    encoding the bytes again gives the string back, two digits a byte. *)
Lemma decode_encode_hex n s :
  (length s = 2 * n)%nat -> Forall lower_hex s ->
  exists bytes,
    pystr.decode_hex s = Some bytes
    /\ length bytes = n
    /\ pystr.encode_hex bytes = s.
Proof.
  revert s. induction n as [|n IH]; intros s Hlen Hall.
  - destruct s; [|simpl in Hlen; lia]. by exists [].
  - destruct s as [|hi [|lo s]]; simpl in Hlen; try lia.
    apply Forall_cons in Hall as [(h & Hh & ->) Hall].
    apply Forall_cons in Hall as [(l & Hl & ->) Hall].
    destruct (IH s ltac:(lia) Hall) as (bytes & Hdec & Hblen & Henc).
    exists (ascii_of_nat (Z.to_nat (16 * h + l)) :: bytes).
    cbn [pystr.decode_hex]. rewrite !hex_val_hex_char, Hdec by done.
    split; [done|]. split; [simpl; lia|].
    unfold pystr.encode_hex in *. cbn [flat_map]. rewrite Henc.
    rewrite byte_of_hex_pair by done.
    rewrite <- (Z.div_unique_pos (16 * h + l) 16 h l) by lia.
    rewrite <- (Z.mod_unique_pos (16 * h + l) 16 h l) by lia.
    done.
Qed.

Lemma encode_hex_app s1 s2 :
  pystr.encode_hex (s1 ++ s2) = pystr.encode_hex s1 ++ pystr.encode_hex s2.
Proof. unfold pystr.encode_hex. apply flat_map_app. Qed.

Lemma encode_hex_zero_bytes m :
  pystr.encode_hex (replicate m "000"%char) = replicate (2 * m) "0"%char.
Proof.
  induction m as [|m IH]; [done|].
  replace (2 * S m)%nat with (S (S (2 * m))) by lia.
  cbn [replicate]. unfold pystr.encode_hex in *. cbn [flat_map].
  by rewrite IH.
Qed.

(** The 40 hex digits of a 160-bit id [n]: what [getRefreshList] emits
    for the random id [n]. *)
Definition id_hex (s : str) (n : Z) : Prop :=
  Z.of_nat (length s) = constants.BIT_NODE_ID_LEN / 4
  /\ Forall lower_hex s
  /\ pystr.int16 s = Some n.

Lemma strip_L_hex n :
  0 <= n ->
  let randomID := drop 2 (pystr.hex n) in
  (if decide (last randomID = Some "L"%char)
   then take (length randomID - 1) randomID else randomID)
  = pystr.hex_digits n.
Proof.
  intros Hn. unfold pystr.hex.
  replace (n <? 0) with false by (symmetry; apply Z.ltb_ge; lia).
  rewrite Z.abs_eq by done. cbn [app drop].
  destruct (hex_digits_spec n Hn) as (_ & Hall & Hne).
  destruct (_ || _); rewrite !drop_0.
  - rewrite last_snoc. rewrite decide_True by done.
    rewrite length_app. simpl. rewrite Nat.add_sub.
    by rewrite take_app_length.
  - rewrite app_nil_r.
    destruct (last (pystr.hex_digits n)) as [c|] eqn:Hlast.
    + apply last_Some in Hlast as [l' Hl']. rewrite Hl' in Hall.
      apply Forall_app in Hall as [_ Hc]. apply Forall_inv in Hc.
      destruct Hc as (d & Hd & ->).
      rewrite decide_False; [done|].
      intros [= H]. by apply (hex_char_not_L d).
    + by rewrite decide_False.
Qed.

(** The string steps of [_randomIDInBucketRange] and the hex encoding of
    [getRefreshList], for the random id [n]. *)
Lemma random_id_hex n :
  0 <= n < ID_SPACE ->
  let randomID := drop 2 (pystr.hex n) in
  let randomID :=
    if decide (last randomID = Some "L"%char)
    then take (length randomID - 1) randomID else randomID in
  let randomID :=
    if decide (pystr.len randomID mod 2 ≠ 0)
    then "0"%char :: randomID else randomID in
  exists bytes,
    pystr.decode_hex randomID = Some bytes
    /\ id_hex (pystr.encode_hex
                 (pystr.repeat_char (20 - pystr.len bytes) "000"%char ++ bytes))
              n.
Proof.
  intros Hn. cbv zeta. rewrite strip_L_hex by lia.
  destruct (hex_digits_spec n ltac:(lia)) as (Hint & Hall & _).
  assert (length (pystr.hex_digits n) <= 40)%nat as Hlen.
  { apply hex_digits_fuel_length; [|lia]. exact Hn. }
  set (D := pystr.hex_digits n) in *.
  set (E := if decide (pystr.len D mod 2 ≠ 0) then "0"%char :: D else D).
  assert (exists m, length E = (2 * m)%nat /\ (m <= 20)%nat) as (m & HE & Hm).
  { unfold E, pystr.len.
    pose proof (Z.mod_pos_bound (Z.of_nat (length D)) 2 ltac:(lia)) as Hmod.
    pose proof (Z.div_mod (Z.of_nat (length D)) 2 ltac:(lia)) as Hdiv.
    assert (0 <= Z.of_nat (length D) / 2) as Hq by (apply Z.div_pos; lia).
    revert Hdiv Hq. generalize (Z.of_nat (length D) / 2). intros q Hdiv Hq.
    destruct (decide (Z.of_nat (length D) mod 2 ≠ 0)) as [Hodd|Heven].
    - exists (S (Z.to_nat q)). simpl. lia.
    - exists (Z.to_nat q). lia. }
  assert (Forall lower_hex E /\ pystr.int16 E = Some n) as [HallE HintE].
  { unfold E. destruct (decide _); [|done]. split.
    - apply Forall_cons. split; [|done]. exists 0. split; [lia|done].
    - exact (eq_trans (int16_zeros 1 D) Hint). }
  destruct (decode_encode_hex m E HE HallE) as (bytes & Hdec & Hblen & Henc).
  exists bytes. split; [exact Hdec|].
  rewrite encode_hex_app. unfold pystr.repeat_char, pystr.len.
  rewrite encode_hex_zero_bytes, Henc, Hblen.
  replace (Z.to_nat (20 - Z.of_nat m)) with (20 - m)%nat by lia.
  split; [|split].
  - rewrite length_app, length_replicate, HE.
    unfold constants.BIT_NODE_ID_LEN. change (160 / 4) with 40. lia.
  - apply Forall_app. split; [|done]. apply Forall_replicate.
    exists 0. split; [lia|done].
  - by rewrite int16_zeros.
Qed.

(** ** [getRefreshList] *)

Lemma randomIDInBucketRange_spec r i self b :
  buckets self !! i = Some b ->
  0 <= rangeMin b < rangeMax b -> rangeMax b <= ID_SPACE ->
  exists randomID n,
    Tree._randomIDInBucketRange r i self = (self, Return randomID)
    /\ rangeMin b <= n < rangeMax b
    /\ id_hex (pystr.encode_hex randomID) n.
Proof.
  intros Hb Hrange Hmax.
  set (n := rangeMin b + r mod (rangeMax b - rangeMin b)).
  assert (rangeMin b <= n < rangeMax b) as Hn.
  { pose proof (Z.mod_pos_bound r (rangeMax b - rangeMin b) ltac:(lia)).
    unfold n. lia. }
  destruct (random_id_hex n ltac:(lia)) as (bytes & Hdec & Hhex).
  exists (pystr.repeat_char (20 - pystr.len bytes) "000"%char ++ bytes), n.
  split; [|done].
  unfold Tree._randomIDInBucketRange. unfold mbind at 1, M_bind at 1.
  rewrite (at_bucket_read i _ self b (Return (rangeMin b)) Hb) by done.
  unfold mbind at 1, M_bind at 1.
  rewrite (at_bucket_read i _ self b (Return (rangeMax b)) Hb) by done.
  unfold mbind at 1, M_bind at 1, Tree.randrange.
  replace (rangeMin b <? rangeMax b) with true
    by (symmetry; apply Z.ltb_lt; lia).
  cbn [mret M_ret]. fold n. cbv zeta in Hdec. by rewrite Hdec.
Qed.

(** A bucket is refreshed when the refresh is forced or the bucket was
    last accessed [refreshTimeout] seconds ago or more. *)
Definition to_refresh (refreshTimeout now : Z) (force : bool) (b : KBucket)
  : Prop :=
  force = true \/ refreshTimeout <= now - lastAccessed b.

#[global] Instance to_refresh_dec refreshTimeout now force b :
  Decision (to_refresh refreshTimeout now force b).
Proof. unfold to_refresh. apply _. Defined.

(** The range of a bucket is a non-empty part of the id space. *)
Definition range_in_id_space (b : KBucket) : Prop :=
  0 <= rangeMin b < rangeMax b /\ rangeMax b <= ID_SPACE.

(** The id [searchID] is 40 lower-case hex digits that decode to an id of
    the range of [b]. *)
Definition refreshes (b : KBucket) (searchID : str) : Prop :=
  exists n, rangeMin b <= n < rangeMax b /\ id_hex searchID n.

Lemma refresh_loop_spec refreshTimeout random now force self bs pre :
  buckets self = pre ++ bs ->
  Forall range_in_id_space bs ->
  exists refreshIDs,
    Tree.refresh_loop refreshTimeout random now force (length pre) bs self
    = (self, Return refreshIDs)
    /\ Forall2 refreshes (filter (to_refresh refreshTimeout now force) bs)
         refreshIDs.
Proof.
  revert pre. induction bs as [|b bs IH]; intros pre Hself Hvalid.
  { exists []. split; [done|]. constructor. }
  apply Forall_cons in Hvalid as [[Hb Hmax] Hvalid].
  destruct (IH (pre ++ [b])) as (rest & Hrest & Hall); [|done|].
  { by rewrite <- app_assoc. }
  rewrite length_app in Hrest. cbn [length] in Hrest.
  assert (buckets self !! length pre = Some b) as Hlookup.
  { rewrite Hself. by apply list_lookup_middle. }
  cbn [Tree.refresh_loop]. rewrite filter_cons.
  destruct (decide (to_refresh refreshTimeout now force b)) as [Hyes|Hno].
  - replace (force || bool_decide (refreshTimeout <= now - lastAccessed b))
      with true.
    2:{ symmetry. destruct Hyes as [->|Hstale]; [done|].
        rewrite bool_decide_eq_true_2 by done. apply orb_true_r. }
    destruct (randomIDInBucketRange_spec (random (length pre)) (length pre)
                self b Hlookup Hb Hmax) as (randomID & n & Hid & Hn & Hhex).
    exists (pystr.encode_hex randomID :: rest). split.
    + unfold mbind, M_bind in *. rewrite Hid. cbn [mret M_ret].
      by rewrite Hrest.
    + constructor; [|done]. by exists n.
  - replace (force || bool_decide (refreshTimeout <= now - lastAccessed b))
      with false.
    2:{ symmetry. apply orb_false_iff. split.
        - destruct force; [|done]. destruct Hno. by left.
        - apply bool_decide_eq_false_2. intros H. destruct Hno. by right. }
    exists rest. split; [|done].
    unfold mbind, M_bind in *. cbn [mret M_ret]. by rewrite Hrest.
Qed.

(** C9.  On a table whose buckets from [startIndex] on have non-empty
    ranges within the id space, [getRefreshList(startIndex, force)]
    returns, in bucket order, one id for each bucket of index
    [>= startIndex] that is stale ([now - lastAccessed >= refreshTimeout])
    or, when [force] is set, for each such bucket; and the id of a bucket
    is [B/4 = 40] lower-case hex digits that decode to an integer of the
    range [[rangeMin, rangeMax)] of that bucket.  The table is left as it
    was. *)
Theorem getRefreshList_spec (refreshTimeout : Z) (random : nat -> Z) (now : Z)
    (startIndex : nat) (force : bool) (self : TreeRoutingTable) :
  Forall range_in_id_space (drop startIndex (buckets self)) ->
  exists refreshIDs,
    Tree.getRefreshList refreshTimeout random now startIndex force self
    = (self, Return refreshIDs)
    /\ Forall2 refreshes
         (filter (to_refresh refreshTimeout now force)
            (drop startIndex (buckets self)))
         refreshIDs.
Proof.
  intros Hvalid. unfold Tree.getRefreshList, mbind, M_bind, get.
  destruct (decide (startIndex <= length (buckets self))%nat) as [Hle|Hgt].
  - pose proof (refresh_loop_spec refreshTimeout random now force self
                  (drop startIndex (buckets self))
                  (take startIndex (buckets self))) as H.
    rewrite length_take, Nat.min_l in H by done.
    apply H; [|done]. by rewrite take_drop.
  - rewrite drop_ge by lia. exists []. split; [done|]. constructor.
Qed.

Lemma getRefreshList_spec_witness :
  exists refreshIDs,
    Tree.getRefreshList constants.refreshTimeout (fun i => 1234567 + Z.of_nat i)
      10000 0 false
      (mkTreeRoutingTable (Some (2 ^ 159))
         [mkKBucket 0 (2 ^ 158) [] 10000;
          mkKBucket (2 ^ 158) (2 ^ 159) [] 2800;
          mkKBucket (2 ^ 159) (2 ^ 160) [] 10000])
    = (mkTreeRoutingTable (Some (2 ^ 159))
         [mkKBucket 0 (2 ^ 158) [] 10000;
          mkKBucket (2 ^ 158) (2 ^ 159) [] 2800;
          mkKBucket (2 ^ 159) (2 ^ 160) [] 10000], Return refreshIDs)
    /\ Forall2 refreshes
         (filter (to_refresh constants.refreshTimeout 10000 false)
            (drop 0
               (buckets
                  (mkTreeRoutingTable (Some (2 ^ 159))
                     [mkKBucket 0 (2 ^ 158) [] 10000;
                      mkKBucket (2 ^ 158) (2 ^ 159) [] 2800;
                      mkKBucket (2 ^ 159) (2 ^ 160) [] 10000]))))
         refreshIDs.
Proof.
  apply (getRefreshList_spec constants.refreshTimeout
           (fun i => 1234567 + Z.of_nat i) 10000 0 false).
  repeat constructor; vm_compute; congruence.
Defined.

(** Scenario S5 of the spec, on the code: of three buckets last accessed
    at [now], [now - 7200] and [now], only the second is refreshed, and
    all three are when the refresh is forced ([refreshTimeout = 3600];
    the ids drawn are [lo + (1234567 + i) mod (hi - lo)]). *)
Definition three_buckets : TreeRoutingTable :=
  mkTreeRoutingTable (Some (2 ^ 159))
    [mkKBucket 0 (2 ^ 158) [] 10000;
     mkKBucket (2 ^ 158) (2 ^ 159) [] 2800;
     mkKBucket (2 ^ 159) (2 ^ 160) [] 10000].

Example getRefreshList_three_buckets :
  Tree.getRefreshList constants.refreshTimeout
    (fun i => 1234567 + Z.of_nat i) 10000 0 false three_buckets
  = (three_buckets,
     Return [list_ascii_of_string "400000000000000000000000000000000012d688"])
  /\ Tree.getRefreshList constants.refreshTimeout
       (fun i => 1234567 + Z.of_nat i) 10000 0 true three_buckets
     = (three_buckets,
        Return
          [list_ascii_of_string "000000000000000000000000000000000012d687";
           list_ascii_of_string "400000000000000000000000000000000012d688";
           list_ascii_of_string "800000000000000000000000000000000012d689"]).
Proof. vm_compute. done. Qed.

(** X23.  The calls keep what [getRefreshList] needs: on a table whose
    buckets have non-empty ranges within the id space, after every
    sequence of [addContact], [removeContact], [splitBucket] and
    [touchKBucket] calls (whether they return or raise) the refresh list
    is returned for every start index, with one id of the range of the
    bucket for each bucket to refresh, and the table is left as the
    calls left it. *)
Lemma getRefreshList_after_calls k calls self refreshTimeout random now
    startIndex force :
  Forall range_in_id_space (buckets self) ->
  exists refreshIDs,
    Tree.getRefreshList refreshTimeout random now startIndex force
      (tree_calls k calls self)
    = (tree_calls k calls self, Return refreshIDs)
    /\ Forall2 refreshes
         (filter (to_refresh refreshTimeout now force)
            (drop startIndex (buckets (tree_calls k calls self))))
         refreshIDs.
Proof.
  intros Hself. set (self' := tree_calls k calls self).
  assert (Forall range_in_id_space (drop startIndex (buckets self')))
    as Hvalid.
  { apply Forall_drop.
    pose proof (tree_calls_ranges k calls self) as Hr.
    apply Forall_forall. intros b Hb.
    apply list_elem_of_lookup in Hb as [i Hb].
    destruct (ranges_lookup _ _ _ _ (eq_sym Hr) Hb) as (b0 & Hb0 & Heq).
    apply list_elem_of_lookup_2 in Hb0.
    pose proof (proj1 (Forall_forall _ _) Hself b0 Hb0) as H0.
    injection Heq as Hmin Hmax. unfold range_in_id_space in *.
    by rewrite <- Hmin, <- Hmax. }
  unfold Tree.getRefreshList, mbind, M_bind, get.
  destruct (decide (startIndex <= length (buckets self'))%nat) as [Hle|Hgt].
  - pose proof (refresh_loop_spec refreshTimeout random now force self'
                  (drop startIndex (buckets self'))
                  (take startIndex (buckets self'))) as H.
    rewrite length_take, Nat.min_l in H by done.
    apply H; [|done]. by rewrite take_drop.
  - rewrite drop_ge by lia. exists []. split; [done|]. constructor.
Qed.

Lemma getRefreshList_after_calls_witness :
  exists refreshIDs,
    Tree.getRefreshList constants.refreshTimeout
      (fun i => 1234567 + Z.of_nat i) 10000 1 false
      (tree_calls constants.k
         [CallAddContact 9000 (contact_at "10.0.0.1" 7) [];
          CallRemoveContact (Some 9);
          CallSplitBucket 9500 0]
         three_buckets)
    = (tree_calls constants.k
         [CallAddContact 9000 (contact_at "10.0.0.1" 7) [];
          CallRemoveContact (Some 9);
          CallSplitBucket 9500 0]
         three_buckets, Return refreshIDs)
    /\ Forall2 refreshes
         (filter (to_refresh constants.refreshTimeout 10000 false)
            (drop 1
               (buckets
                  (tree_calls constants.k
                     [CallAddContact 9000 (contact_at "10.0.0.1" 7) [];
                      CallRemoveContact (Some 9);
                      CallSplitBucket 9500 0]
                     three_buckets))))
         refreshIDs.
Proof.
  apply (getRefreshList_after_calls constants.k
           [CallAddContact 9000 (contact_at "10.0.0.1" 7) [];
            CallRemoveContact (Some 9);
            CallSplitBucket 9500 0]
           three_buckets constants.refreshTimeout
           (fun i => 1234567 + Z.of_nat i) 10000 1 false).
  repeat constructor; vm_compute; congruence.
Defined.

(** ** The replacement cache, entry by entry *)

(** Caching a contact that the cache of the bucket already holds moves
    it to the tail of the list: this part of the MRU discipline holds. *)
Lemma cache_contact_again k i c self cached old :
  replacement_cache self !! i = Some cached ->
  list_find_guid (guid c) cached = Some old ->
  exists rest,
    list_remove (guid c) cached = Some rest
    /\ Optimized.cache_contact k i c self
       = (Optimized.set_replacement_cache
            (<[i := rest ++ [c]]> (replacement_cache self)) self,
          Return tt).
Proof.
  intros Hi Hold.
  destruct (list_remove (guid c) cached) as [rest|] eqn:Hrest.
  2:{ apply list_remove_None, list_find_guid_None in Hrest. congruence. }
  exists rest. split; [done|].
  unfold Optimized.cache_contact, mbind, M_bind, get. simpl.
  rewrite decide_False by (by rewrite Hi).
  unfold Optimized.cache_getitem, Optimized.cache_setitem, mbind, M_bind,
    get, modify. simpl.
  rewrite Hi. cbn [mret M_ret]. rewrite Hold, Hrest. cbn [default].
  unfold Optimized.set_replacement_cache. cbn [replacement_cache tree].
  rewrite lookup_insert_eq. cbn [mret M_ret replacement_cache tree].
  by rewrite insert_insert_eq.
Qed.

(** An optimized table for [k = 2] with three buckets; the parent id is
    in the last one and the other two are full. *)
Definition two_full_buckets : OptimizedTreeRoutingTable :=
  mkOptimizedTreeRoutingTable
    (mkTreeRoutingTable (Some (2 ^ 159))
       [mkKBucket 0 (2 ^ 158)
          [contact_at "10.0.0.1" 1; contact_at "10.0.0.1" 2] 0;
        mkKBucket (2 ^ 158) (2 ^ 159)
          [contact_at "10.0.0.1" (2 ^ 158 + 1);
           contact_at "10.0.0.1" (2 ^ 158 + 2)] 0;
        mkKBucket (2 ^ 159) (2 ^ 160) [] 0])
    ∅.

(** The other half of the slip in the cap: once the dictionary has [k]
    keys, a new candidate makes [replacement_cache.pop(0)] drop the whole
    cache of bucket 0.  Here a candidate for bucket 1 drops the cached
    contact 3 of bucket 0, and a candidate for bucket 0 then raises
    [KeyError], because the list that was made for it is popped at
    once. *)
Example replacement_cache_pop_drops_bucket_0 :
  let cached_3 :=
    optimized_calls 2 [OCallAddContact 0 (contact_at "10.0.0.1" 3)]
      two_full_buckets in
  let cached_both :=
    optimized_calls 2
      [OCallAddContact 0 (contact_at "10.0.0.1" (2 ^ 158 + 3))] cached_3 in
  replacement_cache cached_3 !! 0%nat = Some [contact_at "10.0.0.1" 3]
  /\ replacement_cache cached_both !! 0%nat = None
  /\ replacement_cache cached_both !! 1%nat
     = Some [contact_at "10.0.0.1" (2 ^ 158 + 3)]
  /\ outcome_of (Optimized.addContact 2 0 (contact_at "10.0.0.1" 4) cached_both)
     = Raise KeyError.
Proof. vm_compute. done. Qed.

(** * The methods with the misspelt names put right

    The definitions below are not the source: they bind [node_id],
    [old_bucket_index] and [self.replacementCache] to what the parameter
    names and the attribute name of the source say was meant.  They show
    that the documented behaviour is what the rest of each body computes,
    so that the departures above come from the names alone. *)

Definition findCloseNodes_repaired (k : nat) (key : Guid) (count : nat)
    (nodeID : Guid) : M TreeRoutingTable (list Contact) :=
  Tree.findCloseNodes_at k (Some nodeID) key count nodeID.

Definition splitBucket_repaired (k : nat) (now : Z) (oldBucketIndex : nat)
  : M TreeRoutingTable unit :=
  Tree.splitBucket_at k (Some oldBucketIndex) now oldBucketIndex.

Definition removeContact_repaired (k : nat) (now : Z) (contactID : Guid)
  : M OptimizedTreeRoutingTable unit :=
  Optimized.removeContact_via k (gets replacement_cache) now contactID.

(** The split point of the source, [hi - (hi - lo) / 2], is the midpoint
    [lo + (hi - lo) / 2] of the spec for a range of even size, as every
    range of size above 1 cut from [[0, 2^160)] by halving is. *)
Lemma split_point_even lo hi :
  (hi - lo) mod 2 = 0 -> hi - (hi - lo) / 2 = lo + (hi - lo) / 2.
Proof.
  intros Heven. pose proof (Z.div_mod (hi - lo) 2 ltac:(lia)). lia.
Qed.

(** With the name put right, the split of a full bucket ([k = 4]) over
    the whole id space cuts it at [2^159]: the contacts from [2^159] on
    move to the new bucket in their order, the others stay, and none is
    lost or doubled. *)
Example splitBucket_repaired_example :
  let before :=
    mkTreeRoutingTable (Some (2 ^ 159))
      [mkKBucket 0 (2 ^ 160)
         [contact_at "10.0.0.1" 1; contact_at "10.0.0.1" (2 ^ 159 + 1);
          contact_at "10.0.0.1" 2; contact_at "10.0.0.1" (2 ^ 159 + 7)] 0] in
  splitBucket_repaired 4 50 0 before
  = (mkTreeRoutingTable (Some (2 ^ 159))
       [mkKBucket 0 (2 ^ 159)
          [contact_at "10.0.0.1" 1; contact_at "10.0.0.1" 2] 0;
        mkKBucket (2 ^ 159) (2 ^ 160)
          [contact_at "10.0.0.1" (2 ^ 159 + 1);
           contact_at "10.0.0.1" (2 ^ 159 + 7)] 50],
     Return tt).
Proof. vm_compute. reflexivity. Qed.

Lemma optimized_at_bucket_eq {A} i (m : M KBucket A) self b b' r :
  buckets (tree self) !! i = Some b ->
  m b = (b', r) ->
  Optimized.at_bucket i m self
  = (mkOptimizedTreeRoutingTable
       (Tree.set_buckets (<[i := b']> (buckets (tree self))) (tree self))
       (replacement_cache self), r).
Proof.
  intros Hb Hm. unfold Optimized.at_bucket, Optimized.inherited.
  by rewrite (at_bucket_eq i m (tree self) b b' r Hb Hm).
Qed.

Lemma cache_getitem_eq i self l :
  replacement_cache self !! i = Some l ->
  Optimized.cache_getitem i self = (self, Return l).
Proof.
  intros Hl. unfold Optimized.cache_getitem, mbind, M_bind, get.
  by rewrite Hl.
Qed.

(** With the attribute put right, a removal from bucket [i] takes the
    most recent candidate of the bucket from its replacement cache and
    appends it to the bucket, and leaves the bucket one contact smaller
    when it has no candidate. *)
Lemma removeContact_repaired_promotes k now contactID self i b rest :
  outcome_of (Tree.kbucketIndex contactID (tree self)) = Return i ->
  buckets (tree self) !! i = Some b ->
  list_remove contactID (contacts b) = Some rest ->
  (length rest < k)%nat ->
  (forall cached promoted,
     replacement_cache self !! i = Some (cached ++ [promoted]) ->
     list_find_guid (guid promoted) rest = None ->
     removeContact_repaired k now contactID self
     = (mkOptimizedTreeRoutingTable
          (Tree.set_buckets
             (<[i := mkKBucket (rangeMin b) (rangeMax b)
                       (rest ++ [promoted]) now]>
                (buckets (tree self))) (tree self))
          (<[i := cached]> (replacement_cache self)),
        Return tt))
  /\ (replacement_cache self !! i = None
      \/ replacement_cache self !! i = Some [] ->
      removeContact_repaired k now contactID self
      = (mkOptimizedTreeRoutingTable
           (Tree.set_buckets
              (<[i := kbucket.set_contacts rest b]> (buckets (tree self)))
              (tree self))
           (replacement_cache self),
         Return tt)).
Proof.
  destruct self as [t rc]. cbn [tree replacement_cache].
  intros Hi Hb Hrest Hroom. rewrite kbucketIndex_eq in Hi. simpl in Hi.
  set (self := mkOptimizedTreeRoutingTable t rc).
  assert (Optimized.kbucketIndex contactID self = (self, Return i)) as Hidx.
  { unfold Optimized.kbucketIndex, Optimized.inherited.
    cbn [tree replacement_cache self]. by rewrite kbucketIndex_eq, Hi. }
  assert (kbucket.removeContact contactID b
          = (kbucket.set_contacts rest b, Return tt)) as Hrm.
  { unfold kbucket.removeContact, mbind, M_bind, get. simpl. by rewrite Hrest. }
  set (self1 := mkOptimizedTreeRoutingTable
                  (Tree.set_buckets
                     (<[i := kbucket.set_contacts rest b]> (buckets t)) t)
                  rc).
  assert (removeContact_repaired k now contactID self
          = (cache ← gets replacement_cache;
             if decide (is_Some (cache !! i)) then
               cached ← Optimized.cache_getitem i;
               if decide (0 < length cached)%nat then
                 match last cached with
                 | Some promoted =>
                     Optimized.cache_setitem i
                       (take (length cached - 1) cached);;
                     Optimized.at_bucket i (kbucket.addContact k now promoted)
                 | None => raise IndexError
                 end
               else mret tt
             else mret tt) self1) as Hstep.
  { unfold removeContact_repaired, Optimized.removeContact_via.
    unfold mbind at 1, M_bind at 1. rewrite Hidx.
    unfold mbind at 1, M_bind at 1, attempt.
    rewrite (optimized_at_bucket_eq i _ self b _ (Return tt) Hb Hrm). done. }
  rewrite Hstep. clear Hstep. split.
  - intros cached promoted Hcache Hnew.
    unfold mbind at 1, M_bind at 1, gets. cbn [replacement_cache self1].
    rewrite decide_True by (by rewrite Hcache).
    unfold mbind at 1, M_bind at 1.
    rewrite (cache_getitem_eq i self1 _ Hcache).
    rewrite decide_True by (rewrite length_app; simpl; lia).
    rewrite last_snoc, length_app. cbn [length]. rewrite Nat.add_sub.
    rewrite take_app_length.
    unfold mbind at 1, M_bind at 1, Optimized.cache_setitem, modify.
    rewrite (optimized_at_bucket_eq i _ _ (kbucket.set_contacts rest b)
               (mkKBucket (rangeMin b) (rangeMax b) (rest ++ [promoted]) now)
               (Return tt)).
    + simpl. by rewrite list_insert_insert_eq.
    + simpl. apply list_lookup_insert_eq. by eapply lookup_lt_Some.
    + unfold kbucket.addContact, mbind, M_bind, get. simpl. rewrite Hnew.
      by rewrite decide_True.
  - intros Hcache.
    unfold mbind at 1, M_bind at 1, gets. cbn [replacement_cache self1].
    destruct Hcache as [Hcache|Hcache].
    + rewrite decide_False; [done|]. rewrite Hcache. by intros [? ?].
    + rewrite decide_True by (by rewrite Hcache).
      unfold mbind at 1, M_bind at 1.
      rewrite (cache_getitem_eq i self1 _ Hcache).
      by rewrite decide_False by (simpl; lia).
Qed.

(** ** [findCloseNodes] with [node_id] bound to [nodeID]

    The loop visits the bucket of the key, then the buckets one step
    away, two steps away and so on, the lower one first, and takes from
    each what is still missing to make [k] contacts. *)

(** The contacts of bucket [j] that [findCloseNodes] may return. *)
Definition candidates (exclude : Guid) (bs : list KBucket) (j : nat)
  : list Contact :=
  match bs !! j with
  | Some b => filter (fun c => ¬ has_guid exclude c) (contacts b)
  | None => []
  end.

(** The buckets [s] steps away from bucket [i], the lower one first. *)
Definition ring (i n s : nat) : list nat :=
  (if bool_decide (s <= i)%nat then [(i - s)%nat] else [])
  ++ (if bool_decide (i + s < n)%nat then [(i + s)%nat] else []).

(** The buckets up to [d] steps away from bucket [i], in the order in
    which the loop visits them. *)
Definition visited (i n d : nat) : list nat :=
  i :: flat_map (ring i n) (seq 1 d).

Lemma take_fill {A} (n : nat) (l1 l2 : list A) :
  take n l1 ++ take (n - length (take n l1)) l2 = take n (l1 ++ l2).
Proof.
  rewrite length_take. destruct (decide (length l1 <= n)%nat) as [Hle|Hgt].
  - rewrite take_app, (take_ge l1) by done. do 2 f_equal. lia.
  - rewrite take_app_le by lia.
    replace (n - n `min` length l1)%nat with 0%nat by lia.
    by rewrite take_0, app_nil_r.
Qed.

Lemma visited_S i n d :
  visited i n (S d) = visited i n d ++ ring i n (S d).
Proof.
  unfold visited. rewrite seq_S, flat_map_app. simpl.
  by rewrite app_nil_r.
Qed.

Lemma elem_of_ring i n s j :
  j ∈ ring i n s
  <-> (s <= i /\ j = i - s)%nat \/ (i + s < n /\ j = i + s)%nat.
Proof.
  unfold ring. rewrite elem_of_app.
  do 2 case_bool_decide; rewrite ?list_elem_of_singleton, ?elem_of_nil; lia.
Qed.

Lemma elem_of_visited i n d j :
  (i < n)%nat ->
  j ∈ visited i n d <-> (j < n /\ i - d <= j <= i + d)%nat.
Proof.
  intros Hi. induction d as [|d IH].
  - unfold visited. simpl. rewrite list_elem_of_singleton. lia.
  - rewrite visited_S, elem_of_app, IH, elem_of_ring. lia.
Qed.

Lemma NoDup_visited i n d : (i < n)%nat -> NoDup (visited i n d).
Proof.
  intros Hi. induction d as [|d IH].
  - unfold visited. simpl. apply NoDup_singleton.
  - rewrite visited_S. apply NoDup_app. split; [done|]. split.
    + intros j Hj Hr. apply elem_of_visited in Hj; [|done].
      apply elem_of_ring in Hr. lia.
    + unfold ring. do 2 case_bool_decide; simpl;
        repeat constructor; rewrite ?list_elem_of_singleton, ?elem_of_nil; lia.
Qed.

Lemma visited_all i n d :
  (i < n)%nat -> (i <= d)%nat -> (n <= i + d + 1)%nat ->
  visited i n d ≡ₚ seq 0 n.
Proof.
  intros Hi Hlo Hhi. apply NoDup_Permutation.
  - by apply NoDup_visited.
  - apply NoDup_seq.
  - intros j. rewrite elem_of_visited, elem_of_seq by done. lia.
Qed.

Lemma visited_le i n d d' :
  (d <= d')%nat -> exists rest, visited i n d' = visited i n d ++ rest.
Proof.
  induction 1 as [|d' Hle [rest IH]].
  - exists []. by rewrite app_nil_r.
  - exists (rest ++ ring i n (S d')). by rewrite visited_S, IH, app_assoc.
Qed.

Lemma candidates_from exclude pre bs :
  flat_map (candidates exclude (pre ++ bs)) (seq (length pre) (length bs))
  = flat_map (fun b => filter (fun c => ¬ has_guid exclude c) (contacts b)) bs.
Proof.
  revert pre. induction bs as [|b bs IH]; intros pre; [done|].
  simpl. f_equal.
  - unfold candidates. by rewrite list_lookup_middle.
  - specialize (IH (pre ++ [b])). rewrite <- app_assoc in IH. simpl in IH.
    rewrite <- IH, length_app. simpl. by rewrite Nat.add_1_r.
Qed.

Lemma candidates_all exclude bs :
  flat_map (candidates exclude bs) (seq 0 (length bs))
  = flat_map (fun b => filter (fun c => ¬ has_guid exclude c) (contacts b)) bs.
Proof. apply (candidates_from exclude [] bs). Qed.

Lemma getContacts_candidates exclude self j count :
  (j < length (buckets self))%nat ->
  Tree.at_bucket j (kbucket.getContacts count exclude) self
  = (self, Return (take count (candidates exclude (buckets self) j))).
Proof.
  intros Hj. apply lookup_lt_is_Some in Hj as [b Hb].
  unfold candidates. rewrite Hb.
  by apply (at_bucket_read j _ self b).
Qed.

(** The first [k] candidates of the buckets [ids], in that order. *)
Definition first_candidates (k : nat) (exclude : Guid) (bs : list KBucket)
    (ids : list nat) : list Contact :=
  take k (flat_map (candidates exclude bs) ids).

Lemma visit_bucket {A} k exclude self j (ids : list nat) (flag : A) :
  (j < length (buckets self))%nat ->
  (exclude0 ← read_name "node_id" (Some exclude);
   more ← Tree.at_bucket j
            (kbucket.getContacts
               (k - length (first_candidates k exclude (buckets self) ids))
               exclude0);
   mret (first_candidates k exclude (buckets self) ids ++ more, flag)) self
  = (self,
     Return (first_candidates k exclude (buckets self) (ids ++ [j]), flag)).
Proof.
  intros Hj. unfold read_name, mbind, M_bind. cbn [mret M_ret].
  rewrite getContacts_candidates by done. cbn [mret M_ret].
  unfold first_candidates. rewrite take_fill, flat_map_app. simpl.
  by rewrite app_nil_r.
Qed.

Lemma fill_closestNodes_spec k exclude self i fuel d :
  let n := length (buckets self) in
  let found d := first_candidates k exclude (buckets self) (visited i n d) in
  (i < n)%nat -> (i < fuel + S d)%nat -> (n <= i + S d + fuel)%nat ->
  exists d',
    Tree.fill_closestNodes k fuel (Some exclude) i (found d) (S d)
      (bool_decide (S d <= i)%nat) (bool_decide (i + S d < n)%nat) self
    = (self, Return (found d'))
    /\ (d <= d')%nat
    /\ ((k <= length (found d'))%nat \/ (i <= d' /\ n <= i + d' + 1)%nat).
Proof.
  intros n found Hi. revert d. induction fuel as [|fuel IH]; intros d Hlo Hhi.
  - exists d. cbn [Tree.fill_closestNodes].
    rewrite (bool_decide_eq_false_2 (S d <= i)%nat) by lia.
    rewrite (bool_decide_eq_false_2 (i + S d < n)%nat) by lia.
    rewrite andb_false_r. split; [done|]. split; [lia|]. right. lia.
  - cbn [Tree.fill_closestNodes].
    destruct (bool_decide (length (found d) < k)%nat) eqn:Hlen; cbn [andb].
    2: { exists d. split; [done|]. split; [lia|]. left.
         apply bool_decide_eq_false in Hlen. lia. }
    destruct (bool_decide (S d <= i)%nat || bool_decide (i + S d < n)%nat)
      eqn:Hflags.
    2: { exists d. split; [done|]. split; [lia|]. right.
         apply orb_false_iff in Hflags as [H1 H2].
         apply bool_decide_eq_false in H1, H2. lia. }
    destruct (IH (S d)) as (d' & Hrun & Hle & Hdone); [lia|lia|].
    exists d'. split; [|split; [lia|done]].
    rewrite <- Hrun. clear Hrun IH Hdone Hle Hflags Hlen.
    unfold mbind at 1, M_bind at 1, get.
    subst found. cbn beta. rewrite visited_S. unfold ring.
    replace (S d + 1)%nat with (S (S d)) by lia.
    replace (i + S (S d))%nat with (i + (S d + 1))%nat by lia.
    set (low := if bool_decide (S d <= i)%nat then [(i - S d)%nat] else []).
    set (high := if bool_decide (i + S d < n)%nat then [(i + S d)%nat] else []).
    match goal with |- (?lower ≫= _) self = _ =>
      assert (lower self
              = (self,
                 Return (first_candidates k exclude (buckets self)
                           (visited i n d ++ low),
                         bool_decide (S (S d) <= i)%nat))) as Hlower
    end.
    { subst low. case_bool_decide.
      - apply visit_bucket. lia.
      - rewrite app_nil_r, (bool_decide_eq_false_2 (S (S d) <= i)%nat) by lia.
        done. }
    unfold mbind at 1, M_bind at 1. rewrite Hlower. clear Hlower.
    match goal with |- (?higher ≫= _) self = _ =>
      assert (higher self
              = (self,
                 Return (first_candidates k exclude (buckets self)
                           ((visited i n d ++ low) ++ high),
                         bool_decide (i + (S d + 1) < n)%nat))) as Hhigher
    end.
    { subst high. case_bool_decide.
      - apply visit_bucket. lia.
      - rewrite app_nil_r, (bool_decide_eq_false_2 (i + (S d + 1) < n)%nat)
          by lia.
        done. }
    unfold mbind at 1, M_bind at 1. rewrite Hhigher.
    by rewrite <- app_assoc.
Qed.

(** The contacts of the buckets [bs] other than [exclude], bucket by
    bucket. *)
Definition known_contacts (exclude : Guid) (bs : list KBucket)
  : list Contact :=
  flat_map (fun b => filter (fun c => ¬ has_guid exclude c) (contacts b)) bs.

Lemma kbucketIndex_lt key self i :
  outcome_of (Tree.kbucketIndex key self) = Return i ->
  (i < length (buckets self))%nat.
Proof.
  rewrite kbucketIndex_eq. simpl. destruct key as [n|].
  - intros H. apply kbucketIndex_outcome_Return in H as [(r & Hr & _) _].
    apply lookup_lt_Some in Hr. unfold ranges in Hr.
    by rewrite length_fmap in Hr.
  - simpl. by destruct (ranges (buckets self)).
Qed.

Lemma first_candidates_visited k exclude bs i d :
  (i < length bs)%nat ->
  first_candidates k exclude bs (visited i (length bs) d)
    ⊆+ known_contacts exclude bs
  /\ ((i <= d)%nat -> (length bs <= i + d + 1)%nat ->
      flat_map (candidates exclude bs) (visited i (length bs) d)
        ≡ₚ known_contacts exclude bs).
Proof.
  intros Hi.
  assert (forall d', (i <= d')%nat -> (length bs <= i + d' + 1)%nat ->
            flat_map (candidates exclude bs) (visited i (length bs) d')
              ≡ₚ known_contacts exclude bs) as Hall.
  { intros d' Hlo Hhi. unfold known_contacts.
    rewrite <- candidates_all.
    apply Permutation_flat_map. by apply visited_all. }
  split; [|apply Hall].
  destruct (visited_le i (length bs) d (d + length bs)) as [rest Hrest];
    [lia|].
  rewrite <- (Hall (d + length bs)%nat) by lia.
  rewrite Hrest, flat_map_app. apply submseteq_inserts_r.
  apply sublist_submseteq, sublist_take.
Qed.

Theorem findCloseNodes_repaired_spec k key count nodeID self i :
  outcome_of (Tree.kbucketIndex key self) = Return i ->
  exists closestNodes,
    findCloseNodes_repaired k key count nodeID self
    = (self, Return closestNodes)
    /\ closestNodes ⊆+ known_contacts nodeID (buckets self)
    /\ length closestNodes
       = (k `min` length (known_contacts nodeID (buckets self)))%nat.
Proof.
  intros Hidx. pose proof (kbucketIndex_lt key self i Hidx) as Hi.
  rewrite kbucketIndex_eq in Hidx. simpl in Hidx.
  unfold findCloseNodes_repaired, Tree.findCloseNodes_at.
  unfold mbind at 1, M_bind at 1. rewrite kbucketIndex_eq, Hidx.
  unfold mbind at 1, M_bind at 1, get.
  unfold mbind at 1, M_bind at 1, read_name at 1. cbn [mret M_ret].
  unfold mbind at 1, M_bind at 1.
  rewrite getContacts_candidates by done.
  destruct (fill_closestNodes_spec k nodeID self i (length (buckets self)) 0)
    as (d & Hrun & _ & Hdone); [lia..|].
  replace (first_candidates k nodeID (buckets self)
             (visited i (length (buckets self)) 0))
    with (take k (candidates nodeID (buckets self) i)) in Hrun.
  2: { unfold first_candidates, visited. simpl. by rewrite app_nil_r. }
  rewrite Hrun. eexists. split; [done|].
  destruct (first_candidates_visited k nodeID (buckets self) i d Hi)
    as [Hsub Hall].
  split; [done|]. apply submseteq_length in Hsub as Hle.
  unfold first_candidates in *. rewrite length_take in *.
  destruct Hdone as [Hk|[Hlo Hhi]].
  - lia.
  - by rewrite (Permutation_length (Hall Hlo Hhi)).
Qed.

(** A table that knows fewer than [k] contacts other than the excluded
    one returns them all. *)
Corollary findCloseNodes_repaired_all k key count nodeID self i :
  outcome_of (Tree.kbucketIndex key self) = Return i ->
  (length (known_contacts nodeID (buckets self)) <= k)%nat ->
  exists closestNodes,
    findCloseNodes_repaired k key count nodeID self
    = (self, Return closestNodes)
    /\ closestNodes ≡ₚ known_contacts nodeID (buckets self).
Proof.
  intros Hidx Hfew.
  destruct (findCloseNodes_repaired_spec k key count nodeID self i Hidx)
    as (closestNodes & Hrun & Hsub & Hlen).
  exists closestNodes. split; [done|].
  apply submseteq_length_Permutation; [done|lia].
Qed.

(** ** [splitBucket] with [old_bucket_index] bound to [oldBucketIndex]

    The bucket at index [length pre] is cut at
    [rangeMax - (rangeMax - rangeMin) / 2]; its contacts from that point
    on go to a new bucket that is put right after it. *)

(** The guid of [c] decodes to an id of [[lo, hi)]. *)
Definition guid_in (lo hi : Z) (c : Contact) : Prop :=
  match guid c with
  | Some n => lo <= n < hi
  | None => False
  end.

#[global] Instance guid_in_dec lo hi c : Decision (guid_in lo hi c).
Proof. unfold guid_in. destruct (guid c); apply _. Defined.

Lemma at_bucket_middle {A} (m : M KBucket A) p pre b post b' r :
  m b = (b', r) ->
  Tree.at_bucket (length pre) m (mkTreeRoutingTable p (pre ++ b :: post))
  = (mkTreeRoutingTable p (pre ++ b' :: post), r).
Proof.
  intros Hm. unfold Tree.at_bucket. cbn [buckets].
  rewrite list_lookup_middle by done. rewrite Hm.
  unfold Tree.set_buckets. cbn [buckets parent_node_id].
  rewrite insert_app_r_alt by lia. by rewrite Nat.sub_diag.
Qed.

Lemma at_bucket_next {A} (m : M KBucket A) p pre b0 b post b' r :
  m b = (b', r) ->
  Tree.at_bucket (length pre + 1) m
    (mkTreeRoutingTable p (pre ++ b0 :: b :: post))
  = (mkTreeRoutingTable p (pre ++ b0 :: b' :: post), r).
Proof.
  intros Hm.
  pose proof (at_bucket_middle m p (pre ++ [b0]) b post b' r Hm) as H.
  rewrite length_app in H. cbn [length] in H.
  by rewrite <- !app_assoc in H.
Qed.

Lemma list_remove_middle g keep x rest :
  Forall (fun c => guid c ≠ g) keep -> guid x = g ->
  list_remove g (keep ++ x :: rest) = Some (keep ++ rest).
Proof.
  intros Hkeep Hx. induction Hkeep as [|c keep Hc _ IH]; simpl.
  - by rewrite decide_True.
  - rewrite decide_False by done. by rewrite IH.
Qed.

Section Split.
Variables (k : nat) (now : Z) (p : Guid) (pre post : list KBucket).
Variables (lo mid hi : Z).

(** The first loop of [splitBucket]: the contacts of the old bucket that
    belong to the new one are added to it in their order. *)
Lemma splitBucket_copy moved : forall old acc t,
  Forall (fun c => is_Some (guid c)) moved ->
  NoDup (guid <$> moved) ->
  Forall (fun c => guid c ∉ guid <$> acc) moved ->
  (length acc + length (filter (guid_in mid hi) moved) <= k)%nat ->
  for_each moved (fun contact =>
    inRange ← Tree.at_bucket (length pre + 1)
                (kbucket.keyInRange (guid contact));
    if inRange : bool
    then Tree.at_bucket (length pre + 1) (kbucket.addContact k now contact)
    else mret tt)
    (mkTreeRoutingTable p (pre ++ old :: mkKBucket mid hi acc t :: post))
  = (mkTreeRoutingTable p
       (pre ++ old
          :: mkKBucket mid hi (acc ++ filter (guid_in mid hi) moved)
               (match filter (guid_in mid hi) moved with
                | [] => t
                | _ => now
                end)
          :: post),
     Return tt).
Proof.
  induction moved as [|c moved IH]; intros old acc t Hsome Hnd Hnew Hroom.
  - simpl. by rewrite app_nil_r.
  - apply Forall_cons in Hsome as [[n Hn] Hsome].
    apply Forall_cons in Hnew as [Hc Hnew].
    rewrite fmap_cons in Hnd. apply NoDup_cons in Hnd as [Hcm Hnd].
    cbn [for_each]. unfold mbind at 1, M_bind at 1.
    unfold mbind at 1, M_bind at 1.
    rewrite (at_bucket_next _ p pre old (mkKBucket mid hi acc t) post
               (mkKBucket mid hi acc t)
               (Return (bool_decide (mid <= n < hi)))).
    2: { by rewrite Hn. }
    destruct (decide (guid_in mid hi c)) as [Hin|Hout].
    + rewrite filter_cons_True in * by done. cbn [length] in Hroom.
      unfold guid_in in Hin. rewrite Hn in Hin.
      rewrite bool_decide_eq_true_2 by done.
      rewrite (at_bucket_next _ p pre old (mkKBucket mid hi acc t) post
                 (mkKBucket mid hi (acc ++ [c]) now) (Return tt)).
      2: { unfold kbucket.addContact, mbind, M_bind, get. cbn [contacts].
           replace (list_find_guid (guid c) acc) with (@None Contact).
           2: { symmetry. apply list_find_guid_None, Forall_forall.
                intros x Hx Heq. apply Hc. rewrite <- Heq.
                by apply list_elem_of_fmap_2. }
           by rewrite decide_True by lia. }
      rewrite IH; [| done | done | | rewrite length_app; simpl; lia].
      * rewrite <- app_assoc. simpl.
        by destruct (filter (guid_in mid hi) moved).
      * apply Forall_forall. intros x Hx. rewrite fmap_app, elem_of_app.
        intros [Hacc|Hxc].
        -- by apply (proj1 (Forall_forall _ _) Hnew x Hx).
        -- simpl in Hxc. apply list_elem_of_singleton in Hxc.
           apply Hcm. rewrite <- Hxc. by apply list_elem_of_fmap_2.
    + rewrite filter_cons_False in * by done.
      unfold guid_in in Hout. rewrite Hn in Hout.
      rewrite bool_decide_eq_false_2 by done. cbn [mret M_ret].
      by apply IH.
Qed.

(** The second loop: the contacts of the new bucket leave the old one. *)
Lemma splitBucket_remove (P : Contact -> Prop) `{!forall c, Decision (P c)}
    new contacts0 : forall keep t,
  (forall c c', guid c = guid c' -> P c -> P c') ->
  Forall (fun c => ¬ P c) keep ->
  for_each (filter P contacts0) (fun contact =>
    Tree.at_bucket (length pre) (kbucket.removeContact (guid contact)))
    (mkTreeRoutingTable p
       (pre ++ mkKBucket lo mid (keep ++ contacts0) t :: new :: post))
  = (mkTreeRoutingTable p
       (pre ++ mkKBucket lo mid (keep ++ filter (fun c => ¬ P c) contacts0) t
          :: new :: post),
     Return tt).
Proof.
  intros keep t Hguid. revert keep.
  induction contacts0 as [|c l IH]; intros keep Hkeep; [done|].
  destruct (decide (P c)) as [Hc|Hc].
  - rewrite filter_cons_True by done.
    rewrite (filter_cons_False (fun c => ¬ P c)) by tauto.
    cbn [for_each]. unfold mbind at 1, M_bind at 1.
    rewrite (at_bucket_middle _ p pre _ _ (mkKBucket lo mid (keep ++ l) t)
               (Return tt)).
    2: { unfold kbucket.removeContact, mbind, M_bind, get. cbn [contacts].
         rewrite (list_remove_middle (guid c) keep c l); [done| |done].
         eapply Forall_impl; [exact Hkeep|]. intros x Hx Heq.
         apply Hx. by apply (Hguid c x). }
    by apply IH.
  - rewrite filter_cons_False by done.
    rewrite (filter_cons_True (fun c => ¬ P c)) by done.
    specialize (IH (keep ++ [c])). rewrite <- !app_assoc in IH. simpl in IH.
    apply IH. apply Forall_app. split; [done|]. by apply Forall_singleton.
Qed.
End Split.

Theorem splitBucket_repaired_spec k now p pre b post :
  let mid := rangeMax b - (rangeMax b - rangeMin b) / 2 in
  let upper := filter (guid_in mid (rangeMax b)) (contacts b) in
  let lower := filter (fun c => ¬ guid_in mid (rangeMax b) c) (contacts b) in
  Forall (fun c => is_Some (guid c)) (contacts b) ->
  NoDup (guid <$> contacts b) ->
  (length upper <= k)%nat ->
  splitBucket_repaired k now (length pre)
    (mkTreeRoutingTable p (pre ++ b :: post))
  = (mkTreeRoutingTable p
       (pre ++ mkKBucket (rangeMin b) mid lower (lastAccessed b)
          :: mkKBucket mid (rangeMax b) upper
               (match upper with [] => 0 | _ => now end)
          :: post),
     Return tt).
Proof.
  intros mid upper lower Hsome Hnd Hroom.
  unfold splitBucket_repaired, Tree.splitBucket_at.
  unfold mbind at 1, M_bind at 1, read_name at 1. cbn [mret M_ret].
  unfold mbind at 1, M_bind at 1.
  rewrite (at_bucket_middle get p pre b post b (Return b)) by done.
  fold mid.
  set (old := kbucket.set_rangeMax mid b).
  unfold mbind at 1, M_bind at 1.
  rewrite (at_bucket_middle _ p pre b post old (Return tt)) by done.
  unfold mbind at 1, M_bind at 1, read_name at 1. cbn [mret M_ret].
  unfold mbind at 1, M_bind at 1.
  assert (Tree.buckets_insert (length pre + 1) (kbucket.init mid (rangeMax b))
            (mkTreeRoutingTable p (pre ++ old :: post))
          = (mkTreeRoutingTable p
               (pre ++ old :: mkKBucket mid (rangeMax b) [] 0 :: post),
             Return tt)) as ->.
  { unfold Tree.buckets_insert, modify, Tree.set_buckets.
    cbn [buckets parent_node_id]. do 2 f_equal.
    replace (pre ++ old :: post) with ((pre ++ [old]) ++ post)
      by (by rewrite <- app_assoc).
    rewrite take_app_length', drop_app_length'
      by (rewrite length_app; simpl; lia).
    by rewrite <- app_assoc. }
  unfold mbind at 1, M_bind at 1.
  rewrite (at_bucket_middle (gets contacts) p pre old _ old
             (Return (contacts b))) by done.
  unfold mbind at 1, M_bind at 1.
  rewrite (splitBucket_copy k now p pre post mid (rangeMax b) (contacts b)
             old [] 0 Hsome Hnd).
  2: { apply Forall_forall. intros c _. rewrite fmap_nil. apply not_elem_of_nil. }
  2: { simpl. exact Hroom. }
  rewrite app_nil_l. fold upper.
  unfold mbind at 1, M_bind at 1.
  rewrite (at_bucket_next (gets contacts) p pre old _ post _ (Return upper))
    by done.
  pose proof (splitBucket_remove p pre post (rangeMin b) mid
                (guid_in mid (rangeMax b))
                (mkKBucket mid (rangeMax b) upper
                   match upper with [] => 0 | _ => now end)
                (contacts b) [] (lastAccessed b)) as Hremove.
  cbn [app] in Hremove. apply Hremove; [|done].
  intros c c' Heq. unfold guid_in. by rewrite Heq.
Qed.

Lemma contiguous_cons a l :
  contiguous (a :: l)
  <-> (forall b, head l = Some b -> rangeMax a = rangeMin b) /\ contiguous l.
Proof.
  unfold contiguous. split.
  - intros H. split.
    + intros b Hb. rewrite head_lookup in Hb. by apply (H 0%nat a b).
    + intros i b b' Hb Hb'. by apply (H (S i) b b').
  - intros [Hhead Htail] [|i] b b' Hb Hb'.
    + injection Hb as <-. apply Hhead. by rewrite head_lookup.
    + by apply (Htail i b b').
Qed.

Lemma contiguous_split pre b post b1 b2 :
  rangeMin b1 = rangeMin b -> rangeMax b1 = rangeMin b2 ->
  rangeMax b2 = rangeMax b ->
  contiguous (pre ++ b :: post) -> contiguous (pre ++ b1 :: b2 :: post).
Proof.
  intros Hlo Hmid Hhi. induction pre as [|a pre IH]; simpl.
  - rewrite !contiguous_cons. intros [Hnext Hpost].
    split; [|split; [|done]].
    + by intros ? [= <-].
    + intros x Hx. rewrite Hhi. by apply Hnext.
  - rewrite !contiguous_cons. intros [Hnext Hrest]. split; [|by apply IH].
    intros x Hx. destruct pre as [|a' pre]; simpl in *.
    + injection Hx as <-. rewrite Hlo. by apply Hnext.
    + by apply Hnext.
Qed.

Lemma length_indexes_from n j j' rs :
  length (indexes_from n j rs) = length (indexes_from n j' rs).
Proof.
  revert j j'. induction rs as [|r rs IH]; intros j j'; simpl; [done|].
  case_bool_decide; simpl; by rewrite (IH (S j) (S j')).
Qed.

Lemma length_indexes_from_app n j rs rs' :
  length (indexes_from n j (rs ++ rs'))
  = (length (indexes_from n 0 rs) + length (indexes_from n 0 rs'))%nat.
Proof.
  revert j. induction rs as [|r rs IH]; intros j; simpl.
  - apply length_indexes_from.
  - case_bool_decide; simpl; rewrite IH;
      by rewrite (length_indexes_from n 1%nat 0%nat).
Qed.

(** T3 by counting: every id lies in one bucket exactly when the list of
    the indexes of the buckets that contain it has length 1. *)
Lemma one_bucket_per_id_count bs :
  one_bucket_per_id bs
  <-> forall n, 0 <= n < ID_SPACE ->
        length (indexes_from n 0 (ranges bs)) = 1%nat.
Proof.
  assert (forall n i,
            kbucketIndex_outcome (Some n) (ranges bs) = Return i
            <-> (exists b, bs !! i = Some b /\ rangeMin b <= n < rangeMax b)
                /\ forall j b, bs !! j = Some b ->
                     rangeMin b <= n < rangeMax b -> j = i) as Hidx.
  { intros n i. rewrite kbucketIndex_outcome_Return. unfold ranges.
    split; intros [(r & Hr & Hn) Huniq]; (split; [|intros j r' Hr' Hn']).
    - apply list_lookup_fmap_Some in Hr as (b & -> & Hb). by exists b.
    - apply (Huniq j (range_of r')); [|done].
      by rewrite list_lookup_fmap, Hr'.
    - exists (range_of r). by rewrite list_lookup_fmap, Hr.
    - apply list_lookup_fmap_Some in Hr' as (b & -> & Hb).
      by apply (Huniq j b). }
  unfold one_bucket_per_id. split; intros H n Hn.
  - destruct (H n Hn) as [i Hi]. apply Hidx in Hi.
    unfold kbucketIndex_outcome in Hi.
    by destruct (indexes_from n 0 (ranges bs)) as [|? [|? ?]].
  - specialize (H n Hn).
    destruct (indexes_from n 0 (ranges bs)) as [|i [|? ?]] eqn:Hl; try done.
    exists i. apply Hidx. unfold kbucketIndex_outcome. by rewrite Hl.
Qed.

(** Cutting one bucket of a partition of the id space in two at a point
    of its range leaves a partition. *)
Lemma partitions_split pre b post b1 b2 :
  rangeMin b1 = rangeMin b -> rangeMax b1 = rangeMin b2 ->
  rangeMax b2 = rangeMax b ->
  rangeMin b <= rangeMin b2 <= rangeMax b ->
  partitions (pre ++ b :: post) -> partitions (pre ++ b1 :: b2 :: post).
Proof.
  intros Hlo Hmid Hhi Hin ([Hhead Hlast] & Hcont & Hone).
  split; [split|split].
  - rewrite head_app in *. destruct (head pre); [done|].
    simpl in *. congruence.
  - rewrite last_app_cons in *. rewrite last_cons_cons.
    rewrite last_cons in *. destruct (last post); [done|].
    simpl in *. congruence.
  - by apply (contiguous_split pre b).
  - apply one_bucket_per_id_count. intros n Hn.
    rewrite one_bucket_per_id_count in Hone. specialize (Hone n Hn).
    unfold ranges in *. rewrite fmap_app, length_indexes_from_app in *.
    rewrite !fmap_cons in *. cbn [indexes_from range_of fst snd] in *.
    repeat case_bool_decide; cbn [length] in *;
      rewrite (length_indexes_from n 2%nat 0%nat);
      rewrite (length_indexes_from n 1%nat 0%nat) in Hone; lia.
Qed.

(** With the name put right, a split loses and doubles no contact, cuts
    the range of the bucket in two and keeps the partition of the id
    space. *)
Corollary splitBucket_repaired_keeps k now p pre b post :
  Forall (fun c => is_Some (guid c)) (contacts b) ->
  NoDup (guid <$> contacts b) ->
  (length (contacts b) <= k)%nat ->
  rangeMin b <= rangeMax b ->
  exists lower upper,
    splitBucket_repaired k now (length pre)
      (mkTreeRoutingTable p (pre ++ b :: post))
    = (mkTreeRoutingTable p (pre ++ lower :: upper :: post), Return tt)
    /\ contacts lower ++ contacts upper ≡ₚ contacts b
    /\ rangeMin lower = rangeMin b
    /\ rangeMax lower = rangeMin upper
    /\ rangeMax upper = rangeMax b
    /\ (partitions (pre ++ b :: post)
        -> partitions (pre ++ lower :: upper :: post)).
Proof.
  intros Hsome Hnd Hroom Hrange. do 2 eexists. split.
  - apply splitBucket_repaired_spec; [done..|].
    etransitivity; [apply length_filter|done].
  - cbn [contacts rangeMin rangeMax]. split; [|split; [|split; [|split]]];
      try done.
    + rewrite Permutation_app_comm. apply filter_app_complement.
    + apply partitions_split; cbn [rangeMin rangeMax]; try done.
      pose proof (Z.div_mod (rangeMax b - rangeMin b) 2 ltac:(lia)).
      pose proof (Z.mod_pos_bound (rangeMax b - rangeMin b) 2 ltac:(lia)).
      lia.
Qed.

(** * The base class [RoutingTable] *)

Module RoutingTable.
(** [long(s, 16)] of a string of hex digits, as [encode('hex')] returns
    them: the empty string is no number ([None] stands for the
    [ValueError]). *)
Definition long16 (s : str) : option Z :=
  match s with
  | [] => None
  | _ => pystr.int16 s
  end.

(** The static method [distance(keyOne, keyTwo)]. *)
Definition distance (keyOne keyTwo : str) : Outcome Z :=
  match long16 (pystr.encode_hex keyOne) with
  | None => Raise ValueError
  | Some valKeyOne =>
      match long16 (pystr.encode_hex keyTwo) with
      | None => Raise ValueError
      | Some valKeyTwo => Return (Z.lxor valKeyOne valKeyTwo)
      end
  end.
End RoutingTable.

(** The number that the bytes of [s] spell, most significant byte
    first. *)
Definition be_value (s : str) : Z :=
  foldl (fun acc c => 256 * acc + Z.of_nat (nat_of_ascii c)) 0 s.

Lemma be_value_snoc s c :
  be_value (s ++ [c]) = 256 * be_value s + Z.of_nat (nat_of_ascii c).
Proof. unfold be_value. by rewrite foldl_app. Qed.

Lemma byte_bounded c : 0 <= Z.of_nat (nat_of_ascii c) < 256.
Proof. pose proof (nat_ascii_bounded c). lia. Qed.

Lemma be_value_bounds s : 0 <= be_value s < 256 ^ Z.of_nat (length s).
Proof.
  induction s as [|c s IH] using rev_ind; [done|].
  rewrite be_value_snoc, length_app, Nat2Z.inj_add, Z.pow_add_r by lia.
  pose proof (byte_bounded c). simpl. lia.
Qed.

Lemma int16_encode_hex s :
  pystr.int16 (pystr.encode_hex s) = Some (be_value s).
Proof.
  induction s as [|c s IH] using rev_ind; [done|].
  rewrite encode_hex_app, be_value_snoc. unfold pystr.encode_hex at 2.
  cbn [flat_map]. rewrite app_nil_r.
  pose proof (byte_bounded c) as Hc.
  set (n := Z.of_nat (nat_of_ascii c)) in *.
  change [pystr.hex_char (n / 16); pystr.hex_char (n mod 16)]
    with ([pystr.hex_char (n / 16)] ++ [pystr.hex_char (n mod 16)]).
  rewrite app_assoc, !int16_snoc, IH. cbn [mbind option_bind].
  pose proof (Z.div_mod n 16 ltac:(lia)).
  pose proof (Z.mod_pos_bound n 16 ltac:(lia)).
  assert (0 <= n / 16 < 16).
  { split; [apply Z.div_pos; lia|apply Z.div_lt_upper_bound; lia]. }
  rewrite !hex_val_hex_char by lia. cbn [mbind option_bind].
  f_equal. lia.
Qed.

Lemma long16_encode_hex s :
  RoutingTable.long16 (pystr.encode_hex s)
  = if decide (s = []) then None else Some (be_value s).
Proof.
  destruct s as [|c s]; [done|]. rewrite decide_False by done.
  rewrite <- int16_encode_hex. done.
Qed.

Lemma distance_eq keyOne keyTwo :
  RoutingTable.distance keyOne keyTwo
  = if decide (keyOne = [] \/ keyTwo = []) then Raise ValueError
    else Return (Z.lxor (be_value keyOne) (be_value keyTwo)).
Proof.
  unfold RoutingTable.distance. rewrite !long16_encode_hex.
  repeat case_decide; try done; tauto.
Qed.

Lemma be_value_inj s1 s2 :
  length s1 = length s2 -> be_value s1 = be_value s2 -> s1 = s2.
Proof.
  revert s2. induction s1 as [|c1 s1 IH] using rev_ind; intros s2 Hlen Hval.
  { destruct s2; [done|]. simpl in Hlen. lia. }
  destruct s2 as [|c2 s2 _] using rev_ind.
  { rewrite length_app in Hlen. simpl in Hlen. lia. }
  rewrite !length_app in Hlen. simpl in Hlen.
  rewrite !be_value_snoc in Hval.
  pose proof (byte_bounded c1). pose proof (byte_bounded c2).
  assert (be_value s1 = be_value s2) as Hs by lia.
  assert (nat_of_ascii c1 = nat_of_ascii c2) as Hc by lia.
  rewrite (IH s2) by (done || lia). f_equal. f_equal.
  by rewrite <- (ascii_nat_embedding c1), <- (ascii_nat_embedding c2), Hc.
Qed.

Lemma lxor_bound a b n :
  0 <= n -> 0 <= a < 2 ^ n -> 0 <= b < 2 ^ n -> 0 <= Z.lxor a b < 2 ^ n.
Proof.
  intros Hn Ha Hb.
  assert (0 <= Z.lxor a b) as Hpos by (apply Z.lxor_nonneg; split; lia).
  split; [done|].
  destruct (decide (Z.lxor a b = 0)) as [->|Hne]; [lia|].
  assert (0 < n) as Hn'.
  { destruct (decide (n = 0)) as [->|]; [|lia].
    assert (a = 0) as -> by (simpl in Ha; lia).
    assert (b = 0) as -> by (simpl in Hb; lia). done. }
  apply Z.log2_lt_pow2; [lia|].
  eapply Z.le_lt_trans; [apply Z.log2_lxor; lia|].
  apply Z.max_lub_lt.
  - destruct (decide (a = 0)) as [->|]; [simpl; lia|].
    apply Z.log2_lt_pow2; lia.
  - destruct (decide (b = 0)) as [->|]; [simpl; lia|].
    apply Z.log2_lt_pow2; lia.
Qed.

Lemma lxor_le_add a b : 0 <= a -> 0 <= b -> Z.lxor a b <= a + b.
Proof.
  intros Ha Hb. pose proof (Z.add_lxor_2land a b).
  pose proof (proj2 (Z.land_nonneg a b) (or_introl Ha)). lia.
Qed.

(** X1.  [distance] returns the exclusive or of the two keys read as numbers,
    most significant byte first; it is a number of as many bytes as the
    longer key has. *)
Theorem distance_xor keyOne keyTwo :
  keyOne ≠ [] -> keyTwo ≠ [] ->
  RoutingTable.distance keyOne keyTwo
  = Return (Z.lxor (be_value keyOne) (be_value keyTwo))
  /\ 0 <= Z.lxor (be_value keyOne) (be_value keyTwo)
       < 256 ^ Z.of_nat (length keyOne `max` length keyTwo).
Proof.
  intros H1 H2. rewrite distance_eq, decide_False by tauto. split; [done|].
  pose proof (be_value_bounds keyOne) as B1.
  pose proof (be_value_bounds keyTwo) as B2.
  set (n := Z.of_nat (length keyOne `max` length keyTwo)).
  assert (256 ^ Z.of_nat (length keyOne) <= 256 ^ n).
  { apply Z.pow_le_mono_r; lia. }
  assert (256 ^ Z.of_nat (length keyTwo) <= 256 ^ n).
  { apply Z.pow_le_mono_r; lia. }
  replace (256 ^ n) with (2 ^ (8 * n)) in *
    by (rewrite Z.pow_mul_r by lia; done).
  apply lxor_bound; lia.
Qed.

Lemma distance_xor_witness :
  RoutingTable.distance ["001"%char; "002"%char] ["003"%char]
  = Return (Z.lxor (be_value ["001"%char; "002"%char]) (be_value ["003"%char]))
  /\ 0 <= Z.lxor (be_value ["001"%char; "002"%char]) (be_value ["003"%char])
       < 256 ^ Z.of_nat (length ["001"%char; "002"%char] `max` length ["003"%char]).
Proof. apply distance_xor; discriminate. Defined.

(** X2.  [distance] raises exactly when one of the keys is the empty string,
    and then it raises [ValueError]. *)
Theorem distance_raises_iff_empty keyOne keyTwo e :
  RoutingTable.distance keyOne keyTwo = Raise e
  <-> e = ValueError /\ (keyOne = [] \/ keyTwo = []).
Proof.
  rewrite distance_eq. case_decide; split.
  - by intros [= <-].
  - by intros [-> _].
  - done.
  - tauto.
Qed.

(** X3.  The order of the keys does not matter, and two keys of the same
    length are at distance 0 exactly when they are the same key. *)
Theorem distance_symmetric_zero keyOne keyTwo :
  RoutingTable.distance keyOne keyTwo = RoutingTable.distance keyTwo keyOne
  /\ (keyOne ≠ [] -> length keyOne = length keyTwo ->
      (RoutingTable.distance keyOne keyTwo = Return 0 <-> keyOne = keyTwo)).
Proof.
  rewrite !distance_eq. split.
  - rewrite Z.lxor_comm. repeat case_decide; try done; tauto.
  - intros Hne Hlen.
    assert (keyTwo ≠ []) as Hne2.
    { intros ->. destruct keyOne; [done|]. simpl in Hlen. lia. }
    rewrite decide_False by tauto. split.
    + intros [= H]. apply Z.lxor_eq in H. by apply be_value_inj.
    + intros ->. by rewrite Z.lxor_nilpotent.
Qed.

(** X4.  The triangle inequality of the XOR metric: when [distance a b]
    and [distance b c] return, [distance a c] returns at most their
    sum. *)
Theorem distance_triangle a b c dab dbc :
  RoutingTable.distance a b = Return dab ->
  RoutingTable.distance b c = Return dbc ->
  exists dac, RoutingTable.distance a c = Return dac /\ dac <= dab + dbc.
Proof.
  rewrite !distance_eq. intros Hab Hbc.
  destruct (decide (a = [] \/ b = [])) as [|Hn1]; [done|].
  destruct (decide (b = [] \/ c = [])) as [|Hn2]; [done|].
  injection Hab as <-. injection Hbc as <-.
  rewrite decide_False by tauto. eexists. split; [done|].
  pose proof (be_value_bounds a). pose proof (be_value_bounds b).
  pose proof (be_value_bounds c).
  replace (Z.lxor (be_value a) (be_value c))
    with (Z.lxor (Z.lxor (be_value a) (be_value b))
                 (Z.lxor (be_value b) (be_value c))).
  - apply lxor_le_add; apply Z.lxor_nonneg; split; lia.
  - rewrite Z.lxor_assoc, <- (Z.lxor_assoc (be_value b)).
    by rewrite Z.lxor_nilpotent, Z.lxor_0_l.
Qed.

Lemma distance_triangle_witness :
  exists dac,
    RoutingTable.distance ["001"%char] ["003"%char] = Return dac
    /\ dac <= 3 + 1.
Proof.
  apply (distance_triangle ["001"%char] ["002"%char] ["003"%char] 3 1);
    reflexivity.
Defined.

(** * Lookups in the tree routing table *)

(** Bucket [i] of [self] is responsible for the id [n]. *)
Definition responsible (self : TreeRoutingTable) (n : Z) (i : nat) : Prop :=
  exists b, buckets self !! i = Some b /\ rangeMin b <= n < rangeMax b.

Lemma responsible_indexes self n i :
  responsible self n i <-> i ∈ indexes_from n 0 (ranges (buckets self)).
Proof.
  rewrite elem_of_indexes_from, Nat.sub_0_r. unfold responsible, ranges.
  split.
  - intros (b & Hb & Hn). split; [lia|]. exists (range_of b).
    by rewrite list_lookup_fmap, Hb.
  - intros (_ & r & Hr & Hn).
    apply list_lookup_fmap_Some in Hr as (b & -> & Hb). by exists b.
Qed.

(** X5.  [kbucketIndex] of a well-encoded id leaves the table as it is; it
    returns [i] exactly when bucket [i] is the one bucket responsible for
    the id, raises [KeyError] exactly when no bucket is, and
    [RuntimeError] exactly when two buckets are. *)
Theorem kbucketIndex_outcomes (self : TreeRoutingTable) (n : Z) :
  state_of (Tree.kbucketIndex (Some n) self) = self
  /\ (forall i,
        outcome_of (Tree.kbucketIndex (Some n) self) = Return i
        <-> responsible self n i
            /\ forall j, responsible self n j -> j = i)
  /\ (outcome_of (Tree.kbucketIndex (Some n) self) = Raise KeyError
      <-> forall j, ¬ responsible self n j)
  /\ (outcome_of (Tree.kbucketIndex (Some n) self) = Raise RuntimeError
      <-> exists i j, i ≠ j /\ responsible self n i /\ responsible self n j).
Proof.
  rewrite kbucketIndex_eq. cbn [state_of outcome_of fst snd].
  split; [done|]. unfold kbucketIndex_outcome.
  pose proof (NoDup_indexes_from n 0 (ranges (buckets self))) as Hnd.
  setoid_rewrite responsible_indexes.
  destruct (indexes_from n 0 (ranges (buckets self))) as [|i0 [|i1 l]].
  - split; [|split].
    + intros i. split; [done|]. by intros [?%elem_of_nil _].
    + split; [|done]. intros _ j. apply not_elem_of_nil.
    + split; [done|]. by intros (i & _ & _ & ?%elem_of_nil & _).
  - split; [|split].
    + intros i. rewrite list_elem_of_singleton. split.
      * intros [= ->]. split; [done|]. by intros j ->%list_elem_of_singleton.
      * by intros [-> _].
    + split; [done|]. intros H. destruct (H i0). apply list_elem_of_here.
    + split; [done|]. intros (i & j & Hne & Hi & Hj).
      apply list_elem_of_singleton in Hi, Hj. congruence.
  - apply NoDup_cons in Hnd as [Hi0 _].
    split; [|split].
    + intros i. split; [done|]. intros [_ Huniq].
      destruct Hi0. rewrite (Huniq i0), <- (Huniq i1).
      * apply list_elem_of_here.
      * apply list_elem_of_further, list_elem_of_here.
      * apply list_elem_of_here.
    + split; [done|]. intros H. destruct (H i0). apply list_elem_of_here.
    + split; [intros _|done]. exists i0, i1. split; [|split].
      * intros ->. apply Hi0, list_elem_of_here.
      * apply list_elem_of_here.
      * apply list_elem_of_further, list_elem_of_here.
Qed.

(** X6.  On a table whose buckets partition the id space, [kbucketIndex]
    returns for every id of the id space: the index of the bucket whose
    range contains the id. *)
Theorem kbucketIndex_of_partition (self : TreeRoutingTable) (n : Z) :
  partitions (buckets self) -> 0 <= n < ID_SPACE ->
  exists i b,
    Tree.kbucketIndex (Some n) self = (self, Return i)
    /\ buckets self !! i = Some b
    /\ rangeMin b <= n < rangeMax b.
Proof.
  intros (_ & _ & Hone) Hn.
  destruct (Hone n Hn) as (i & (b & Hb & Hin) & Huniq).
  exists i, b. split; [|done]. rewrite kbucketIndex_eq. f_equal.
  apply kbucketIndex_outcome_Return. unfold ranges. split.
  - exists (range_of b). by rewrite list_lookup_fmap, Hb.
  - intros j r Hr Hnr.
    apply list_lookup_fmap_Some in Hr as (b' & -> & Hb').
    by apply (Huniq j b').
Qed.

Lemma three_buckets_partition : partitions (buckets three_buckets).
Proof.
  apply (partitions_split [] (mkKBucket 0 (2 ^ 159) [] 0)
           [mkKBucket (2 ^ 159) (2 ^ 160) [] 10000]); try done.
  apply (partitions_split [] (mkKBucket 0 (2 ^ 160) [] 0) []); try done.
  apply (init_partitions None).
Qed.

Lemma kbucketIndex_of_partition_witness :
  exists i b,
    Tree.kbucketIndex (Some (2 ^ 159 + 5)) three_buckets
    = (three_buckets, Return i)
    /\ buckets three_buckets !! i = Some b
    /\ rangeMin b <= 2 ^ 159 + 5 < rangeMax b.
Proof.
  apply kbucketIndex_of_partition.
  - apply three_buckets_partition.
  - vm_compute. split; congruence.
Defined.

(** ** [addContact], [getContact] and [removeContact] *)

Lemma getContact_eq g self :
  Tree.getContact g self
  = (self,
     match kbucketIndex_outcome g (ranges (buckets self)) with
     | Return i =>
         match buckets self !! i with
         | Some b => Return (list_find_guid g (contacts b))
         | None => Raise IndexError
         end
     | Raise e => Raise e
     end).
Proof.
  unfold Tree.getContact, mbind, M_bind. rewrite kbucketIndex_eq.
  destruct (kbucketIndex_outcome g (ranges (buckets self))) as [i|e]; [|done].
  unfold Tree.at_bucket. destruct (buckets self !! i) as [b|] eqn:Hb; [|done].
  unfold kbucket.getContact, mbind, M_bind, get. cbn [mret M_ret].
  by rewrite list_insert_id, set_buckets_id.
Qed.

Lemma list_find_guid_snoc g l c :
  list_find_guid g (l ++ [c])
  = match list_find_guid g l with
    | Some x => Some x
    | None => if decide (guid c = g) then Some c else None
    end.
Proof.
  unfold list_find_guid. induction l as [|x l IH]; simpl.
  - unfold has_guid. by destruct (decide (guid c = g)).
  - destruct (decide (has_guid g x)); [done|].
    rewrite <- !option_fmap_compose in *. simpl.
    destruct (list_find (has_guid g) l) as [[j y]|] eqn:Hl;
      destruct (list_find (has_guid g) (l ++ [c])) as [[j' y']|] eqn:Hl';
      simpl in *; try done; by destruct (decide (guid c = g)).
Qed.

(** The lookups in a table whose bucket [i] was replaced by [b']:
    [g] is looked up in [b'] when it belongs to bucket [i]. *)
Lemma getContact_insert g self i b b' :
  buckets self !! i = Some b -> range_of b' = range_of b ->
  (outcome_of (Tree.kbucketIndex g self) = Return i ->
   list_find_guid g (contacts b') = list_find_guid g (contacts b)) ->
  outcome_of (Tree.getContact g
                (Tree.set_buckets (<[i := b']> (buckets self)) self))
  = outcome_of (Tree.getContact g self).
Proof.
  intros Hb Hr Hsame. rewrite !getContact_eq. cbn [outcome_of snd].
  rewrite kbucketIndex_eq in Hsame. cbn [outcome_of snd] in Hsame.
  cbn [buckets Tree.set_buckets]. rewrite (ranges_insert _ _ b) by done.
  destruct (kbucketIndex_outcome g (ranges (buckets self))) as [j|e]; [|done].
  destruct (decide (j = i)) as [->|Hne].
  - rewrite list_lookup_insert_eq by (by eapply lookup_lt_Some).
    rewrite Hb. by rewrite Hsame.
  - by rewrite list_lookup_insert_ne.
Qed.

(** X7.  After [addContact] of a contact with a new guid whose bucket has
    room, [getContact] of its guid returns the contact, and the lookup of
    every other guid answers as before. *)
Theorem addContact_then_getContact (k : nat) now c pings self i b :
  guid c ≠ parent_node_id self ->
  outcome_of (Tree.kbucketIndex (guid c) self) = Return i ->
  buckets self !! i = Some b ->
  list_find_guid (guid c) (contacts b) = None ->
  (length (contacts b) < k)%nat ->
  outcome_of (Tree.addContact k now c pings self) = Return tt
  /\ outcome_of
       (Tree.getContact (guid c)
          (state_of (Tree.addContact k now c pings self)))
     = Return (Some c)
  /\ forall g, g ≠ guid c ->
       outcome_of
         (Tree.getContact g (state_of (Tree.addContact k now c pings self)))
       = outcome_of (Tree.getContact g self).
Proof.
  intros Hc Hi Hb Hnew Hroom. unfold Tree.addContact, Tree.addContact_at.
  rewrite (addContact_rec_room k now c self i b Hc Hi Hb Hnew _ _ _ Hroom).
  cbn [state_of outcome_of fst snd]. split; [done|].
  set (b' := mkKBucket (rangeMin b) (rangeMax b) (contacts b ++ [c]) now).
  split.
  - rewrite getContact_eq. cbn [snd buckets Tree.set_buckets].
    rewrite (ranges_insert _ _ b) by done.
    rewrite kbucketIndex_eq in Hi. cbn [outcome_of snd] in Hi. rewrite Hi.
    rewrite list_lookup_insert_eq by (by eapply lookup_lt_Some).
    cbn [contacts b']. rewrite list_find_guid_snoc, Hnew.
    by rewrite decide_True.
  - intros g Hg. apply (getContact_insert g self i b b' Hb); [done|].
    intros _. cbn [contacts b']. rewrite list_find_guid_snoc.
    destruct (list_find_guid g (contacts b)); [done|].
    by rewrite decide_False.
Qed.

Lemma addContact_then_getContact_witness :
  outcome_of (Tree.addContact 2 100 (contact_at "10.0.0.1" (2 ^ 159 + 3)) []
                example_table)
  = Return tt
  /\ outcome_of
       (Tree.getContact (guid (contact_at "10.0.0.1" (2 ^ 159 + 3)))
          (state_of (Tree.addContact 2 100 (contact_at "10.0.0.1" (2 ^ 159 + 3))
                       [] example_table)))
     = Return (Some (contact_at "10.0.0.1" (2 ^ 159 + 3)))
  /\ forall g, g ≠ guid (contact_at "10.0.0.1" (2 ^ 159 + 3)) ->
       outcome_of
         (Tree.getContact g
            (state_of (Tree.addContact 2 100
                         (contact_at "10.0.0.1" (2 ^ 159 + 3)) []
                         example_table)))
       = outcome_of (Tree.getContact g example_table).
Proof.
  apply (addContact_then_getContact 2 100 (contact_at "10.0.0.1" (2 ^ 159 + 3))
           [] example_table 1 (mkKBucket (2 ^ 159) (2 ^ 160) [] 0)).
  - vm_compute. congruence.
  - vm_compute. reflexivity.
  - reflexivity.
  - reflexivity.
  - simpl. lia.
Defined.

(** X8.  [addContact] of a contact whose guid the bucket already holds
    changes nothing: the stored contact keeps its address and its place
    in the bucket, and the bucket its time of last access. *)
Theorem addContact_known_guid (k : nat) now c pings self i b old :
  guid c ≠ parent_node_id self ->
  outcome_of (Tree.kbucketIndex (guid c) self) = Return i ->
  buckets self !! i = Some b ->
  list_find_guid (guid c) (contacts b) = Some old ->
  Tree.addContact k now c pings self = (self, Return tt).
Proof.
  intros Hc Hi Hb Hold. rewrite kbucketIndex_eq in Hi. simpl in Hi.
  unfold Tree.addContact, Tree.addContact_at. cbn [Tree.addContact_rec].
  unfold mbind at 1, M_bind at 1, get at 1.
  rewrite decide_False by done.
  unfold mbind at 1, M_bind at 1. rewrite kbucketIndex_eq, Hi.
  unfold mbind at 1, M_bind at 1.
  rewrite (at_bucket_read i _ self b (Return (Some old)) Hb); [done|].
  unfold kbucket.getContact, mbind, M_bind, get. simpl. by rewrite Hold.
Qed.

Lemma addContact_known_guid_witness :
  Tree.addContact 2 100 (contact_at "10.9.9.9" 2) [] example_table
  = (example_table, Return tt).
Proof.
  apply (addContact_known_guid 2 100 (contact_at "10.9.9.9" 2) [] example_table
           0 (mkKBucket 0 (2 ^ 159) [example_contact 1; example_contact 2] 0)
           (example_contact 2)).
  - vm_compute. congruence.
  - vm_compute. reflexivity.
  - reflexivity.
  - reflexivity.
Defined.

(** X9.  [addContact] of a new contact whose bucket is full and contains the
    parent id raises the [NameError] of [splitBucket] and stores nothing:
    the table is left as it was. *)
Theorem addContact_full_bucket_of_parent (k : nat) now c pings self i b pn :
  guid c ≠ parent_node_id self ->
  parent_node_id self = Some pn ->
  outcome_of (Tree.kbucketIndex (guid c) self) = Return i ->
  buckets self !! i = Some b ->
  list_find_guid (guid c) (contacts b) = None ->
  (k <= length (contacts b))%nat ->
  rangeMin b <= pn < rangeMax b ->
  Tree.addContact k now c pings self
  = (self, Raise (NameError "old_bucket_index")).
Proof.
  intros Hc Hp Hi Hb Hnew Hfull Hin. rewrite kbucketIndex_eq in Hi. simpl in Hi.
  unfold Tree.addContact, Tree.addContact_at. cbn [Tree.addContact_rec].
  unfold mbind at 1, M_bind at 1, get at 1.
  rewrite decide_False by done.
  unfold mbind at 1, M_bind at 1. rewrite kbucketIndex_eq, Hi.
  unfold mbind at 1, M_bind at 1.
  rewrite (at_bucket_read i _ self b (Return None) Hb).
  2:{ unfold kbucket.getContact, mbind, M_bind, get. simpl. by rewrite Hnew. }
  unfold try_except at 1.
  rewrite (at_bucket_read i _ self b (Raise BucketFull) Hb).
  2:{ unfold kbucket.addContact, mbind, M_bind, get. simpl. rewrite Hnew.
      destruct (decide (length (contacts b) < k)%nat); [lia|done]. }
  unfold mbind at 1, M_bind at 1.
  rewrite (at_bucket_read i _ self b (Return true) Hb); [done|].
  rewrite Hp. unfold kbucket.keyInRange, mbind, M_bind, get. simpl.
  by rewrite bool_decide_eq_true_2.
Qed.

Lemma addContact_full_bucket_of_parent_witness :
  Tree.addContact 2 100 (contact_at "10.0.0.1" 3) []
    (mkTreeRoutingTable (Some 7)
       [mkKBucket 0 (2 ^ 160) [example_contact 1; example_contact 2] 0])
  = (mkTreeRoutingTable (Some 7)
       [mkKBucket 0 (2 ^ 160) [example_contact 1; example_contact 2] 0],
     Raise (NameError "old_bucket_index")).
Proof.
  apply (addContact_full_bucket_of_parent 2 100 (contact_at "10.0.0.1" 3) []
           (mkTreeRoutingTable (Some 7)
              [mkKBucket 0 (2 ^ 160) [example_contact 1; example_contact 2] 0])
           0 (mkKBucket 0 (2 ^ 160) [example_contact 1; example_contact 2] 0)
           7).
  - vm_compute. congruence.
  - reflexivity.
  - vm_compute. reflexivity.
  - reflexivity.
  - reflexivity.
  - simpl. lia.
  - vm_compute. split; congruence.
Defined.

Lemma list_find_guid_cons g c l :
  list_find_guid g (c :: l)
  = if decide (guid c = g) then Some c else list_find_guid g l.
Proof.
  unfold list_find_guid. simpl. unfold has_guid at 1.
  destruct (decide (guid c = g)); [done|].
  rewrite <- option_fmap_compose.
  by destruct (list_find (has_guid g) l) as [[j y]|].
Qed.

Lemma list_find_guid_remove_ne g g' l l' :
  g' ≠ g -> list_remove g l = Some l' ->
  list_find_guid g' l' = list_find_guid g' l.
Proof.
  intros Hne. revert l'. induction l as [|x l IH]; intros l'; simpl; [done|].
  destruct (decide (has_guid g x)) as [Hx|Hx].
  - intros [= <-]. rewrite list_find_guid_cons.
    rewrite decide_False; [done|]. unfold has_guid in Hx. congruence.
  - destruct (list_remove g l) as [r|]; [|done]. intros [= <-].
    rewrite !list_find_guid_cons. by rewrite (IH r).
Qed.

Lemma list_find_guid_remove_eq g l l' :
  NoDup (guid <$> l) -> list_remove g l = Some l' ->
  list_find_guid g l' = None.
Proof.
  revert l'. induction l as [|x l IH]; intros l' Hnd; simpl; [done|].
  rewrite fmap_cons in Hnd. apply NoDup_cons in Hnd as [Hx Hnd].
  destruct (decide (has_guid g x)) as [Hg|Hg].
  - intros [= <-]. apply list_find_guid_None, Forall_forall.
    intros y Hy Heq. apply Hx. unfold has_guid in Hg. rewrite Hg, <- Heq.
    by apply list_elem_of_fmap_2.
  - destruct (list_remove g l) as [r|]; [|done]. intros [= <-].
    rewrite list_find_guid_cons, decide_False by done. by apply IH.
Qed.

Lemma tree_removeContact_eq g self i b :
  outcome_of (Tree.kbucketIndex g self) = Return i ->
  buckets self !! i = Some b ->
  Tree.removeContact g self
  = (match list_remove g (contacts b) with
     | Some l =>
         Tree.set_buckets
           (<[i := kbucket.set_contacts l b]> (buckets self)) self
     | None => self
     end, Return tt).
Proof.
  intros Hi Hb. rewrite kbucketIndex_eq in Hi. simpl in Hi.
  unfold Tree.removeContact, mbind, M_bind. rewrite kbucketIndex_eq, Hi.
  unfold try_except.
  destruct (list_remove g (contacts b)) as [l|] eqn:Hl.
  - rewrite (at_bucket_eq i _ self b (kbucket.set_contacts l b) (Return tt) Hb);
      [done|].
    unfold kbucket.removeContact, mbind, M_bind, get. simpl. by rewrite Hl.
  - rewrite (at_bucket_read i _ self b (Raise ValueError) Hb); [done|].
    unfold kbucket.removeContact, mbind, M_bind, get. simpl. by rewrite Hl.
Qed.

(** X10.  After [removeContact] of an id from a bucket that holds no guid
    twice, [getContact] of the id finds nothing, and the lookup of every
    other guid answers as before. *)
Theorem removeContact_then_getContact g self i b :
  outcome_of (Tree.kbucketIndex g self) = Return i ->
  buckets self !! i = Some b ->
  NoDup (guid <$> contacts b) ->
  outcome_of (Tree.removeContact g self) = Return tt
  /\ outcome_of (Tree.getContact g (state_of (Tree.removeContact g self)))
     = Return None
  /\ forall g', g' ≠ g ->
       outcome_of (Tree.getContact g' (state_of (Tree.removeContact g self)))
       = outcome_of (Tree.getContact g' self).
Proof.
  intros Hi Hb Hnd. rewrite (tree_removeContact_eq g self i b Hi Hb).
  cbn [state_of outcome_of fst snd]. split; [done|].
  pose proof Hi as Hi'. rewrite kbucketIndex_eq in Hi'. simpl in Hi'.
  destruct (list_remove g (contacts b)) as [l|] eqn:Hl.
  - split.
    + rewrite getContact_eq. cbn [snd buckets Tree.set_buckets].
      rewrite (ranges_insert _ _ b), Hi' by done.
      rewrite list_lookup_insert_eq by (by eapply lookup_lt_Some).
      cbn [contacts kbucket.set_contacts].
      by rewrite (list_find_guid_remove_eq g (contacts b) l).
    + intros g' Hne.
      apply (getContact_insert g' self i b (kbucket.set_contacts l b) Hb);
        [done|].
      intros _. cbn [contacts kbucket.set_contacts].
      by apply (list_find_guid_remove_ne g).
  - split; [|done]. rewrite getContact_eq. cbn [outcome_of snd].
    rewrite Hi', Hb. f_equal. apply list_find_guid_None.
    by apply list_remove_None.
Qed.

Lemma removeContact_then_getContact_witness :
  outcome_of (Tree.removeContact (Some 1) example_table) = Return tt
  /\ outcome_of (Tree.getContact (Some 1)
                   (state_of (Tree.removeContact (Some 1) example_table)))
     = Return None
  /\ forall g', g' ≠ Some 1 ->
       outcome_of (Tree.getContact g'
                     (state_of (Tree.removeContact (Some 1) example_table)))
       = outcome_of (Tree.getContact g' example_table).
Proof.
  apply (removeContact_then_getContact (Some 1) example_table 0
           (mkKBucket 0 (2 ^ 159) [example_contact 1; example_contact 2] 0)).
  - vm_compute. reflexivity.
  - reflexivity.
  - simpl. apply NoDup_cons. split; [|apply NoDup_singleton].
    rewrite list_elem_of_singleton. discriminate.
Defined.

(** X11.  [removeContact] raises only what [kbucketIndex] raises: a contact
    that the bucket does not hold is no error, and then the table is left
    as it was. *)
Theorem removeContact_missing_is_no_error g self :
  outcome_of (Tree.removeContact g self)
  = match outcome_of (Tree.kbucketIndex g self) with
    | Return _ => Return tt
    | Raise e => Raise e
    end
  /\ forall i b,
       outcome_of (Tree.kbucketIndex g self) = Return i ->
       buckets self !! i = Some b ->
       list_find_guid g (contacts b) = None ->
       state_of (Tree.removeContact g self) = self.
Proof.
  split.
  - destruct (outcome_of (Tree.kbucketIndex g self)) as [i|e] eqn:Hi.
    + pose proof (kbucketIndex_lt g self i Hi) as Hlt.
      apply lookup_lt_is_Some in Hlt as [b Hb].
      by rewrite (tree_removeContact_eq g self i b Hi Hb).
    + rewrite kbucketIndex_eq in Hi. simpl in Hi.
      unfold Tree.removeContact, mbind, M_bind.
      by rewrite kbucketIndex_eq, Hi.
  - intros i b Hi Hb Hnone. rewrite (tree_removeContact_eq g self i b Hi Hb).
    apply list_find_guid_None, list_remove_None in Hnone. by rewrite Hnone.
Qed.

(** X12.  [removeContact] undoes [addContact]: after a contact with a new guid
    is added to a bucket with room and removed again, the bucket holds
    the contacts it held before, in their order; only its time of last
    access is that of the addition. *)
Theorem addContact_then_removeContact (k : nat) now c pings self i b :
  guid c ≠ parent_node_id self ->
  outcome_of (Tree.kbucketIndex (guid c) self) = Return i ->
  buckets self !! i = Some b ->
  list_find_guid (guid c) (contacts b) = None ->
  (length (contacts b) < k)%nat ->
  Tree.removeContact (guid c) (state_of (Tree.addContact k now c pings self))
  = (Tree.set_buckets
       (<[i := kbucket.set_lastAccessed now b]> (buckets self)) self,
     Return tt).
Proof.
  intros Hc Hi Hb Hnew Hroom. unfold Tree.addContact, Tree.addContact_at.
  rewrite (addContact_rec_room k now c self i b Hc Hi Hb Hnew _ _ _ Hroom).
  cbn [state_of fst].
  set (b' := mkKBucket (rangeMin b) (rangeMax b) (contacts b ++ [c]) now).
  rewrite (tree_removeContact_eq (guid c) _ i b').
  - cbn [contacts b']. apply list_find_guid_None in Hnew.
    pose proof (list_remove_middle (guid c) (contacts b) c [] Hnew eq_refl)
      as Hrm.
    rewrite Hrm, app_nil_r. cbn [buckets Tree.set_buckets parent_node_id].
    by rewrite list_insert_insert_eq.
  - rewrite kbucketIndex_eq in *. cbn [outcome_of snd] in *.
    cbn [buckets Tree.set_buckets]. by rewrite (ranges_insert _ _ b).
  - cbn [buckets Tree.set_buckets]. apply list_lookup_insert_eq.
    by eapply lookup_lt_Some.
Qed.

Lemma addContact_then_removeContact_witness :
  Tree.removeContact (guid (contact_at "10.0.0.1" (2 ^ 159 + 3)))
    (state_of (Tree.addContact 2 100 (contact_at "10.0.0.1" (2 ^ 159 + 3)) []
                 example_table))
  = (Tree.set_buckets
       (<[1%nat := kbucket.set_lastAccessed 100
                     (mkKBucket (2 ^ 159) (2 ^ 160) [] 0)]>
          (buckets example_table)) example_table,
     Return tt).
Proof.
  apply (addContact_then_removeContact 2 100
           (contact_at "10.0.0.1" (2 ^ 159 + 3)) [] example_table 1
           (mkKBucket (2 ^ 159) (2 ^ 160) [] 0)).
  - vm_compute. congruence.
  - vm_compute. reflexivity.
  - reflexivity.
  - reflexivity.
  - simpl. lia.
Defined.

(** * Well-formed buckets *)

Lemma list_remove_Permutation g l l' :
  list_remove g l = Some l' ->
  exists x, list_find_guid g l = Some x /\ l ≡ₚ x :: l'.
Proof.
  revert l'. induction l as [|y l IH]; intros l'; simpl; [done|].
  rewrite list_find_guid_cons. unfold has_guid.
  destruct (decide (guid y = g)) as [Hy|Hy].
  - intros [= <-]. by exists y.
  - destruct (list_remove g l) as [r|]; [|done]. intros [= <-].
    destruct (IH r eq_refl) as (x & Hx & Hperm). exists x. split; [done|].
    rewrite Hperm. apply perm_swap.
Qed.

Section Wellformed.
Variable k : nat.

(** A bucket is well formed when it holds at most [k] contacts, no two
    of them with the same guid, and each with an id of its range. *)
Definition bucket_ok (b : KBucket) : Prop :=
  (length (contacts b) <= k)%nat
  /\ NoDup (guid <$> contacts b)
  /\ Forall (guid_in (rangeMin b) (rangeMax b)) (contacts b).

Lemma bucket_ok_Permutation lo hi l l' t t' :
  l' ≡ₚ l -> bucket_ok (mkKBucket lo hi l t) ->
  bucket_ok (mkKBucket lo hi l' t').
Proof.
  intros Hperm (Hlen & Hnd & Hin). unfold bucket_ok in *. simpl in *.
  by rewrite Hperm.
Qed.

Lemma bucket_ok_remove b x l :
  contacts b ≡ₚ x :: l -> bucket_ok b -> bucket_ok (kbucket.set_contacts l b).
Proof.
  intros Hperm (Hlen & Hnd & Hin). unfold bucket_ok. simpl.
  rewrite Hperm in Hlen, Hnd, Hin. simpl in Hlen.
  rewrite fmap_cons in Hnd. apply NoDup_cons in Hnd as [_ Hnd].
  apply Forall_cons in Hin as [_ Hin]. split; [lia|done].
Qed.

Lemma kbucket_removeContact_ok g b :
  bucket_ok b ->
  bucket_ok (state_of (kbucket.removeContact g b))
  /\ range_of (state_of (kbucket.removeContact g b)) = range_of b.
Proof.
  intros Hb. unfold kbucket.removeContact, mbind, M_bind, get.
  destruct (list_remove g (contacts b)) as [l|] eqn:Hl; [|done].
  split; [|done]. cbn [state_of put fst].
  destruct (list_remove_Permutation _ _ _ Hl) as (x & _ & Hperm).
  by apply (bucket_ok_remove b x).
Qed.

Lemma kbucket_addContact_ok now c b :
  guid_in (rangeMin b) (rangeMax b) c ->
  bucket_ok b ->
  bucket_ok (state_of (kbucket.addContact k now c b))
  /\ range_of (state_of (kbucket.addContact k now c b)) = range_of b.
Proof.
  intros Hc Hb. unfold kbucket.addContact, mbind, M_bind, get.
  destruct (list_find_guid (guid c) (contacts b)) as [existing|] eqn:Hfind.
  - split; [|done]. cbn [state_of put fst].
    destruct (list_remove (guid c) (contacts b)) as [l|] eqn:Hl.
    + destruct (list_remove_Permutation _ _ _ Hl) as (x & Hx & Hperm).
      assert (x = existing) as -> by congruence.
      destruct b as [lo hi cs t]. cbn [contacts] in *.
      apply (bucket_ok_Permutation lo hi cs (l ++ [existing]) t now);
        [|done].
      etransitivity; [apply Permutation_app_comm|]. symmetry. exact Hperm.
    + apply list_remove_None, list_find_guid_None in Hl. congruence.
  - destruct (decide (length (contacts b) < k)%nat) as [Hroom|]; [|done].
    split; [|done]. cbn [state_of put fst].
    destruct Hb as (Hlen & Hnd & Hin). unfold bucket_ok. simpl.
    rewrite length_app, fmap_app. simpl. split; [lia|]. split.
    + apply NoDup_app. split; [done|]. split; [|apply NoDup_singleton].
      intros g Hg ->%list_elem_of_singleton.
      apply list_elem_of_fmap in Hg as (y & Hy & Hyin).
      apply list_find_guid_None in Hfind.
      by apply (proj1 (Forall_forall _ _) Hfind y).
    + apply Forall_app. split; [done|]. by apply Forall_singleton.
Qed.

End Wellformed.

(** The bucket methods keep the range of the bucket. *)
Lemma kbucket_removeContact_range g b :
  range_of (state_of (kbucket.removeContact g b)) = range_of b.
Proof.
  unfold kbucket.removeContact, mbind, M_bind, get.
  by destruct (list_remove g (contacts b)).
Qed.

Lemma kbucket_addContact_range k now c b :
  range_of (state_of (kbucket.addContact k now c b)) = range_of b.
Proof.
  unfold kbucket.addContact, mbind, M_bind, get.
  destruct (list_find_guid (guid c) (contacts b)); [done|].
  by destruct (decide (length (contacts b) < k)%nat).
Qed.

(** Invariants of the tables, for a property [J] of buckets that the
    bucket methods keep: [J] is well-formedness below, or no condition
    at all. *)
Section TableInvariant.
Variable k : nat.
Variable J : KBucket -> Prop.
Hypothesis J_removeContact :
  forall g b, J b -> J (state_of (kbucket.removeContact g b)).
Hypothesis J_addContact :
  forall now c b, guid_in (rangeMin b) (rangeMax b) c -> J b ->
    J (state_of (kbucket.addContact k now c b)).
Hypothesis J_touch : forall t b, J b -> J (kbucket.set_lastAccessed t b).

(** The invariant of a table: its parent id is [p], its buckets have
    the ranges [rs] and satisfy [J]. *)
Definition tree_ok (rs : list (Z * Z)) (p : Guid) (self : TreeRoutingTable)
  : Prop :=
  parent_node_id self = p
  /\ ranges (buckets self) = rs
  /\ Forall J (buckets self).

(** Bucket [i] is responsible for the guid [g]. *)
Definition belongs (rs : list (Z * Z)) (g : Guid) (i : nat) : Prop :=
  exists n r, g = Some n /\ rs !! i = Some r /\ r.1 <= n < r.2.

Lemma at_bucket_ok {A} rs p i (m : M KBucket A) :
  (forall b, rs !! i = Some (range_of b) -> J b ->
     J (state_of (m b)) /\ range_of (state_of (m b)) = range_of b) ->
  keeps (tree_ok rs p) (Tree.at_bucket i m).
Proof.
  intros Hm self (Hp & Hr & Hok). unfold Tree.at_bucket.
  destruct (buckets self !! i) as [b|] eqn:Hb; [|done].
  assert (rs !! i = Some (range_of b)) as Hri.
  { rewrite <- Hr. unfold ranges. by rewrite list_lookup_fmap, Hb. }
  destruct (Hm b Hri) as [Hb' Hr'].
  { by apply (proj1 (Forall_lookup _ _) Hok i b). }
  assert (tree_ok rs p
            (Tree.set_buckets (<[i:=state_of (m b)]> (buckets self)) self))
    as H.
  { split; [done|]. split; simpl.
    - by rewrite (ranges_insert _ _ b).
    - by apply Forall_insert. }
  unfold state_of in H. by destruct (m b) as [b' [a|e]].
Qed.

Lemma at_bucket_read_ok {A} rs p i (m : M KBucket A) :
  (forall b, state_of (m b) = b) -> keeps (tree_ok rs p) (Tree.at_bucket i m).
Proof. intros Hm. apply at_bucket_ok. intros b _ Hb. by rewrite Hm. Qed.

Lemma kbucketIndex_ok rs p g :
  triple (tree_ok rs p) (Tree.kbucketIndex g)
    (fun i s => tree_ok rs p s /\ belongs rs g i) (tree_ok rs p).
Proof.
  intros self Hs. rewrite kbucketIndex_eq.
  destruct (kbucketIndex_outcome g (ranges (buckets self))) as [i|e] eqn:Hi;
    [|done].
  split; [done|]. destruct g as [n|].
  - apply kbucketIndex_outcome_Return in Hi as [(r & Hr & Hn) _].
    exists n, r. destruct Hs as (_ & <- & _). done.
  - simpl in Hi. by destruct (ranges (buckets self)).
Qed.

Lemma tree_removeContact_ok rs p g :
  keeps (tree_ok rs p) (Tree.removeContact g).
Proof.
  eapply keeps_bind_fact; [apply kbucketIndex_ok|]. intros i _.
  apply keeps_try_except.
  - apply at_bucket_ok. intros b _ Hb.
    split; [by apply J_removeContact|apply kbucket_removeContact_range].
  - intros [] h [= <-]. apply keeps_ret.
Qed.

Lemma tree_touchKBucket_ok rs p now g :
  keeps (tree_ok rs p) (Tree.touchKBucket now g).
Proof.
  eapply keeps_bind_fact; [apply kbucketIndex_ok|]. intros i _.
  apply at_bucket_ok. intros b _ Hb. split; [by apply J_touch|done].
Qed.

Lemma tree_add_at_bucket_ok rs p now c i :
  belongs rs (guid c) i ->
  keeps (tree_ok rs p) (Tree.at_bucket i (kbucket.addContact k now c)).
Proof.
  intros (n & r & Hg & Hr & Hn). apply at_bucket_ok. intros b Hb Hok.
  split; [|apply kbucket_addContact_range]. apply J_addContact; [|done].
  unfold guid_in. rewrite Hg. rewrite Hr in Hb. by injection Hb as ->.
Qed.

Lemma tree_addContact_rec_ok rs p tn fuel now c pings :
  keeps (tree_ok rs p) (Tree.addContact_rec k tn fuel now c pings).
Proof.
  revert pings. induction fuel as [|fuel IH]; intros pings; simpl.
  { apply keeps_raise. }
  apply keeps_get_bind. intros self _.
  destruct (decide (guid c = parent_node_id self)); [apply keeps_ret|].
  eapply keeps_bind_fact; [apply kbucketIndex_ok|]. intros i Hi.
  apply keeps_bind.
  { by apply at_bucket_read_ok. }
  intros [known|]; [apply keeps_ret|].
  apply keeps_try_except; [by apply tree_add_at_bucket_ok|].
  intros [] h [= <-].
  apply keeps_bind.
  { apply at_bucket_read_ok. intros b. by destruct (parent_node_id self). }
  intros [|].
  - apply keeps_bind; [apply keeps_raise|]. intros _. apply IH.
  - apply keeps_bind.
    { apply at_bucket_read_ok. intros b.
      unfold kbucket.contacts_getitem, mbind, M_bind, get. simpl.
      by destruct (contacts b !! 0%nat). }
    intros headContact. apply keeps_ping_addErrback. intros failure.
    apply keeps_bind; [apply keeps_read_name|]. intros _.
    destruct failure as [|g|]; try apply keeps_raise.
    apply keeps_bind; [|intros; apply IH].
    apply keeps_try_except.
    + apply at_bucket_ok. intros b _ Hb.
      split; [by apply J_removeContact|apply kbucket_removeContact_range].
    + intros [] h [= <-]. apply keeps_ret.
Qed.

Lemma tree_call_ok rs p call self :
  tree_ok rs p self -> tree_ok rs p (tree_call k call self).
Proof.
  intros H. destruct call; cbn [tree_call]; apply keeps_state; try done.
  - apply tree_addContact_rec_ok.
  - apply tree_removeContact_ok.
  - apply keeps_raise.
  - apply tree_touchKBucket_ok.
Qed.

Lemma tree_calls_ok rs p calls self :
  tree_ok rs p self -> tree_ok rs p (tree_calls k calls self).
Proof.
  revert self. induction calls as [|c cs IH]; intros self H; simpl; [done|].
  apply IH. by apply tree_call_ok.
Qed.
Section WellformedOptimized.
Variable rs : list (Z * Z).
Variable p : Guid.
Variable rc0 : gmap nat (list Contact).

(** Every bucket can be split: each range contains the parent id. *)
Definition always_splittable : Prop :=
  exists n, p = Some n /\ Forall (fun r : Z * Z => r.1 <= n < r.2) rs.

(** The invariant of an optimized table: that of its buckets, and the
    replacement cache is [rc0] as long as every bucket can be split. *)
Definition optimized_ok (self : OptimizedTreeRoutingTable) : Prop :=
  tree_ok rs p (tree self)
  /\ (always_splittable -> replacement_cache self = rc0).

Lemma inherited_ok_fact {A} (φ : A -> Prop) (m : M TreeRoutingTable A) :
  triple (tree_ok rs p) m (fun a s => tree_ok rs p s /\ φ a)
    (tree_ok rs p) ->
  triple optimized_ok (Optimized.inherited m)
    (fun a s => optimized_ok s /\ φ a) optimized_ok.
Proof.
  intros Hm self [Ht Hc]. specialize (Hm _ Ht). unfold Optimized.inherited.
  destruct (m (tree self)) as [t' [a|e]]; [|by split].
  destruct Hm as [Ht' Ha]. split; [by split|exact Ha].
Qed.

Lemma inherited_ok {A} (m : M TreeRoutingTable A) :
  keeps (tree_ok rs p) m -> keeps optimized_ok (Optimized.inherited m).
Proof.
  intros Hm self [Ht Hc]. specialize (Hm _ Ht). unfold Optimized.inherited.
  by destruct (m (tree self)) as [t' [a|e]]; split.
Qed.

(** A method that changes the replacement cache only. *)
Definition cache_only {A} (m : M OptimizedTreeRoutingTable A) : Prop :=
  forall self, tree (state_of (m self)) = tree self.

Lemma cache_only_ok {A} (m : M OptimizedTreeRoutingTable A) :
  ¬ always_splittable -> cache_only m -> keeps optimized_ok m.
Proof.
  intros Hno Hm self [Ht Hc]. specialize (Hm self). unfold state_of in Hm.
  destruct (m self) as [s' [a|e]]; simpl in Hm; unfold optimized_ok;
    by rewrite Hm.
Qed.

Lemma cache_only_ret {A} (a : A) :
  cache_only (mret a : M OptimizedTreeRoutingTable A).
Proof. done. Qed.

Lemma cache_only_bind {A B} (m : M OptimizedTreeRoutingTable A)
    (f : A -> M OptimizedTreeRoutingTable B) :
  cache_only m -> (forall a, cache_only (f a)) -> cache_only (m ≫= f).
Proof.
  intros Hm Hf self. specialize (Hm self). unfold mbind, M_bind.
  destruct (m self) as [s' [a|e]]; simpl in *; [|done].
  rewrite <- Hm. apply (Hf a s').
Qed.

Lemma cache_getitem_only i : cache_only (Optimized.cache_getitem i).
Proof.
  intros self. unfold Optimized.cache_getitem, mbind, M_bind, get.
  by destruct (replacement_cache self !! i).
Qed.

Lemma cache_setitem_only i l : cache_only (Optimized.cache_setitem i l).
Proof. done. Qed.

Lemma cache_pop_only i : cache_only (Optimized.cache_pop i).
Proof.
  intros self. unfold Optimized.cache_pop, mbind, M_bind, get, put.
  by destruct (replacement_cache self !! i).
Qed.

Lemma cache_contact_only i c : cache_only (Optimized.cache_contact k i c).
Proof.
  apply cache_only_bind; [done|]. intros self0.
  apply cache_only_bind.
  { by destruct (decide (replacement_cache self0 !! i = None)). }
  intros _. apply cache_only_bind; [apply cache_getitem_only|].
  intros cached. apply cache_only_bind.
  { destruct (list_find_guid (guid c) cached); [done|].
    apply cache_only_bind; [done|]. intros self1.
    destruct (decide (k <= size (replacement_cache self1))%nat); [|done].
    apply cache_only_bind; [apply cache_pop_only|done]. }
  intros _. apply cache_only_bind; [apply cache_getitem_only|done].
Qed.

Lemma optimized_removeContact_ok now g :
  keeps optimized_ok (Optimized.removeContact k now g).
Proof.
  apply keeps_bind.
  { apply inherited_ok. eapply triple_conseq; [apply kbucketIndex_ok|..];
      try done. by intros ? ? [? _]. }
  intros i. apply keeps_bind.
  { apply keeps_attempt, inherited_ok, at_bucket_ok.
    intros b _ Hb.
    split; [by apply J_removeContact|apply kbucket_removeContact_range]. }
  intros [[]|e].
  - eapply triple_bind with (R := fun _ _ => False);
      [by apply triple_raise|]. by intros cache s.
  - destruct e; try apply keeps_raise. apply keeps_ret.
Qed.

(** Whether bucket [i] can be split: it can when every bucket can. *)
Lemma keyInRange_parent_ok i :
  triple (tree_ok rs p) (Tree.at_bucket i (kbucket.keyInRange p))
    (fun splittable s =>
       tree_ok rs p s /\ (splittable = true \/ ¬ always_splittable))
    (tree_ok rs p).
Proof.
  intros self Hs. pose proof Hs as (Hp & Hr & Hok). unfold Tree.at_bucket.
  destruct (buckets self !! i) as [b|] eqn:Hb; [|done].
  destruct p as [n|] eqn:Hpn; simpl.
  - rewrite list_insert_id, set_buckets_id by done. split; [done|].
    case_bool_decide as Hin; [by left|]. right.
    intros (n' & Hn' & Hall). rewrite Hpn in Hn'. injection Hn' as <-.
    apply Hin.
    assert (rs !! i = Some (range_of b)) as Hri.
    { rewrite <- Hr. unfold ranges. by rewrite list_lookup_fmap, Hb. }
    exact (proj1 (Forall_lookup _ _) Hall i _ Hri).
  - by rewrite list_insert_id, set_buckets_id.
Qed.

(** The invariant of a call of [addContact]: that of the table; and
    past the guards, the guid of the contact is [g]. *)
Definition frame_ok (f : Optimized.Frame) : Prop := optimized_ok (fst f).

Definition frame_ok_guid (g : Guid) (f : Optimized.Frame) : Prop :=
  frame_ok f /\ guid (snd f) = g.

Lemma on_self_ok {A} (m : M OptimizedTreeRoutingTable A) :
  keeps optimized_ok m -> keeps frame_ok (Optimized.on_self m).
Proof.
  intros Hm f Hf. specialize (Hm _ Hf). unfold Optimized.on_self.
  by destruct (m (fst f)) as [s' [a|e]].
Qed.

Lemma on_self_ok_fact {A} (φ : A -> Prop)
    (m : M OptimizedTreeRoutingTable A) :
  triple optimized_ok m (fun a s => optimized_ok s /\ φ a) optimized_ok ->
  triple frame_ok (Optimized.on_self m)
    (fun a f => frame_ok f /\ φ a) frame_ok.
Proof.
  intros Hm f Hf. specialize (Hm _ Hf). unfold Optimized.on_self.
  by destruct (m (fst f)) as [s' [a|e]].
Qed.

Lemma on_self_ok_guid {A} g (φ : A -> Prop)
    (m : M OptimizedTreeRoutingTable A) :
  triple optimized_ok m (fun a s => optimized_ok s /\ φ a) optimized_ok ->
  triple (frame_ok_guid g) (Optimized.on_self m)
    (fun a f => frame_ok_guid g f /\ φ a) frame_ok.
Proof.
  intros Hm f [Hf Hg]. specialize (Hm _ Hf). unfold Optimized.on_self.
  destruct (m (fst f)) as [s' [a|e]]; [|done].
  destruct Hm as [Hs Ha]. split; [split|]; [exact Hs|exact Hg|exact Ha].
Qed.

Lemma insert_ok retry now i g :
  belongs rs g i ->
  keeps frame_ok retry ->
  triple (frame_ok_guid g) (Optimized.insert k retry now i)
    (fun _ => frame_ok) frame_ok.
Proof.
  intros Hi Hretry.
  apply (keeps_gets_fact frame_ok _ (fun c => guid c = g)); [done|].
  intros c Hc.
  eapply triple_bind
    with (R := fun self f => frame_ok f /\ parent_node_id (tree self) = p).
  { intros f Hf. split; [done|]. by destruct Hf as [[? _] _]. }
  intros self0.
  apply triple_try_except
    with (E' := fun f => frame_ok f /\ parent_node_id (tree self0) = p).
  { intros f [Hf Hp].
    pose proof (on_self_ok _
                  (inherited_ok _ (tree_add_at_bucket_ok rs p now c i
                                     ltac:(by rewrite Hc))) f Hf) as H.
    by destruct (Optimized.on_self _ f) as [f' [a|e]]. }
  intros [] ; try (by intros f [? _]).
  cbn beta iota.
  eapply triple_bind
    with (R := fun splittable f =>
                 frame_ok f /\ (splittable = true \/ ¬ always_splittable)).
  { intros f [Hf ->].
    by apply (on_self_ok_fact _ _
                (inherited_ok_fact _ _ (keyInRange_parent_ok i)) f). }
  intros [|].
  - eapply triple_conseq
      with (P' := frame_ok) (Q' := fun _ => frame_ok) (E' := frame_ok);
      [|by intros f [? _]|done|done].
    apply keeps_bind; [|by intros].
    apply on_self_ok, inherited_ok, keeps_raise.
  - intros f [Hf [|Hno]]; [done|].
    by apply (on_self_ok _ (cache_only_ok _ Hno (cache_contact_only i c)) f).
Qed.

Lemma addContact_body_ok retry now g :
  keeps frame_ok retry ->
  triple (frame_ok_guid g) (Optimized.addContact_body k retry now)
    (fun _ => frame_ok) frame_ok.
Proof.
  intros Hretry.
  assert (forall s, frame_ok_guid g s -> frame_ok s) as Hweak.
  { by intros s [? _]. }
  eapply triple_bind with (R := fun _ => frame_ok_guid g).
  { apply triple_modify. by intros [self c] [? ?]. }
  intros _.
  eapply triple_bind
    with (R := fun c f => frame_ok_guid g f /\ guid c = g).
  { intros f Hf. split; [done|]. by destruct Hf. }
  intros c.
  eapply triple_bind
    with (R := fun i f => frame_ok_guid g f /\ belongs rs g i).
  { intros f [Hf Hc]. rewrite Hc.
    by apply (on_self_ok_guid g (belongs rs g)
                (Optimized.kbucketIndex g)
                (inherited_ok_fact _ _ (kbucketIndex_ok rs p g)) f). }
  intros i.
  eapply triple_bind
    with (R := fun _ f => frame_ok_guid g f /\ belongs rs g i).
  { intros f [Hf Hi].
    pose proof (on_self_ok_guid g (fun _ => True)
                  (Optimized.at_bucket i (kbucket.getContact (guid c)))) as H.
    specialize (H ltac:(
      eapply triple_conseq;
        [apply inherited_ok, (at_bucket_read_ok rs p i); by intros b
        |done|by intros|done]) f Hf).
    destruct (Optimized.on_self _ f) as [f' [a|e]]; [|done].
    by destruct H. }
  intros [old|].
  - destruct (decide (address old ≠ address c)).
    + eapply triple_bind
        with (R := fun _ f => frame_ok_guid g f /\ belongs rs g i).
      * intros f [Hf Hi].
        pose proof (on_self_ok_guid g (fun _ => True)
                      (Optimized.removeContact k now (guid c))) as H.
        specialize (H ltac:(
          eapply triple_conseq;
            [apply optimized_removeContact_ok|done|by intros|done]) f Hf).
        destruct (Optimized.on_self _ f) as [f' [a|e]]; [|done].
        by destruct H.
      * intros _ f [Hf Hi]. by apply (insert_ok retry now i g).
    + intros f [Hf _]. by apply Hweak.
  - intros f [Hf Hi]. by apply (insert_ok retry now i g).
Qed.

Lemma optimized_addContact_rec_ok fuel now :
  keeps frame_ok (Optimized.addContact_rec k fuel now).
Proof.
  induction fuel as [|fuel IH]; simpl; [apply keeps_raise|].
  eapply triple_bind; [apply triple_gets|]. intros c.
  destruct (decide (guid c = None)).
  { apply triple_ret. by intros f [_ ?]. }
  eapply triple_bind; [apply triple_gets|]. intros self.
  destruct (decide (guid c = parent_node_id (tree self))).
  { apply triple_ret. by intros f (_ & _ & ?). }
  eapply triple_conseq;
    [by apply (addContact_body_ok _ now (guid c))| |done|done].
  by intros f (-> & -> & Hf).
Qed.

Lemma optimized_call_ok call self :
  optimized_ok self -> optimized_ok (optimized_call k call self).
Proof.
  intros H. destruct call; cbn [optimized_call].
  - exact (keeps_state frame_ok _ (self, contact)
             (optimized_addContact_rec_ok 1 now) H).
  - by apply keeps_state; [apply optimized_removeContact_ok|].
  - by apply keeps_state; [apply inherited_ok, keeps_raise|].
  - by apply keeps_state; [apply inherited_ok, tree_touchKBucket_ok|].
Qed.

Lemma optimized_calls_ok calls self :
  optimized_ok self -> optimized_ok (optimized_calls k calls self).
Proof.
  revert self. induction calls as [|c cs IH]; intros self H; simpl; [done|].
  apply IH. by apply optimized_call_ok.
Qed.
End WellformedOptimized.
End TableInvariant.

(** Well-formedness is such a property of buckets. *)
Lemma tree_calls_wellformed k rs p calls self :
  tree_ok (bucket_ok k) rs p self ->
  tree_ok (bucket_ok k) rs p (tree_calls k calls self).
Proof.
  apply tree_calls_ok.
  - intros g b Hb. by apply kbucket_removeContact_ok.
  - intros now c b Hc Hb. by apply kbucket_addContact_ok.
  - by intros t b Hb.
Qed.

Lemma optimized_calls_wellformed k rs p rc0 calls self :
  optimized_ok (bucket_ok k) rs p rc0 self ->
  optimized_ok (bucket_ok k) rs p rc0 (optimized_calls k calls self).
Proof.
  apply optimized_calls_ok.
  - intros g b Hb. by apply kbucket_removeContact_ok.
  - intros now c b Hc Hb. by apply kbucket_addContact_ok.
  - by intros t b Hb.
Qed.

(** X13.  After any sequence of calls on a table with well-formed buckets, the
    buckets are well formed: none holds more than [k] contacts or two
    contacts with the same guid, and each contact has an id of the range
    of its bucket. *)
Theorem tree_buckets_stay_wellformed (k : nat) (calls : list TreeCall)
    (self : TreeRoutingTable) :
  Forall (bucket_ok k) (buckets self) ->
  Forall (bucket_ok k) (buckets (tree_calls k calls self)).
Proof.
  intros Hok.
  by destruct (tree_calls_wellformed k (ranges (buckets self))
                 (parent_node_id self) calls self) as (_ & _ & ?).
Qed.

Lemma tree_buckets_stay_wellformed_witness :
  Forall (bucket_ok 2)
    (buckets
       (tree_calls 2
          [CallAddContact 10 (contact_at "10.0.0.1" 1) [];
           CallAddContact 20 (contact_at "10.0.0.1" 2) [];
           CallAddContact 30 (contact_at "10.0.0.1" 3) [];
           CallRemoveContact (Some 1);
           CallTouchKBucket 40 (Some 9)]
          (one_bucket_table (Some (2 ^ 159))))).
Proof.
  apply tree_buckets_stay_wellformed.
  repeat constructor; simpl; lia.
Defined.


(** X14.  The same for the optimized table: after any sequence of calls on a
    table with well-formed buckets, the buckets are well formed. *)
Theorem optimized_buckets_stay_wellformed (k : nat)
    (calls : list OptimizedCall) (self : OptimizedTreeRoutingTable) :
  Forall (bucket_ok k) (buckets (tree self)) ->
  Forall (bucket_ok k) (buckets (tree (optimized_calls k calls self))).
Proof.
  intros Hok.
  by destruct (optimized_calls_wellformed k (ranges (buckets (tree self)))
                 (parent_node_id (tree self)) (replacement_cache self)
                 calls self) as [(_ & _ & ?) _].
Qed.

Lemma optimized_buckets_stay_wellformed_witness :
  Forall (bucket_ok 2)
    (buckets
       (tree
          (optimized_calls 2
             [OCallAddContact 10 (contact_at "10.0.0.1" 1);
              OCallAddContact 20 (contact_at "10.0.0.1" 2);
              OCallAddContact 30 (contact_at "10.0.0.2" 2);
              OCallRemoveContact 40 (Some 1)]
             (one_bucket_optimized (Some (2 ^ 159)))))).
Proof.
  apply optimized_buckets_stay_wellformed.
  repeat constructor; simpl; lia.
Defined.

Lemma list_find_guid_NoDup l c :
  NoDup (guid <$> l) -> c ∈ l -> list_find_guid (guid c) l = Some c.
Proof.
  induction l as [|x l IH]; intros Hnd Hc; [by apply elem_of_nil in Hc|].
  rewrite fmap_cons in Hnd. apply NoDup_cons in Hnd as [Hx Hnd].
  rewrite list_find_guid_cons.
  apply elem_of_cons in Hc as [->|Hc]; [by rewrite decide_True|].
  rewrite decide_False; [by apply IH|].
  intros Heq. apply Hx. rewrite Heq. by apply list_elem_of_fmap_2.
Qed.

(** X15.  In a table whose buckets partition the id space and are well
    formed, [getContact] finds every stored contact: for a contact of a
    bucket within the id space it returns that contact. *)
Theorem getContact_finds_stored (k : nat) self b c :
  partitions (buckets self) ->
  Forall (bucket_ok k) (buckets self) ->
  b ∈ buckets self ->
  0 <= rangeMin b -> rangeMax b <= ID_SPACE ->
  c ∈ contacts b ->
  Tree.getContact (guid c) self = (self, Return (Some c)).
Proof.
  intros (_ & _ & Hone) Hok Hb Hlo Hhi Hc.
  apply list_elem_of_lookup in Hb as [i Hb].
  destruct (proj1 (Forall_lookup _ _) Hok i b Hb) as (_ & Hnd & Hin).
  pose proof (proj1 (Forall_forall _ _) Hin c Hc) as Hg.
  unfold guid_in in Hg. destruct (guid c) as [n|] eqn:Hn; [|done].
  destruct (Hone n ltac:(lia)) as (i0 & _ & Huniq).
  pose proof (Huniq i b Hb Hg) as ->.
  rewrite getContact_eq. f_equal.
  replace (kbucketIndex_outcome (Some n) (ranges (buckets self)))
    with (@Return nat i0).
  - rewrite Hb. f_equal. rewrite <- Hn. by apply list_find_guid_NoDup.
  - symmetry. apply kbucketIndex_outcome_Return. unfold ranges. split.
    + exists (range_of b). by rewrite list_lookup_fmap, Hb.
    + intros j r Hr Hnr.
      apply list_lookup_fmap_Some in Hr as (b' & -> & Hb').
      by apply (Huniq j b').
Qed.

Lemma getContact_finds_stored_witness :
  Tree.getContact (guid (example_contact 2)) example_table
  = (example_table, Return (Some (example_contact 2))).
Proof.
  apply (getContact_finds_stored 2 example_table
           (mkKBucket 0 (2 ^ 159) [example_contact 1; example_contact 2] 0)).
  - apply (partitions_split [] (mkKBucket 0 (2 ^ 160) [] 0) []); try done.
    apply (init_partitions None).
  - repeat constructor; simpl; try lia.
    + rewrite list_elem_of_singleton. discriminate.
    + apply not_elem_of_nil.
  - apply list_elem_of_here.
  - simpl. lia.
  - vm_compute. congruence.
  - apply list_elem_of_further, list_elem_of_here.
Defined.

(** X16.  On an optimized table all of whose bucket ranges contain the
    parent id, no sequence of calls changes the replacement cache: a
    full bucket can always be split, so no contact is cached for it, and
    the split raises; and [removeContact] raises before it reads the
    cache. *)
Theorem replacement_cache_untouched (k : nat) (n : Z)
    (calls : list OptimizedCall) (self : OptimizedTreeRoutingTable) :
  parent_node_id (tree self) = Some n ->
  Forall (fun b => rangeMin b <= n < rangeMax b) (buckets (tree self)) ->
  replacement_cache (optimized_calls k calls self) = replacement_cache self.
Proof.
  intros Hp Hall.
  destruct (optimized_calls_ok k (fun _ => True) (fun _ _ _ => I)
              (fun _ _ _ _ _ => I) (fun _ _ _ => I)
              (ranges (buckets (tree self))) (Some n)
              (replacement_cache self) calls self) as [_ Hcache].
  - split; [|done]. split; [done|]. split; [done|].
    by apply Forall_forall.
  - apply Hcache. exists n. split; [done|].
    unfold ranges. by apply Forall_fmap.
Qed.

(** A table of parent 7 whose one bucket is full ([k = 2]) and whose
    replacement cache holds contact 9. *)
Definition full_bucket_of_parent : OptimizedTreeRoutingTable :=
  mkOptimizedTreeRoutingTable
    (mkTreeRoutingTable (Some 7)
       [mkKBucket 0 (2 ^ 160) [example_contact 1; example_contact 2] 0])
    {[ 0%nat := [example_contact 9] ]}.

Lemma replacement_cache_untouched_witness :
  replacement_cache
    (optimized_calls 2
       [OCallAddContact 10 (contact_at "10.0.0.1" 3);
        OCallRemoveContact 20 (Some 1);
        OCallAddContact 30 (contact_at "10.0.0.1" 4);
        OCallAddContact 40 (contact_at "10.0.0.2" 2);
        OCallSplitBucket 50 0]
       full_bucket_of_parent)
  = replacement_cache full_bucket_of_parent.
Proof.
  apply (replacement_cache_untouched 2 7).
  - reflexivity.
  - apply Forall_singleton. vm_compute. split; congruence.
Defined.

(** * Refreshing *)

(** [_randomIDInBucketRange] reads bucket [j] only and changes
    nothing. *)
Lemma randomIDInBucketRange_frame r j s s' :
  buckets s !! j = buckets s' !! j ->
  state_of (Tree._randomIDInBucketRange r j s) = s
  /\ outcome_of (Tree._randomIDInBucketRange r j s)
     = outcome_of (Tree._randomIDInBucketRange r j s').
Proof.
  intros Hj. unfold Tree._randomIDInBucketRange, mbind, M_bind, Tree.at_bucket.
  rewrite <- Hj. destruct (buckets s !! j) as [b|] eqn:Hb; [|done].
  symmetry in Hj. cbn [gets]. rewrite !list_insert_id, !set_buckets_id by done.
  rewrite Hb, Hj. cbn [gets]. rewrite !list_insert_id, !set_buckets_id by done.
  unfold Tree.randrange. destruct (rangeMin b <? rangeMax b); [|done].
  cbn [mret M_ret].
  by destruct (pystr.decode_hex _).
Qed.

Lemma refresh_loop_frame refreshTimeout random now force bs : forall j s s',
  (forall j', (j <= j')%nat -> buckets s !! j' = buckets s' !! j') ->
  state_of (Tree.refresh_loop refreshTimeout random now force j bs s) = s
  /\ outcome_of (Tree.refresh_loop refreshTimeout random now force j bs s)
     = outcome_of (Tree.refresh_loop refreshTimeout random now force j bs s').
Proof.
  induction bs as [|b bs IH]; intros j s s' Hsame; [done|].
  cbn [Tree.refresh_loop].
  destruct (IH (j + 1)%nat s s') as [Hst Hout].
  { intros j' Hj'. apply Hsame. lia. }
  destruct (IH (j + 1)%nat s' s') as [Hst' _]; [done|].
  destruct (randomIDInBucketRange_frame (random j) j s s') as [Hrs Hro].
  { by apply Hsame. }
  destruct (randomIDInBucketRange_frame (random j) j s' s') as [Hrs' _];
    [done|].
  unfold state_of, outcome_of in *. unfold mbind, M_bind.
  destruct (force || bool_decide (refreshTimeout <= now - lastAccessed b)).
  - destruct (Tree._randomIDInBucketRange (random j) j s) as [s1 o1].
    destruct (Tree._randomIDInBucketRange (random j) j s') as [s1' o1'].
    simpl in *. subst s1 s1' o1'. destruct o1 as [id|e]; [|done].
    cbn [mret M_ret].
    destruct (Tree.refresh_loop _ _ _ _ _ bs s) as [s2 o2].
    destruct (Tree.refresh_loop _ _ _ _ _ bs s') as [s2' o2'].
    simpl in *. subst s2 s2'. rewrite Hout. by destruct o2'.
  - cbn [mret M_ret].
    destruct (Tree.refresh_loop _ _ _ _ _ bs s) as [s2 o2].
    destruct (Tree.refresh_loop _ _ _ _ _ bs s') as [s2' o2'].
    simpl in *. subst s2 s2'. rewrite Hout. by destruct o2'.
Qed.

(** X17.  A bucket that was just touched is not refreshed: after
    [touchKBucket(key)] at time [now], the refresh list from the bucket
    of the key on, asked for less than [refreshTimeout] later and not
    forced, is the refresh list from the next bucket on. *)
Theorem touchKBucket_then_getRefreshList refreshTimeout random now later
    key self i :
  outcome_of (Tree.kbucketIndex key self) = Return i ->
  later - now < refreshTimeout ->
  outcome_of (Tree.touchKBucket now key self) = Return tt
  /\ outcome_of
       (Tree.getRefreshList refreshTimeout random later i false
          (state_of (Tree.touchKBucket now key self)))
     = outcome_of
         (Tree.getRefreshList refreshTimeout random later (S i) false self).
Proof.
  intros Hi Hfresh. pose proof (kbucketIndex_lt key self i Hi) as Hlt.
  apply lookup_lt_is_Some in Hlt as [b Hb].
  rewrite kbucketIndex_eq in Hi. cbn [outcome_of snd] in Hi.
  set (b' := kbucket.set_lastAccessed now b).
  assert (Tree.touchKBucket now key self
          = (Tree.set_buckets (<[i := b']> (buckets self)) self, Return tt))
    as ->.
  { unfold Tree.touchKBucket, mbind, M_bind. rewrite kbucketIndex_eq, Hi.
    by apply (at_bucket_eq i _ self b). }
  split; [done|]. cbn [state_of fst].
  set (touched := Tree.set_buckets (<[i := b']> (buckets self)) self).
  unfold Tree.getRefreshList, mbind, M_bind, get.
  assert (drop i (buckets touched) = b' :: drop (S i) (buckets self)) as ->.
  { cbn [touched buckets Tree.set_buckets].
    pose proof (lookup_lt_Some _ _ _ Hb) as Hlt.
    rewrite <- (take_drop_middle (buckets self) i b Hb) at 1.
    rewrite insert_app_r_alt by (rewrite length_take; lia).
    rewrite length_take, Nat.min_l, Nat.sub_diag by lia. simpl.
    rewrite drop_app_length'; [done|]. rewrite length_take. lia. }
  cbn [Tree.refresh_loop orb lastAccessed b' kbucket.set_lastAccessed].
  rewrite bool_decide_eq_false_2 by lia.
  unfold mbind at 1, M_bind at 1. cbn [mret M_ret].
  replace (i + 1)%nat with (S i) by lia.
  destruct (refresh_loop_frame refreshTimeout random later false
              (drop (S i) (buckets self)) (S i) touched self) as [_ Hout].
  { intros j Hj. cbn [touched buckets Tree.set_buckets].
    apply list_lookup_insert_ne. lia. }
  unfold outcome_of in *. unfold mbind, M_bind.
  destruct (Tree.refresh_loop _ _ _ _ _ _ touched) as [s1 o1].
  destruct (Tree.refresh_loop _ _ _ _ _ _ self) as [s2 o2].
  simpl in *. rewrite Hout. by destruct o2.
Qed.

Lemma touchKBucket_then_getRefreshList_witness :
  outcome_of (Tree.touchKBucket 9000 (Some (2 ^ 158 + 1)) three_buckets)
  = Return tt
  /\ outcome_of
       (Tree.getRefreshList constants.refreshTimeout
          (fun i => 1234567 + Z.of_nat i) 10000 1 false
          (state_of (Tree.touchKBucket 9000 (Some (2 ^ 158 + 1))
                       three_buckets)))
     = outcome_of
         (Tree.getRefreshList constants.refreshTimeout
            (fun i => 1234567 + Z.of_nat i) 10000 2 false three_buckets).
Proof.
  apply touchKBucket_then_getRefreshList.
  - vm_compute. reflexivity.
  - vm_compute. reflexivity.
Defined.

Lemma length_encode_hex s :
  length (pystr.encode_hex s) = (2 * length s)%nat.
Proof.
  induction s as [|c s IH]; [done|].
  change (c :: s) with ([c] ++ s). rewrite encode_hex_app, length_app, IH.
  simpl. lia.
Qed.

(** X18.  For a bucket with a non-empty range within the id space,
    [_randomIDInBucketRange] returns a string of exactly 20 bytes that,
    read as a number the way [distance] reads a key, is an id of the
    range of the bucket; the table is left as it was. *)
Theorem randomIDInBucketRange_20_bytes r i self b :
  buckets self !! i = Some b ->
  0 <= rangeMin b < rangeMax b -> rangeMax b <= ID_SPACE ->
  exists randomID,
    Tree._randomIDInBucketRange r i self = (self, Return randomID)
    /\ length randomID = 20%nat
    /\ rangeMin b <= be_value randomID < rangeMax b.
Proof.
  intros Hb Hrange Hmax.
  destruct (randomIDInBucketRange_spec r i self b Hb Hrange Hmax)
    as (randomID & n & Hrun & Hn & Hlen & _ & Hint).
  exists randomID. split; [done|].
  rewrite length_encode_hex in Hlen. rewrite int16_encode_hex in Hint.
  injection Hint as <-. split; [|done].
  unfold constants.BIT_NODE_ID_LEN in Hlen. change (160 / 4) with 40 in Hlen.
  lia.
Qed.

Lemma randomIDInBucketRange_20_bytes_witness :
  exists randomID,
    Tree._randomIDInBucketRange 1234567 1 three_buckets
    = (three_buckets, Return randomID)
    /\ length randomID = 20%nat
    /\ rangeMin (mkKBucket (2 ^ 158) (2 ^ 159) [] 2800)
       <= be_value randomID
       < rangeMax (mkKBucket (2 ^ 158) (2 ^ 159) [] 2800).
Proof.
  apply (randomIDInBucketRange_20_bytes 1234567 1 three_buckets
           (mkKBucket (2 ^ 158) (2 ^ 159) [] 2800)).
  - reflexivity.
  - vm_compute. split; congruence.
  - vm_compute. congruence.
Defined.

(** X19.  [_randomIDInBucketRange] raises [IndexError] for an index past the
    last bucket and [ValueError] for a bucket with an empty range, and
    leaves the table as it was. *)
Theorem randomIDInBucketRange_errors r i self :
  (buckets self !! i = None ->
   Tree._randomIDInBucketRange r i self = (self, Raise IndexError))
  /\ (forall b, buckets self !! i = Some b -> rangeMax b <= rangeMin b ->
      Tree._randomIDInBucketRange r i self = (self, Raise ValueError)).
Proof.
  split.
  - intros Hi. unfold Tree._randomIDInBucketRange, mbind, M_bind, Tree.at_bucket.
    by rewrite Hi.
  - intros b Hb Hempty. unfold Tree._randomIDInBucketRange.
    unfold mbind at 1, M_bind at 1.
    rewrite (at_bucket_read i _ self b (Return (rangeMin b)) Hb) by done.
    unfold mbind at 1, M_bind at 1.
    rewrite (at_bucket_read i _ self b (Return (rangeMax b)) Hb) by done.
    unfold mbind at 1, M_bind at 1, Tree.randrange.
    replace (rangeMin b <? rangeMax b) with false; [done|].
    symmetry. apply Z.ltb_ge. lia.
Qed.

(** * The optimized table *)

Lemma optimized_at_bucket_read {A} i (m : M KBucket A) self b r :
  buckets (tree self) !! i = Some b ->
  m b = (b, r) ->
  Optimized.at_bucket i m self = (self, r).
Proof.
  intros Hb Hm. unfold Optimized.at_bucket, Optimized.inherited.
  rewrite (at_bucket_read i m (tree self) b r Hb Hm). by destruct self.
Qed.

Lemma optimized_kbucketIndex_eq g self :
  Optimized.kbucketIndex g self
  = (self, kbucketIndex_outcome g (ranges (buckets (tree self)))).
Proof.
  unfold Optimized.kbucketIndex, Optimized.inherited.
  rewrite kbucketIndex_eq. by destruct self.
Qed.

(** X20.  [removeContact] of the optimized table raises [AttributeError]
    exactly when it has removed a contact: an id that the bucket does not
    hold is no error and changes nothing; an id that it holds is removed
    from the bucket, the replacement cache stays as it is, and the call
    raises. *)
Theorem optimized_removeContact_outcomes (k : nat) now g self i b :
  outcome_of (Tree.kbucketIndex g (tree self)) = Return i ->
  buckets (tree self) !! i = Some b ->
  Optimized.removeContact k now g self
  = match list_remove g (contacts b) with
    | None => (self, Return tt)
    | Some l =>
        (mkOptimizedTreeRoutingTable
           (Tree.set_buckets
              (<[i := kbucket.set_contacts l b]> (buckets (tree self)))
              (tree self))
           (replacement_cache self),
         Raise (AttributeError "replacementCache"))
    end.
Proof.
  intros Hi Hb. rewrite kbucketIndex_eq in Hi. cbn [outcome_of snd] in Hi.
  unfold Optimized.removeContact, Optimized.removeContact_via.
  unfold mbind at 1, M_bind at 1. rewrite optimized_kbucketIndex_eq, Hi.
  unfold mbind at 1, M_bind at 1, attempt.
  destruct (list_remove g (contacts b)) as [l|] eqn:Hl.
  - rewrite (optimized_at_bucket_eq i _ self b (kbucket.set_contacts l b)
               (Return tt) Hb); [done|].
    unfold kbucket.removeContact, mbind, M_bind, get. simpl. by rewrite Hl.
  - rewrite (optimized_at_bucket_read i _ self b (Raise ValueError) Hb);
      [done|].
    unfold kbucket.removeContact, mbind, M_bind, get. simpl. by rewrite Hl.
Qed.

Lemma optimized_removeContact_outcomes_witness :
  Optimized.removeContact 2 100 (Some 1) example_optimized
  = match list_remove (Some 1)
            (contacts (mkKBucket 0 (2 ^ 159)
                         [example_contact 1; example_contact 2] 0)) with
    | None => (example_optimized, Return tt)
    | Some l =>
        (mkOptimizedTreeRoutingTable
           (Tree.set_buckets
              (<[0%nat := kbucket.set_contacts l
                            (mkKBucket 0 (2 ^ 159)
                               [example_contact 1; example_contact 2] 0)]>
                 (buckets (tree example_optimized)))
              (tree example_optimized))
           (replacement_cache example_optimized),
         Raise (AttributeError "replacementCache"))
    end.
Proof.
  apply (optimized_removeContact_outcomes 2 100 (Some 1) example_optimized 0).
  - vm_compute. reflexivity.
  - reflexivity.
Defined.

Lemma cache_contact_new k i c self cached :
  default [] (replacement_cache self !! i) = cached ->
  list_find_guid (guid c) cached = None ->
  (size (<[i := cached]> (replacement_cache self)) < k)%nat ->
  Optimized.cache_contact k i c self
  = (Optimized.set_replacement_cache
       (<[i := cached ++ [c]]> (replacement_cache self)) self,
     Return tt).
Proof.
  intros Hcached Hnew Hsize.
  unfold Optimized.cache_contact, mbind, M_bind, get.
  destruct (replacement_cache self !! i) as [l|] eqn:Hi; simpl in Hcached;
    subst cached.
  - rewrite decide_False by done. cbn [mret M_ret].
    unfold Optimized.cache_getitem, Optimized.cache_setitem, mbind, M_bind,
      get, modify.
    rewrite Hi. cbn [mret M_ret]. rewrite Hnew.
    rewrite insert_id in Hsize by done.
    rewrite decide_False by lia. cbn [mret M_ret]. by rewrite Hi.
  - rewrite decide_True by done.
    unfold Optimized.cache_getitem, Optimized.cache_setitem, mbind, M_bind,
      get, modify, Optimized.set_replacement_cache.
    cbn [replacement_cache tree]. rewrite lookup_insert_eq.
    cbn [mret M_ret]. rewrite Hnew. cbn [replacement_cache].
    rewrite decide_False by lia. cbn [mret M_ret replacement_cache tree].
    rewrite lookup_insert_eq. cbn [mret M_ret replacement_cache tree].
    by rewrite insert_insert_eq.
Qed.

(** The steps of [addContact] up to the insertion, for a contact with a
    guid that its bucket, of index [i], does not hold. *)
Lemma optimized_addContact_new k now c self i b :
  guid c ≠ None ->
  guid c ≠ parent_node_id (tree self) ->
  outcome_of (Tree.kbucketIndex (guid c) (tree self)) = Return i ->
  buckets (tree self) !! i = Some b ->
  list_find_guid (guid c) (contacts b) = None ->
  Optimized.addContact k now c self
  = Optimized.insert k (Optimized.addContact_rec k 0 now) now i
      (self, set_failedRPCs 0 c).
Proof.
  intros Hg Hp Hi Hb Hnew. rewrite kbucketIndex_eq in Hi.
  cbn [outcome_of snd] in Hi.
  unfold Optimized.addContact. rewrite optimized_addContact_rec_S.
  rewrite !decide_False by done.
  unfold Optimized.addContact_body.
  unfold mbind at 1, M_bind at 1, modify at 1. cbn [fst snd].
  unfold mbind at 1, M_bind at 1, gets at 1. cbn [fst snd guid set_failedRPCs].
  unfold mbind at 1, M_bind at 1, Optimized.on_self at 1. cbn [fst snd].
  rewrite optimized_kbucketIndex_eq, Hi.
  unfold mbind at 1, M_bind at 1, Optimized.on_self at 1. cbn [fst snd].
  rewrite (optimized_at_bucket_read i _ self b (Return None) Hb); [done|].
  unfold kbucket.getContact, mbind, M_bind, get. simpl. by rewrite Hnew.
Qed.

(** X21.  A new contact for a full bucket that cannot be split becomes the
    last entry of the replacement cache of the bucket, its counter of
    failed RPCs at 0; an earlier entry with its guid is dropped, the
    other entries keep their order, and no bucket changes.  (Unless the
    contact is cached already, this needs the dictionary, with the key
    of the bucket, to have fewer than [k] keys.) *)
Theorem addContact_caches_candidate (k : nat) now c self i b pn :
  guid c ≠ None ->
  guid c ≠ parent_node_id (tree self) ->
  parent_node_id (tree self) = Some pn ->
  outcome_of (Tree.kbucketIndex (guid c) (tree self)) = Return i ->
  buckets (tree self) !! i = Some b ->
  list_find_guid (guid c) (contacts b) = None ->
  (k <= length (contacts b))%nat ->
  ¬ (rangeMin b <= pn < rangeMax b) ->
  let cached := default [] (replacement_cache self !! i) in
  (is_Some (list_find_guid (guid c) cached)
   \/ (size (<[i := cached]> (replacement_cache self)) < k)%nat) ->
  Optimized.addContact k now c self
  = ((Optimized.set_replacement_cache
        (<[i := default cached (list_remove (guid c) cached)
                ++ [set_failedRPCs 0 c]]> (replacement_cache self)) self,
      set_failedRPCs 0 c),
     Return tt).
Proof.
  intros Hg Hp Hpn Hi Hb Hnew Hfull Hout cached Hcache.
  rewrite (optimized_addContact_new k now c self i b Hg Hp Hi Hb Hnew).
  set (c0 := set_failedRPCs 0 c).
  unfold Optimized.insert.
  unfold mbind at 1, M_bind at 1, gets at 1. cbn [fst snd].
  unfold mbind at 1, M_bind at 1, gets at 1. cbn [fst snd].
  unfold try_except, Optimized.on_self at 1. cbn [fst snd].
  rewrite (optimized_at_bucket_read i _ self b (Raise BucketFull) Hb).
  2:{ unfold kbucket.addContact, mbind, M_bind, get. simpl. rewrite Hnew.
      destruct (decide (length (contacts b) < k)%nat); [lia|done]. }
  unfold mbind at 1, M_bind at 1, Optimized.on_self at 1. cbn [fst snd].
  rewrite (optimized_at_bucket_read i _ self b (Return false) Hb).
  2:{ rewrite Hpn. unfold kbucket.keyInRange, mbind, M_bind, get. simpl.
      by rewrite bool_decide_eq_false_2. }
  unfold Optimized.on_self. cbn [fst snd].
  destruct (list_find_guid (guid c) cached) as [old|] eqn:Hfind.
  - assert (replacement_cache self !! i = Some cached) as Hsome.
    { subst cached. destruct (replacement_cache self !! i); [done|].
      simpl in Hfind. discriminate. }
    destruct (cache_contact_again k i c0 self cached old Hsome Hfind)
      as (rest & Hrest & ->).
    cbn [guid c0 set_failedRPCs] in Hrest. by rewrite Hrest.
  - destruct Hcache as [[? [=]]|Hsize].
    rewrite (cache_contact_new k i c0 self cached eq_refl Hfind Hsize).
    apply list_find_guid_None, list_remove_None in Hfind.
    by rewrite Hfind.
Qed.

Lemma addContact_caches_candidate_witness :
  Optimized.addContact 2 100 (mkContact (Some 3) ("10.0.0.1"%string, 12003) 7)
    example_optimized
  = ((Optimized.set_replacement_cache
        (<[0%nat := default
                      (default [] (replacement_cache example_optimized !! 0%nat))
                      (list_remove (Some 3)
                         (default []
                            (replacement_cache example_optimized !! 0%nat)))
                    ++ [mkContact (Some 3) ("10.0.0.1"%string, 12003) 0]]>
           (replacement_cache example_optimized)) example_optimized,
      mkContact (Some 3) ("10.0.0.1"%string, 12003) 0),
     Return tt).
Proof.
  apply (addContact_caches_candidate 2 100
           (mkContact (Some 3) ("10.0.0.1"%string, 12003) 7)
           example_optimized 0
           (mkKBucket 0 (2 ^ 159) [example_contact 1; example_contact 2] 0)
           (2 ^ 159)).
  - discriminate.
  - vm_compute. congruence.
  - reflexivity.
  - vm_compute. reflexivity.
  - reflexivity.
  - reflexivity.
  - simpl. lia.
  - vm_compute. intros [_ H]. discriminate H.
  - right. vm_compute. lia.
Defined.

(** X22.  In the optimized table, after [addContact] of a contact with a new
    guid whose bucket has room, the contact is the last of its bucket,
    its counter of failed RPCs at 0, and the inherited [getContact]
    returns it. *)
Theorem optimized_addContact_then_getContact (k : nat) now c self i b :
  guid c ≠ None ->
  guid c ≠ parent_node_id (tree self) ->
  outcome_of (Tree.kbucketIndex (guid c) (tree self)) = Return i ->
  buckets (tree self) !! i = Some b ->
  list_find_guid (guid c) (contacts b) = None ->
  (length (contacts b) < k)%nat ->
  Optimized.addContact k now c self
  = ((mkOptimizedTreeRoutingTable
        (Tree.set_buckets
           (<[i := mkKBucket (rangeMin b) (rangeMax b)
                     (contacts b ++ [set_failedRPCs 0 c]) now]>
              (buckets (tree self))) (tree self))
        (replacement_cache self),
      set_failedRPCs 0 c),
     Return tt)
  /\ outcome_of
       (Optimized.inherited (Tree.getContact (guid c))
          (fst (state_of (Optimized.addContact k now c self))))
     = Return (Some (set_failedRPCs 0 c)).
Proof.
  intros Hg Hp Hi Hb Hnew Hroom.
  rewrite (optimized_addContact_new k now c self i b Hg Hp Hi Hb Hnew).
  set (c0 := set_failedRPCs 0 c).
  set (b' := mkKBucket (rangeMin b) (rangeMax b) (contacts b ++ [c0]) now).
  assert (Optimized.insert k (Optimized.addContact_rec k 0 now) now i (self, c0)
          = ((mkOptimizedTreeRoutingTable
                (Tree.set_buckets (<[i := b']> (buckets (tree self)))
                   (tree self))
                (replacement_cache self), c0), Return tt)) as ->.
  { unfold Optimized.insert.
    unfold mbind at 1, M_bind at 1, gets at 1. cbn [fst snd].
    unfold mbind at 1, M_bind at 1, gets at 1. cbn [fst snd].
    unfold try_except, Optimized.on_self at 1. cbn [fst snd].
    rewrite (optimized_at_bucket_eq i _ self b b' (Return tt) Hb); [done|].
    unfold kbucket.addContact, mbind, M_bind, get. simpl. rewrite Hnew.
    by rewrite decide_True. }
  split; [done|]. cbn [state_of fst]. unfold Optimized.inherited.
  cbn [tree replacement_cache]. rewrite getContact_eq.
  cbn [outcome_of snd buckets Tree.set_buckets].
  rewrite (ranges_insert _ _ b) by done.
  rewrite kbucketIndex_eq in Hi. cbn [outcome_of snd] in Hi. rewrite Hi.
  rewrite list_lookup_insert_eq by (by eapply lookup_lt_Some).
  cbn [contacts b']. rewrite list_find_guid_snoc, Hnew.
  by rewrite decide_True.
Qed.

Lemma optimized_addContact_then_getContact_witness :
  Optimized.addContact 2 100
    (mkContact (Some (2 ^ 159 + 3)) ("10.0.0.1"%string, 12003) 7)
    example_optimized
  = ((mkOptimizedTreeRoutingTable
        (Tree.set_buckets
           (<[1%nat := mkKBucket
                         (rangeMin (mkKBucket (2 ^ 159) (2 ^ 160) [] 0))
                         (rangeMax (mkKBucket (2 ^ 159) (2 ^ 160) [] 0))
                         (contacts (mkKBucket (2 ^ 159) (2 ^ 160) [] 0)
                          ++ [set_failedRPCs 0
                                (mkContact (Some (2 ^ 159 + 3))
                                   ("10.0.0.1"%string, 12003) 7)]) 100]>
              (buckets (tree example_optimized))) (tree example_optimized))
        (replacement_cache example_optimized),
      set_failedRPCs 0
        (mkContact (Some (2 ^ 159 + 3)) ("10.0.0.1"%string, 12003) 7)),
     Return tt)
  /\ outcome_of
       (Optimized.inherited
          (Tree.getContact
             (guid (mkContact (Some (2 ^ 159 + 3))
                      ("10.0.0.1"%string, 12003) 7)))
          (fst (state_of
                  (Optimized.addContact 2 100
                     (mkContact (Some (2 ^ 159 + 3))
                        ("10.0.0.1"%string, 12003) 7)
                     example_optimized))))
     = Return (Some (set_failedRPCs 0
                       (mkContact (Some (2 ^ 159 + 3))
                          ("10.0.0.1"%string, 12003) 7))).
Proof.
  apply (optimized_addContact_then_getContact 2 100
           (mkContact (Some (2 ^ 159 + 3)) ("10.0.0.1"%string, 12003) 7)
           example_optimized 1 (mkKBucket (2 ^ 159) (2 ^ 160) [] 0)).
  - discriminate.
  - vm_compute. congruence.
  - vm_compute. reflexivity.
  - reflexivity.
  - reflexivity.
  - simpl. lia.
Defined.

(** * What the queries and [touchKBucket] leave alone *)

(** X24.  The queries change nothing: whatever they return or raise,
    [kbucketIndex], [getContact], [findCloseNodes],
    [_randomIDInBucketRange] and [getRefreshList] leave the table as it
    was. *)
Theorem queries_leave_table_unchanged (k : nat) (refreshTimeout : Z)
    (self : TreeRoutingTable) :
  (forall g, state_of (Tree.kbucketIndex g self) = self)
  /\ (forall g, state_of (Tree.getContact g self) = self)
  /\ (forall key count nodeID,
        state_of (Tree.findCloseNodes k key count nodeID self) = self)
  /\ (forall r i, state_of (Tree._randomIDInBucketRange r i self) = self)
  /\ (forall random now startIndex force,
        state_of (Tree.getRefreshList refreshTimeout random now startIndex
                    force self) = self).
Proof.
  split; [|split; [|split; [|split]]].
  - intros g. by rewrite kbucketIndex_eq.
  - intros g. by rewrite getContact_eq.
  - intros key count nodeID.
    unfold Tree.findCloseNodes, Tree.findCloseNodes_at.
    unfold mbind at 1, M_bind at 1. rewrite kbucketIndex_eq.
    by destruct (kbucketIndex_outcome key (ranges (buckets self))).
  - intros r i. by apply (randomIDInBucketRange_frame r i self self).
  - intros random now startIndex force.
    unfold Tree.getRefreshList, mbind, M_bind, get.
    by apply (refresh_loop_frame refreshTimeout random now force
                (drop startIndex (buckets self)) startIndex self self).
Qed.

(** X25.  [touchKBucket] changes times of last access only: whatever the key,
    and whether the call returns or raises, every bucket keeps its range
    and its contacts, and the table its parent id and its number of
    buckets. *)
Theorem touchKBucket_keeps_contacts now key self :
  parent_node_id (state_of (Tree.touchKBucket now key self))
  = parent_node_id self
  /\ ranges (buckets (state_of (Tree.touchKBucket now key self)))
     = ranges (buckets self)
  /\ contacts <$> buckets (state_of (Tree.touchKBucket now key self))
     = contacts <$> buckets self.
Proof.
  unfold Tree.touchKBucket, mbind, M_bind. rewrite kbucketIndex_eq.
  destruct (kbucketIndex_outcome key (ranges (buckets self))) as [i|e];
    [|done].
  unfold Tree.at_bucket. destruct (buckets self !! i) as [b|] eqn:Hb; [|done].
  cbn [modify state_of fst parent_node_id buckets Tree.set_buckets].
  split; [done|]. split.
  - by apply (ranges_insert _ _ b).
  - rewrite list_fmap_insert. apply list_insert_id.
    by rewrite list_lookup_fmap, Hb.
Qed.
